(** * happy-css-modules: the Locator

    A shallow embedding of [Locator] (the loader of CSS Modules sheets) and
    of [defaultTransformer], with the properties of the load engine, the
    cache and the concurrency guard.

    The asynchronous methods are modelled in a state-and-exception monad over
    the fields the class mutates ([cache], [loading]).  The calls to
    [fs/promises] and to the resolver are recorded, newest first, in a ghost
    log.  The recursion of [_load] through imported sheets is not structural
    (it follows the files on disk), so [_load] takes fuel; the outcome
    [Pending] stands for a promise that has not settled within the fuel. *)

From Stdlib Require Import ZArith String List Lia.
From stdpp Require Import base option list gmap strings.

Open Scope string_scope.
Open Scope list_scope.

(** ** Data model *)

(** Modelled from the spec: the type [Location] of [postcss.js], which is not
    among the sources.  "{ filePath: string, line: 1-based int, column:
    0-based int }". *)
Record Location := mkLocation {
  filePath : string;
  line : Z;
  column : Z;
}.

(** [type Token]: [importedName] is an optional property. *)
Record Token := mkToken {
  name : string;
  importedName : option string;
  originalLocation : Location;
}.

(** [type LoadResult]. *)
Record LoadResult := mkLoadResult {
  dependencies : list string;
  tokens : list Token;
}.

(** [type CacheEntry]. *)
Record CacheEntry := mkCacheEntry {
  mtime : Z;
  result : LoadResult;
}.

#[global] Instance Location_eq_dec : EqDecision Location.
Proof. solve_decision. Defined.
#[global] Instance Token_eq_dec : EqDecision Token.
Proof. solve_decision. Defined.
#[global] Instance LoadResult_eq_dec : EqDecision LoadResult.
Proof. solve_decision. Defined.
#[global] Instance CacheEntry_eq_dec : EqDecision CacheEntry.
Proof. solve_decision. Defined.

(** ** Specifier classifier *)

(** [String.prototype.startsWith]. *)
Definition startsWith (s searchString : string) : bool :=
  String.prefix searchString s.

Definition isIgnoredSpecifier (specifier : string) : bool :=
  startsWith specifier "http://" || startsWith specifier "https://".

(** ** [util.js]: [unique] and [uniqueBy] *)

(** Modelled from the spec: [uniqueBy] of [util.js], which is not among the
    sources.  "De-duplicate [tokens] by full structural equality", "Token
    de-duplication preserves first-seen order": an element is kept when no
    earlier element has its key. *)
Fixpoint uniqueBy_aux {A K : Type} `{EqDecision K}
    (fn : A → K) (keys : list K) (arr : list A) : list A :=
  match arr with
  | [] => []
  | el :: arr' =>
      if decide (fn el ∈ keys) then uniqueBy_aux fn keys arr'
      else el :: uniqueBy_aux fn (fn el :: keys) arr'
  end.

Definition uniqueBy {A K : Type} `{EqDecision K} (arr : list A) (fn : A → K) : list A :=
  uniqueBy_aux fn [] arr.

(** Modelled from the spec: [unique] of [util.js], which is not among the
    sources.  "De-duplicate [dependencies] preserving insertion order". *)
Definition unique {A : Type} `{EqDecision A} (array : list A) : list A :=
  uniqueBy array id.

(** ** [JSON.stringify] on tokens

    The text that [JSON.stringify] prints is modelled as its sequence of
    lexemes (punctuation between members left out): the text determines the
    lexemes and the lexemes determine the text. *)
Inductive JSONLexeme :=
  | LBrace
  | RBrace
  | LKey (k : string)
  | LString (s : string)
  | LNumber (n : Z).

#[global] Instance JSONLexeme_eq_dec : EqDecision JSONLexeme.
Proof. solve_decision. Defined.

Definition JSON_stringify_Location (l : Location) : list JSONLexeme :=
  [LBrace; LKey "filePath"; LString (filePath l);
   LKey "line"; LNumber (line l);
   LKey "column"; LNumber (column l); RBrace].

(** The object literals of [_load] list [name], then [importedName] when it
    is given, then [originalLocation]; an absent property is not printed. *)
Definition JSON_stringify (token : Token) : list JSONLexeme :=
  [LBrace; LKey "name"; LString (name token)]
  ++ match importedName token with
     | Some i => [LKey "importedName"; LString i]
     | None => []
     end
  ++ [LKey "originalLocation"] ++ JSON_stringify_Location (originalLocation token)
  ++ [RBrace].

(** ** The collaborators of the Locator *)

(** [map: string | object | undefined] of a transformer's result. *)
Inductive SourceMap {MapObject : Type} :=
  | MapString (s : string)
  | MapObj (o : MapObject).
Arguments SourceMap : clear implicits.

(** JavaScript truthiness of a defined [map]: only the empty string is falsy. *)
Definition truthy {MapObject : Type} (m : SourceMap MapObject) : bool :=
  match m with
  | MapString s => negb (bool_decide (s = ""))
  | MapObj _ => true
  end.

(** An element of a transformer's [dependencies]: a string or a [URL]. *)
Inductive Dependency :=
  | DepString (dep : string)
  | DepURL (protocol pathname : string).

Record TransformResult {MapObject : Type} := mkTransformResult {
  tr_css : string;
  tr_map : option (SourceMap MapObject);
  tr_dependencies : list Dependency;
}.
Arguments TransformResult : clear implicits.
Arguments mkTransformResult {MapObject} tr_css tr_map tr_dependencies.

(** What awaiting a transformer gives: its result, [false], or a rejection. *)
Inductive TransformerOutcome {MapObject : Type} :=
  | Transformed (r : TransformResult MapObject)
  | TransformedFalse
  | TransformerRejects.
Arguments TransformerOutcome : clear implicits.

(** [Transformer], as a function of [source] and of [from]. *)
Definition Transformer (MapObject : Type) : Type :=
  string → string → TransformerOutcome MapObject.

(** [Resolver], as a function of [specifier] and of [request]; [None] is
    [false].  A resolver that rejects ends [_load] where one that returns
    [false] does, with its own error instead of the one of the strict
    resolver; it is not told apart here. *)
Definition Resolver : Type := string → string → option string.

(** Modelled from the spec: the result type of [parseAtValue] of
    [postcss.js], which is not among the sources.  "valueDeclaration:
    { type: 'valueDeclaration', tokenName, ... }; valueImportDeclaration:
    { type: 'valueImportDeclaration', from, imports: [{ localTokenName,
    importedTokenName }] }". *)
Record ValueImport := mkValueImport {
  localTokenName : string;
  importedTokenName : string;
}.

Inductive ParsedAtValue :=
  | valueDeclaration (tokenName : string)
  | valueImportDeclaration (from : string) (imports : list ValueImport).

#[global] Instance ValueImport_eq_dec : EqDecision ValueImport.
Proof. solve_decision. Defined.

(** ** Errors, outcomes and the state of a Locator *)

Inductive Error :=
  | ConcurrentLoadError                         (* Cannot call `Locator#load` concurrently. *)
  | CouldNotResolve (specifier request : string) (* Could not resolve '..' in '..'. *)
  | UnsupportedProtocol (protocol : string)      (* Unsupported protocol: .. *)
  | StatError (path : string)                    (* [stat] rejects *)
  | ReadFileError (path : string)                (* [readFile] rejects *)
  | CssSyntaxError (from : string)               (* [postcss.parse] throws *)
  | TransformerError (from : string)             (* the transformer rejects *)
  | PostcssError (from : string)                 (* a helper of [postcss.js] throws *)
  | TypeError.                                   (* a property of [undefined] is read *)

#[global] Instance Error_eq_dec : EqDecision Error.
Proof. solve_decision. Defined.

(** The calls that leave the Locator. *)
Inductive Event :=
  | EvStat (path : string)
  | EvReadFile (path : string)
  | EvResolve (specifier request : string).

#[global] Instance Event_eq_dec : EqDecision Event.
Proof. solve_decision. Defined.

Definition is_read (e : Event) : bool :=
  match e with EvReadFile _ => true | _ => false end.

Definition is_resolve_of (specifier : string) (e : Event) : bool :=
  match e with EvResolve s _ => bool_decide (s = specifier) | _ => false end.

(** The mutable fields of a [Locator], and the calls made so far (the newest
    first). *)
Record State := mkState {
  cache : gmap string CacheEntry;
  loading : bool;
  log : list Event;
}.

Inductive Outcome (A : Type) :=
  | Ok (a : A)
  | Err (e : Error)
  | Pending.
Arguments Ok {A} a.
Arguments Err {A} e.
Arguments Pending {A}.

Definition M (A : Type) : Type := State → Outcome A * State.

Definition ret {A} (a : A) : M A := fun s => (Ok a, s).
Definition throw {A} (e : Error) : M A := fun s => (Err e, s).
Definition pending {A} : M A := fun s => (Pending, s).
Definition bind {A B} (m : M A) (k : A → M B) : M B :=
  fun s =>
    match m s with
    | (Ok a, s') => k a s'
    | (Err e, s') => (Err e, s')
    | (Pending, s') => (Pending, s')
    end.

Notation "'let*' x ':=' m 'in' k" := (bind m (fun x => k))
  (at level 10, x pattern, m at level 100, k at level 200).

Definition record (e : Event) : M unit :=
  fun s => (Ok tt, mkState (cache s) (loading s) (e :: log s)).
Definition cache_get (key : string) : M (option CacheEntry) :=
  fun s => (Ok (cache s !! key), s).
Definition cache_set (key : string) (entry : CacheEntry) : M unit :=
  fun s => (Ok tt, mkState (<[key := entry]> (cache s)) (loading s) (log s)).
Definition of_option {A} (o : option A) (e : Error) : M A :=
  match o with Some a => ret a | None => throw e end.

(** ** The Locator *)

(** The three node lists of [collectNodes]. *)
Record CollectedNodes {AtRule Rule ClassSelector : Type} := mkCollectedNodes {
  atImports : list AtRule;
  atValues : list AtRule;
  classSelectors : list (Rule * ClassSelector);
}.
Arguments CollectedNodes : clear implicits.
Arguments mkCollectedNodes {AtRule Rule ClassSelector} atImports atValues classSelectors.

(** What a Locator is built on: [fs/promises], [postcss] and the helpers of
    [postcss.js] (none of them among the sources, so they are parameters),
    and the two readonly fields set by the constructor. *)
Record Env {Root AtRule Rule ClassSelector MapObject : Type} := mkEnv {
  (* fs/promises: the mtime in milliseconds, the text; [None] is a rejection *)
  stat : string → option Z;
  readFile : string → option string;
  (* postcss.parse(css, { from, map: { inline: false, prev? } }) *)
  postcss_parse : string → string → option (SourceMap MapObject) → option Root;
  (* ./postcss.js *)
  generateLocalTokenNames : Root → option (list string);
  collectNodes : Root → CollectedNodes AtRule Rule ClassSelector;
  parseAtImport : AtRule → option string;
  parseAtValue : AtRule → option ParsedAtValue;
  getOriginalLocationOfClassSelector : Rule → ClassSelector → Location;
  getOriginalLocationOfAtValue : AtRule → ParsedAtValue → Location;
  value : ClassSelector → string;
  (* this.transformer; options?.resolver ?? createDefaultResolver() *)
  transformer : option (Transformer MapObject);
  resolver : Resolver;
}.
Arguments Env : clear implicits.

(** [LocatorOptions]. *)
Record LocatorOptions {MapObject : Type} := mkLocatorOptions {
  options_transformer : option (Transformer MapObject);
  options_resolver : option Resolver;
}.
Arguments LocatorOptions : clear implicits.
Arguments mkLocatorOptions {MapObject} options_transformer options_resolver.

(** The constructor: [options?.transformer ?? createDefaultTransformer()] and
    [options?.resolver ?? createDefaultResolver()]. *)
Definition constructor_transformer {MapObject : Type}
    (createDefaultTransformer : Transformer MapObject)
    (options : option (LocatorOptions MapObject)) : option (Transformer MapObject) :=
  Some (default createDefaultTransformer (options ≫= options_transformer)).

Definition constructor_resolver {MapObject : Type}
    (createDefaultResolver : Resolver)
    (options : option (LocatorOptions MapObject)) : Resolver :=
  default createDefaultResolver (options ≫= options_resolver).

(** A new Locator: an empty cache, [loading = false]. *)
Definition new_state : State := mkState ∅ false [].

(** [String.prototype.endsWith]. *)
Definition endsWith (s searchString : string) : bool :=
  String.prefix (String.rev searchString) (String.rev s).

(** [defaultTransformer], over the two backends. *)
Definition defaultTransformer {MapObject : Type}
    (scssTransformer lessTransformer : Transformer MapObject) : Transformer MapObject :=
  fun source from =>
    if endsWith from ".scss" then scssTransformer source from
    else if endsWith from ".less" then lessTransformer source from
    else TransformedFalse.

(** What [readCSS] returns. *)
Record ReadCSS {MapObject : Type} := mkReadCSS {
  css : string;
  map : option (SourceMap MapObject);
  css_dependencies : list string;
}.
Arguments ReadCSS : clear implicits.
Arguments mkReadCSS {MapObject} css map css_dependencies.

(** The loop of [_load] over [result.tokens] for one [valueImportDeclaration]:
    [imports.find(...)] takes the first entry whose [importedTokenName] is
    the token's name. *)
Definition matchedImport (imports : list ValueImport) (token : Token) : option ValueImport :=
  List.find (fun i => bool_decide (importedTokenName i = name token)) imports.

Fixpoint push_imported_tokens (imports : list ValueImport)
    (result_tokens : list Token) (toks : list Token) : list Token :=
  match result_tokens with
  | [] => toks
  | token :: rest =>
      match matchedImport imports token with
      | None => push_imported_tokens imports rest toks
      | Some i =>
          if bool_decide (localTokenName i = importedTokenName i) then
            push_imported_tokens imports rest
              (toks ++ [mkToken (localTokenName i) None (originalLocation token)])
          else
            push_imported_tokens imports rest
              (toks ++ [mkToken (localTokenName i) (Some (importedTokenName i))
                                  (originalLocation token)])
      end
  end.

Section Locator.
Context {Root AtRule Rule ClassSelector MapObject : Type}.
Context (E : Env Root AtRule Rule ClassSelector MapObject).

(** [(await stat(path)).mtime.getTime()]. *)
Definition stat_mtime (path : string) : M Z :=
  let* _ := record (EvStat path) in
  of_option (stat E path) (StatError path).

(** [await readFile(path, 'utf-8')]. *)
Definition read_file (path : string) : M string :=
  let* _ := record (EvReadFile path) in
  of_option (readFile E path) (ReadFileError path).

(** [this.resolver]: the resolver made strict by the constructor. *)
Definition strict_resolver (specifier request : string) : M string :=
  let* _ := record (EvResolve specifier request) in
  of_option (resolver E specifier request) (CouldNotResolve specifier request).

(** The loop of [isCacheOutdated] over the dependencies of the entry. *)
Fixpoint isCacheOutdated_loop (dependencies : list string) : M bool :=
  match dependencies with
  | [] => ret false
  | dependency :: rest =>
      let* entry := cache_get dependency in
      match entry with
      | None => ret true
      | Some entry =>
          let* m := stat_mtime dependency in
          if bool_decide (mtime entry ≠ m) then ret true
          else isCacheOutdated_loop rest
      end
  end.

Definition isCacheOutdated (filePath : string) : M bool :=
  let* entry := cache_get filePath in
  match entry with
  | None => ret true
  | Some entry =>
      let* m := stat_mtime filePath in
      if bool_decide (mtime entry ≠ m) then ret true
      else isCacheOutdated_loop (dependencies (result entry))
  end.

(** [result.dependencies.map(...)] of [readCSS]: throws at the first [URL]
    whose protocol is not [file:]. *)
Fixpoint map_dependencies (deps : list Dependency) : M (list string) :=
  match deps with
  | [] => ret []
  | DepString dep :: rest =>
      let* rest' := map_dependencies rest in ret (dep :: rest')
  | DepURL protocol pathname :: rest =>
      if bool_decide (protocol ≠ "file:") then throw (UnsupportedProtocol protocol)
      else let* rest' := map_dependencies rest in ret (pathname :: rest')
  end.

Definition readCSS (filePath : string) : M (ReadCSS MapObject) :=
  let* css := read_file filePath in
  match transformer E with
  | None => ret (mkReadCSS css None [])
  | Some transformer =>
      match transformer css filePath with
      | TransformerRejects => throw (TransformerError filePath)
      | TransformedFalse => ret (mkReadCSS css None [])
      | Transformed r =>
          let* deps := map_dependencies (tr_dependencies r) in
          ret (mkReadCSS (tr_css r) (tr_map r)
                 (filter (λ dep, isIgnoredSpecifier dep = false) deps))
      end
  end.

(** [postcss.parse(css, { from, map: map ? { inline: false, prev: map }
    : { inline: false } })]. *)
Definition parse (css filePath : string) (map : option (SourceMap MapObject)) : M Root :=
  let prev := match map with
              | Some m => if truthy m then Some m else None
              | None => None
              end in
  of_option (postcss_parse E css filePath prev) (CssSyntaxError filePath).

(** The first loop of [_load]: the imported sheets.  [load] is the
    recursive call.  [!importedSheetPath] holds of [undefined] and of the
    empty string. *)
Fixpoint for_atImports (load : string → M LoadResult) (filePath : string)
    (atImports : list AtRule) (deps : list string) (toks : list Token)
    : M (list string * list Token) :=
  match atImports with
  | [] => ret (deps, toks)
  | atImport :: rest =>
      match parseAtImport E atImport with
      | None => for_atImports load filePath rest deps toks
      | Some importedSheetPath =>
          if bool_decide (importedSheetPath = "") then
            for_atImports load filePath rest deps toks
          else if isIgnoredSpecifier importedSheetPath then
            for_atImports load filePath rest deps toks
          else
            let* from := strict_resolver importedSheetPath filePath in
            let* result := load from in
            for_atImports load filePath rest
              (deps ++ from :: dependencies result)
              (toks ++ tokens result)
      end
  end.

(** The second loop: the class selectors that are local tokens. *)
Fixpoint for_classSelectors (localTokenNames : list string)
    (selectors : list (Rule * ClassSelector)) (toks : list Token) : list Token :=
  match selectors with
  | [] => toks
  | (rule, classSelector) :: rest =>
      if bool_decide (value E classSelector ∈ localTokenNames) then
        for_classSelectors localTokenNames rest
          (toks ++ [mkToken (value E classSelector) None
                      (getOriginalLocationOfClassSelector E rule classSelector)])
      else for_classSelectors localTokenNames rest toks
  end.

(** The third loop: the [@value] rules. *)
Fixpoint for_atValues (load : string → M LoadResult) (filePath : string)
    (atValues : list AtRule) (deps : list string) (toks : list Token)
    : M (list string * list Token) :=
  match atValues with
  | [] => ret (deps, toks)
  | atValue :: rest =>
      let* parsedAtValue := of_option (parseAtValue E atValue) (PostcssError filePath) in
      match parsedAtValue with
      | valueDeclaration tokenName =>
          for_atValues load filePath rest deps
            (toks ++ [mkToken tokenName None
                          (getOriginalLocationOfAtValue E atValue parsedAtValue)])
      | valueImportDeclaration from_ imports =>
          if isIgnoredSpecifier from_ then
            for_atValues load filePath rest deps toks
          else
            let* from := strict_resolver from_ filePath in
            let* result := load from in
            for_atValues load filePath rest
              (deps ++ from :: dependencies result)
              (push_imported_tokens imports (tokens result) toks)
      end
  end.

(** The body of [_load] from [readCSS] to the end of the third loop: the
    lists [dependencies] and [tokens] as they are before they are made
    unique.  [load] is the recursive call. *)
Definition load_sheet (load : string → M LoadResult) (filePath : string)
    : M (list string * list Token) :=
  let* r := readCSS filePath in
  let* ast := parse (css r) filePath (map r) in
  let* localTokenNames :=
    of_option (generateLocalTokenNames E ast) (PostcssError filePath) in
  let nodes := collectNodes E ast in
  let* imported :=
    for_atImports load filePath (atImports nodes) (css_dependencies r) [] in
  let toks := for_classSelectors localTokenNames (classSelectors nodes) imported.2 in
  for_atValues load filePath (atValues nodes) imported.1 toks.

(** The [result] that [_load] makes of the two lists. *)
Definition make_result (filePath : string) (all : list string * list Token) : LoadResult :=
  mkLoadResult (filter (λ dep, dep ≠ filePath) (unique all.1))
               (uniqueBy all.2 JSON_stringify).

Fixpoint _load (fuel : nat) (filePath : string) : M LoadResult :=
  match fuel with
  | O => pending
  | S fuel =>
      let* outdated := isCacheOutdated filePath in
      if negb outdated then
        let* cacheEntry := cache_get filePath in
        match cacheEntry with
        | Some cacheEntry => ret (result cacheEntry)
        | None => throw TypeError
        end
      else
        let* m := stat_mtime filePath in
        let* all := load_sheet (_load fuel) filePath in
        let result := make_result filePath all in
        let* _ := cache_set filePath (mkCacheEntry m result) in
        ret result
  end.

(** [finally]: run [f] on the state whichever way [m] settles. *)
Definition finally {A} (m : M A) (f : State → State) : M A :=
  fun s =>
    match m s with
    | (Ok a, s') => (Ok a, f s')
    | (Err e, s') => (Err e, f s')
    | (Pending, s') => (Pending, s')
    end.

Definition set_loading (b : bool) (s : State) : State :=
  mkState (cache s) b (log s).

Definition load (fuel : nat) (filePath : string) : M LoadResult :=
  fun s =>
    if loading s then (Err ConcurrentLoadError, s)
    else finally (_load fuel filePath) (set_loading false) (set_loading true s).
End Locator.

(** ** Predicates used in the statements *)

(** A result that [_load] may return for [filePath]: the sheet itself is not
    among its dependencies, no dependency is listed twice, and no two tokens
    are equal. *)
Definition result_wf (filePath : string) (r : LoadResult) : Prop :=
  (filePath ∉ dependencies r) ∧ NoDup (dependencies r) ∧ NoDup (tokens r).

(** A cache whose entries are all such results. *)
Definition cache_wf (c : gmap string CacheEntry) : Prop :=
  ∀ key entry, c !! key = Some entry → result_wf key (result entry).

(** [x] comes before [y] in [l], counting first occurrences only. *)
Definition first_before {A : Type} (l : list A) (x y : A) : Prop :=
  ∃ l1 l2, l = l1 ++ x :: l2 ∧ (x ∉ l1) ∧ (y ∉ l1) ∧ (y ∈ l2).

Section Predicates.
Context {Root AtRule Rule ClassSelector MapObject : Type}.
Context (E : Env Root AtRule Rule ClassSelector MapObject).

(** The cache holds an entry for [path] with the mtime the file has now. *)
Definition fresh (c : gmap string CacheEntry) (path : string) : Prop :=
  ∃ entry, c !! path = Some entry ∧ stat E path = Some (mtime entry).

(** The events that [_load] may record: no resolution of an ignored
    specifier. *)
Definition allowed (e : Event) : Prop :=
  ∀ specifier request, e = EvResolve specifier request →
    isIgnoredSpecifier specifier = false.


(** The specifiers of the [@import] rules of a sheet, the empty one apart,
    and of its [@value ... from] rules. *)
Definition import_specifiers (ast : Root) : list string :=
  let nodes := collectNodes E ast in
  omap (λ atImport, match parseAtImport E atImport with
                   | Some specifier =>
                       if bool_decide (specifier = "") then None else Some specifier
                   | None => None
                   end) (atImports nodes)
  ++ omap (λ atValue, match parseAtValue E atValue with
                      | Some (valueImportDeclaration from _) => Some from
                      | _ => None
                      end) (atValues nodes).

(** The sheets that the body of [_load] asks for when it loads [filePath]:
    what the specifiers that are not ignored resolve to, when the sheet can
    be read, transformed and parsed. *)
Definition imported_sheets (filePath : string) : list string :=
  match readCSS E filePath new_state with
  | (Ok r, _) =>
      match parse E (css r) filePath (map r) new_state with
      | (Ok ast, _) =>
          omap (λ specifier,
                  if isIgnoredSpecifier specifier then None
                  else resolver E specifier filePath)
               (import_specifiers ast)
      | _ => []
      end
  | _ => []
  end.
End Predicates.

(** The token that one exported token gives under the entry [i]. *)
Definition imported_token (i : ValueImport) (token : Token) : Token :=
  mkToken (localTokenName i)
    (if bool_decide (localTokenName i = importedTokenName i) then None
     else Some (importedTokenName i))
    (originalLocation token).

(** [m] keeps the invariant [I], however it settles, and does not throw
    the error of the concurrency guard. *)
Definition preserves (I : State → Prop) {A : Type} (m : M A) : Prop :=
  ∀ s, I s → I (m s).2 ∧ (m s).1 ≠ Err ConcurrentLoadError.

(** The states that a Locator goes through: it starts with an empty cache,
    and every call of [load] leaves it in the next state, whatever is on
    the disk at that time. *)
Inductive reachable {Root AtRule Rule ClassSelector MapObject : Type} : State → Prop :=
  | reachable_new : reachable new_state
  | reachable_load (E : Env Root AtRule Rule ClassSelector MapObject) fuel filePath s :
      reachable s → reachable (load E fuel filePath s).2.
Arguments reachable : clear implicits.

(** The same Locator with another [this.transformer]. *)
Definition set_transformer {Root AtRule Rule ClassSelector MapObject : Type}
    (t : option (Transformer MapObject))
    (E : Env Root AtRule Rule ClassSelector MapObject)
    : Env Root AtRule Rule ClassSelector MapObject :=
  mkEnv _ _ _ _ _ (stat E) (readFile E) (postcss_parse E) (generateLocalTokenNames E)
    (collectNodes E) (parseAtImport E) (parseAtValue E)
    (getOriginalLocationOfClassSelector E) (getOriginalLocationOfAtValue E) (value E)
    t (resolver E).

Section CachePredicates.
Context {Root AtRule Rule ClassSelector MapObject : Type}.
Context (E : Env Root AtRule Rule ClassSelector MapObject).

(** [isCacheOutdated] answers [false] for [path]: its entry is fresh and so
    is the entry of each dependency listed in it. *)
Definition up_to_date (c : gmap string CacheEntry) (path : string) (r : LoadResult) : Prop :=
  (∃ entry, c !! path = Some entry ∧ stat E path = Some (mtime entry) ∧ result entry = r)
  ∧ Forall (fresh E c) (dependencies r).

(** The calls to [stat] that the loop of [isCacheOutdated] records for
    [deps], the newest first. *)
Definition stats (deps : list string) : list Event := rev (EvStat <$> deps).
End CachePredicates.

Section Settled.
Context {Root AtRule Rule ClassSelector MapObject : Type}.
Context (E : Env Root AtRule Rule ClassSelector MapObject).

End Settled.

(** [m] settles, with a value or with an error. *)
Definition settles {A : Type} (m : M A) : Prop := ∀ s, (m s).1 ≠ Pending.

(** No dependency listed in the cache is a specifier to ignore. *)
Definition cache_local (c : gmap string CacheEntry) : Prop :=
  ∀ key entry dep, c !! key = Some entry → dep ∈ dependencies (result entry) →
    isIgnoredSpecifier dep = false.

(** The resolver contract: what it returns is a path, not a specifier to
    ignore. *)
Definition resolves_to_paths (resolver : Resolver) : Prop :=
  ∀ specifier request path,
    resolver specifier request = Some path → isIgnoredSpecifier path = false.

(** What a successful [load] keeps of [cache_local]. *)
Definition local (load : string → M LoadResult) : Prop :=
  ∀ path s r s', cache_local (cache s) → load path s = (Ok r, s') →
    Forall (λ dep, isIgnoredSpecifier dep = false) (dependencies r) ∧
    cache_local (cache s').

Section Reference.
Context {Root AtRule Rule ClassSelector MapObject : Type}.
Context (E : Env Root AtRule Rule ClassSelector MapObject).

(** A recursive call that answers from a table and leaves the state as it
    is. *)
Definition oracle (table : string → Outcome LoadResult) : string → M LoadResult :=
  fun path s => (table path, s).

(** What [_load] makes of a sheet when nothing is cached: the body of
    [_load] with itself, uncached, as the recursive call. *)
Fixpoint uncached (fuel : nat) (filePath : string) : Outcome LoadResult :=
  match fuel with
  | O => Pending
  | S fuel =>
      match (load_sheet E (oracle (uncached fuel)) filePath new_state).1 with
      | Ok all => Ok (make_result filePath all)
      | Err e => Err e
      | Pending => Pending
      end
  end.

(** Every result in the cache is the one that [_load] makes of its sheet
    on the disk as it is. *)
Definition coherent (c : gmap string CacheEntry) : Prop :=
  ∀ key entry, c !! key = Some entry →
    ∃ fuel, uncached fuel key = Ok (result entry).

(** [load] keeps the cache coherent and returns such results only. *)
Definition faithful (load : string → M LoadResult) : Prop :=
  ∀ path s o s', coherent (cache s) → load path s = (o, s') →
    coherent (cache s') ∧ ∀ r, o = Ok r → ∃ fuel, uncached fuel path = Ok r.

(** The states of a Locator all of whose loads have seen the disk as it
    is in [E]. *)
Inductive reachable_on : State → Prop :=
  | reachable_on_new : reachable_on new_state
  | reachable_on_load fuel filePath s :
      reachable_on s → reachable_on (load E fuel filePath s).2.
End Reference.

(** ** Further vocabulary: dependencies, errors, steps and exports *)

(** The path that [readCSS] makes of a dependency the transformer reports. *)
Definition dependency_path (dep : Dependency) : string :=
  match dep with
  | DepString dep => dep
  | DepURL _ pathname => pathname
  end.

(** A dependency that [readCSS] takes: a string, or a [URL] of protocol
    [file:]. *)
Definition supported (dep : Dependency) : Prop :=
  match dep with
  | DepString _ => True
  | DepURL protocol _ => protocol = "file:"
  end.

(** [m] takes a state to one that is [R]-related to it, however it
    settles. *)
Definition steps (R : State → State → Prop) {A : Type} (m : M A) : Prop :=
  ∀ s o s', m s = (o, s') → R s s'.

(** [m] throws errors of [P] only. *)
Definition raises (P : Error → Prop) {A : Type} (m : M A) : Prop :=
  ∀ s e s', m s = (Err e, s') → P e.

(** The log of [s'] is the log of [s] with newer calls before it. *)
Definition log_grows (s s' : State) : Prop := ∃ new, log s' = new ++ log s.

(** The entries of the sheets of rank [K] and above are in [s'] as they
    are in [s]. *)
Definition untouched_above (rank : string → nat) (K : nat) (s s' : State) : Prop :=
  ∀ k, (K ≤ rank k)%nat → cache s' !! k = cache s !! k.

Section Vocabulary.
Context {Root AtRule Rule ClassSelector MapObject : Type}.
Context (E : Env Root AtRule Rule ClassSelector MapObject).

(** What lies behind each error that [_load] throws. *)
Definition justified (e : Error) : Prop :=
  match e with
  | ConcurrentLoadError => False
  | CouldNotResolve specifier request =>
      resolver E specifier request = None ∧ isIgnoredSpecifier specifier = false
  | UnsupportedProtocol protocol =>
      protocol ≠ "file:" ∧
      ∃ t source from r pathname,
        transformer E = Some t ∧ readFile E from = Some source ∧
        t source from = Transformed r ∧
        DepURL protocol pathname ∈ tr_dependencies r
  | StatError path => stat E path = None
  | ReadFileError path => readFile E path = None
  | CssSyntaxError from => ∃ css map, postcss_parse E css from map = None
  | TransformerError from =>
      ∃ t source,
        transformer E = Some t ∧ readFile E from = Some source ∧
        t source from = TransformerRejects
  | PostcssError from =>
      (∃ ast, generateLocalTokenNames E ast = None) ∨
      (∃ atValue, parseAtValue E atValue = None)
  | TypeError => False
  end.

(** What a load keeps of the cache: no entry is removed, what is fresh
    stays fresh and what is up to date stays up to date. *)
Definition cache_kept (s s' : State) : Prop :=
  (∀ k, is_Some (cache s !! k) → is_Some (cache s' !! k)) ∧
  (∀ k, fresh E (cache s) k → fresh E (cache s') k) ∧
  (∀ path r, up_to_date E (cache s) path r → up_to_date E (cache s') path r).

(** [rq] is what a Locator makes of the sheet [q] on the disk as it is. *)
Definition loads_to (q : string) (rq : LoadResult) : Prop :=
  ∃ fuel, uncached E fuel q = Ok rq.

(** The token that the second loop of [_load] makes of a class selector. *)
Definition class_token (selector : Rule * ClassSelector) : Token :=
  mkToken (value E selector.2) None
    (getOriginalLocationOfClassSelector E selector.1 selector.2).

(** The sheet that an [@import] rule of [filePath] asks for. *)
Definition import_target (filePath : string) (atImport : AtRule) (q : string) : Prop :=
  ∃ specifier,
    parseAtImport E atImport = Some specifier ∧ specifier ≠ "" ∧
    isIgnoredSpecifier specifier = false ∧
    resolver E specifier filePath = Some q.

(** The sheet that a [@value ... from] rule of [filePath] asks for, with
    the names it imports. *)
Definition value_import_target (filePath : string) (atValue : AtRule)
    (imports : list ValueImport) (q : string) : Prop :=
  ∃ from_,
    parseAtValue E atValue = Some (valueImportDeclaration from_ imports) ∧
    isIgnoredSpecifier from_ = false ∧
    resolver E from_ filePath = Some q.

(** The tokens that the three loops of [_load] push for the sheet
    [filePath] parsed as [ast], when the recursive call for [q] answers
    with a result [rq] such that [answers q rq]. *)
Inductive pushed (answers : string → LoadResult → Prop) (filePath : string)
    (ast : Root) (localTokenNames : list string) : Token → Prop :=
  | pushed_import atImport q rq t :
      atImport ∈ atImports (collectNodes E ast) →
      import_target filePath atImport q →
      answers q rq → t ∈ tokens rq →
      pushed answers filePath ast localTokenNames t
  | pushed_class selector :
      selector ∈ classSelectors (collectNodes E ast) →
      value E selector.2 ∈ localTokenNames →
      pushed answers filePath ast localTokenNames (class_token selector)
  | pushed_value atValue tokenName :
      atValue ∈ atValues (collectNodes E ast) →
      parseAtValue E atValue = Some (valueDeclaration tokenName) →
      pushed answers filePath ast localTokenNames
        (mkToken tokenName None
           (getOriginalLocationOfAtValue E atValue (valueDeclaration tokenName)))
  | pushed_value_import atValue imports q rq token i :
      atValue ∈ atValues (collectNodes E ast) →
      value_import_target filePath atValue imports q →
      answers q rq → token ∈ tokens rq →
      matchedImport imports token = Some i →
      pushed answers filePath ast localTokenNames (imported_token i token).

(** An [@import] rule that the first loop of [_load] passes over: it has no
    specifier, an empty one, or one to ignore. *)
Definition passed_over (atImport : AtRule) : Prop :=
  match parseAtImport E atImport with
  | None => True
  | Some specifier => specifier = "" ∨ isIgnoredSpecifier specifier = true
  end.

(** The sheets that the loops of [_load] ask for. *)
Definition asked (filePath : string) (ast : Root) (q : string) : Prop :=
  (∃ atImport, atImport ∈ atImports (collectNodes E ast) ∧
     import_target filePath atImport q) ∨
  (∃ atValue imports, atValue ∈ atValues (collectNodes E ast) ∧
     value_import_target filePath atValue imports q).
End Vocabulary.

(** ** Fixtures: small sheets on a small disk *)

Module Fixture.
(** The nodes of a parsed sheet: an [@import] with the specifier
    [parseAtImport] finds, an [@value] with what [parseAtValue] makes of
    it, a class selector with its rule's position. *)
Inductive Node :=
  | NImport (specifier : option string)
  | NValue (parsed : option ParsedAtValue) (position : Location)
  | NClass (selector : string) (position : Location).

Definition assoc {A} (k : string) (l : list (string * A)) : option A :=
  snd <$> List.find (fun kv => bool_decide (kv.1 = k)) l.

Definition is_import (n : Node) : bool :=
  match n with NImport _ => true | _ => false end.
Definition is_value (n : Node) : bool :=
  match n with NValue _ _ => true | _ => false end.

(** A sheet is its nodes and its local token names. *)
Definition Sheet : Type := list Node * list string.

(** [files] maps a path to its mtime and text, [sheets] maps a text to
    what it parses to (a text that is not listed is a syntax error); a
    specifier resolves to itself when it is an absolute path. *)
Definition env (files : list (string * (Z * string)))
    (sheets : list (string * Sheet))
    (transformer : option (Transformer unit)) : Env Sheet Node Location string unit :=
  {| stat p := fst <$> assoc p files;
     readFile p := snd <$> assoc p files;
     postcss_parse css from prev := assoc css sheets;
     generateLocalTokenNames ast := Some ast.2;
     collectNodes ast :=
       mkCollectedNodes (List.filter is_import ast.1) (List.filter is_value ast.1)
         (omap (λ n, match n with NClass c l => Some (l, c) | _ => None end) ast.1);
     parseAtImport n := match n with NImport s => s | _ => None end;
     parseAtValue n := match n with NValue p _ => p | _ => None end;
     getOriginalLocationOfClassSelector rule _ := rule;
     getOriginalLocationOfAtValue n _ :=
       match n with NValue _ l => l | _ => mkLocation "" 0 0 end;
     value c := c;
     transformer := transformer;
     resolver specifier request :=
       if String.prefix "/" specifier then Some specifier else None |}.

Definition a_css : string := "/src/a.css".
Definition b_css : string := "/src/b.css".

(** [a.css] is [@import '/src/a.css';]. *)
Definition self_import : Env Sheet Node Location string unit :=
  env [(a_css, (1%Z, "@import '/src/a.css';"))]
      [("@import '/src/a.css';", ([NImport (Some a_css)], []))]
      None.

(** [a.css] imports [b.css] and a remote sheet and declares [.a];
    [b.css] declares [.b] twice. *)
Definition a_imports_b : Env Sheet Node Location string unit :=
  env [(a_css, (1%Z, "A")); (b_css, (2%Z, "B"))]
      [("A", ([NImport (Some b_css); NImport (Some "https://example.com/c.css");
               NClass "a" (mkLocation a_css 3 0)], ["a"]));
       ("B", ([NClass "b" (mkLocation b_css 1 0);
               NClass "b" (mkLocation b_css 2 0);
               NClass "b" (mkLocation b_css 1 0)], ["b"]))]
      None.

(** [a.css] as above, after [b.css] has been deleted. *)
Definition b_deleted : Env Sheet Node Location string unit :=
  env [(a_css, (1%Z, "A"))]
      [("A", ([NImport (Some b_css); NImport (Some "https://example.com/c.css");
               NClass "a" (mkLocation a_css 3 0)], ["a"]));
       ("B", ([NClass "b" (mkLocation b_css 1 0);
               NClass "b" (mkLocation b_css 2 0);
               NClass "b" (mkLocation b_css 1 0)], ["b"]))]
      None.

Definition a_scss : string := "/src/a.scss".
Definition d_scss : string := "/src/_d.scss".

(** A transformer that inlines the partial [_d.scss] into [a.scss] and
    reports it as a dependency. *)
Definition inlining : Transformer unit :=
  fun source from =>
    if bool_decide (from = a_scss) then
      Transformed (mkTransformResult ".d{} .a{}" None [DepString d_scss])
    else TransformedFalse.

Definition inlined : list (string * Sheet) :=
  [(".d{} .a{}", ([NClass "d" (mkLocation a_scss 1 0);
                   NClass "a" (mkLocation a_scss 1 5)], ["d"; "a"]))].

(** [a.scss] is [@use 'd'; .a{}] and [_d.scss] is [.d{}]. *)
Definition a_uses_d : Env Sheet Node Location string unit :=
  env [(a_scss, (1%Z, "@use 'd'; .a{}")); (d_scss, (1%Z, ".d{}"))]
      inlined (Some inlining).

(** The same after [_d.scss] has been deleted. *)
Definition d_deleted : Env Sheet Node Location string unit :=
  env [(a_scss, (1%Z, "@use 'd'; .a{}"))] inlined (Some inlining).

Definition theme_css : string := "/src/theme.css".
Definition values_css : string := "/src/values.css".

(** [@value x, y as z, y as w, missing as m from '/src/values.css';] *)
Definition x_as_x : ValueImport := mkValueImport "x" "x".
Definition y_as_z : ValueImport := mkValueImport "z" "y".
Definition y_as_w : ValueImport := mkValueImport "w" "y".
Definition missing_as_m : ValueImport := mkValueImport "m" "missing".

Definition theme_rule : Node :=
  NValue (Some (valueImportDeclaration values_css
                  [x_as_x; y_as_z; y_as_w; missing_as_m]))
         (mkLocation theme_css 1 0).

(** [values.css] is [@value x: 1; @value y: 2;]. *)
Definition theme : Env Sheet Node Location string unit :=
  env [(theme_css, (1%Z, "T")); (values_css, (1%Z, "V"))]
      [("T", ([theme_rule], []));
       ("V", ([NValue (Some (valueDeclaration "x")) (mkLocation values_css 1 0);
               NValue (Some (valueDeclaration "y")) (mkLocation values_css 2 0)], []))]
      None.

Definition x_token : Token := mkToken "x" None (mkLocation values_css 1 0).
Definition y_token : Token := mkToken "y" None (mkLocation values_css 2 0).
Definition values_result : LoadResult := mkLoadResult [] [x_token; y_token].

(** The state in which the loop of [theme.css] loads [values.css], and the
    state after that. *)
Definition theme_resolved : State :=
  mkState ∅ false [EvResolve values_css theme_css].
Definition theme_loaded : State :=
  (_load theme 1 values_css theme_resolved).2.

(** The results of loading [a.css] (with [b.css]) and [a.scss]. *)
Definition b_result : LoadResult :=
  mkLoadResult []
    [mkToken "b" None (mkLocation b_css 1 0); mkToken "b" None (mkLocation b_css 2 0)].
Definition a_result : LoadResult :=
  mkLoadResult [b_css]
    [mkToken "b" None (mkLocation b_css 1 0); mkToken "b" None (mkLocation b_css 2 0);
     mkToken "a" None (mkLocation a_css 3 0)].
Definition a_loaded : State := (load a_imports_b 2 a_css new_state).2.


(** The state in which the load of the sheet that imports itself is left
    when the fuel is used up. *)
Definition self_import_pending_state : State := (load self_import 3 a_css new_state).2.

(** [a.css] above [b.css]. *)
Definition rank (path : string) : nat :=
  if bool_decide (path = a_css) then 1 else 0.
End Fixture.

(** ** Further fixtures: a touched file, a missing one, reported dependencies *)

Module MoreFixtures.
Import Fixture.

(** [a.css] and [b.css] as in [a_imports_b], after [b.css] has been
    written again. *)
Definition b_touched : Env Sheet Node Location string unit :=
  env [(a_css, (1%Z, "A")); (b_css, (3%Z, "B"))]
      [("A", ([NImport (Some b_css); NImport (Some "https://example.com/c.css");
               NClass "a" (mkLocation a_css 3 0)], ["a"]));
       ("B", ([NClass "b" (mkLocation b_css 1 0);
               NClass "b" (mkLocation b_css 2 0);
               NClass "b" (mkLocation b_css 1 0)], ["b"]))]
      None.

(** A file that is on no disk. *)
Definition missing_css : string := "/src/missing.css".

Definition a_less : string := "/src/a.less".
Definition b_less : string := "/src/b.less".

(** What a Less transformer reports for [a.less] (a string, a [file:] URL
    and a remote sheet) and for [b.less] (a [file:] URL and an [https:]
    one). *)
Definition a_less_result : TransformResult unit :=
  mkTransformResult ".a{}" None
    [DepString "/src/x.less"; DepURL "file:" "/src/y.less";
     DepString "https://example.com/z.less"].
Definition b_less_result : TransformResult unit :=
  mkTransformResult ".b{}" None
    [DepURL "file:" "/src/y.less"; DepURL "https:" "/z.less"].

Definition reporting : Transformer unit :=
  fun source from =>
    if bool_decide (from = a_less) then Transformed a_less_result
    else if bool_decide (from = b_less) then Transformed b_less_result
    else TransformerRejects.

Definition less_sheets : Env Sheet Node Location string unit :=
  env [(a_less, (1%Z, "@import 'x'; .a{}")); (b_less, (1%Z, "@import 'y'; .b{}"))]
      [(".a{}", ([NClass "a" (mkLocation a_less 1 0)], ["a"]));
       (".b{}", ([NClass "b" (mkLocation b_less 1 0)], ["b"]))]
      (Some reporting).

(** The state after a load of the missing file by the Locator that has
    loaded [a.css]. *)
Definition a_loaded_then_missing : State :=
  (load a_imports_b 1 missing_css a_loaded).2.

(** The state in which the load of [a.css] is left when [b.css] is gone. *)
Definition b_deleted_failed : State := (load b_deleted 2 a_css new_state).2.

(** [a.css] is [@import url(); @import 'https://example.com/c.css';
    @import './x.css';]: the resolver of the fixtures does not resolve the
    last specifier. *)
Definition unresolvable : Env Sheet Node Location string unit :=
  env [(a_css, (1%Z, "A"))]
      [("A", ([NImport None; NImport (Some "");
               NImport (Some "https://example.com/c.css");
               NImport (Some "./x.css")], []))]
      None.

(** The state in which the first loop of [a.css] loads [b.css]. *)
Definition a_resolved : State :=
  mkState ∅ true [EvResolve b_css a_css; EvReadFile a_css; EvStat a_css].

(** [b.css] below [a.css], and every other sheet above both. *)
Definition height (path : string) : nat :=
  if bool_decide (path = b_css) then 0
  else if bool_decide (path = a_css) then 1 else 2.
End MoreFixtures.


(** ** The monad *)

Lemma bind_inv {A B} (m : M A) (k : A → M B) s o s' :
  bind m k s = (o, s') →
  (∃ a s1, m s = (Ok a, s1) ∧ k a s1 = (o, s')) ∨
  (∃ e, m s = (Err e, s') ∧ o = Err e) ∨
  (m s = (Pending, s') ∧ o = Pending).
Proof.
  unfold bind. destruct (m s) as [[a|e|] s1] eqn:Hm; intros H.
  - left. eauto.
  - right. left. inversion H; subst. eauto.
  - right. right. inversion H; subst. eauto.
Qed.

Lemma bind_Ok {A B} (m : M A) (k : A → M B) s a s1 :
  m s = (Ok a, s1) → bind m k s = k a s1.
Proof. unfold bind. by intros ->. Qed.

Lemma bind_Err {A B} (m : M A) (k : A → M B) s e s1 :
  m s = (Err e, s1) → bind m k s = (Err e, s1).
Proof. unfold bind. by intros ->. Qed.

Lemma bind_ext {A B} (m m' : M A) (k k' : A → M B) s :
  m s = m' s → (∀ a s1, k a s1 = k' a s1) → bind m k s = bind m' k' s.
Proof.
  unfold bind. intros -> Hk. destruct (m' s) as [[a|e|] s1]; [apply Hk|done|done].
Qed.

Lemma of_option_inv {A} (o : option A) e r s s' :
  of_option o e s = (r, s') →
  s' = s ∧ ((∃ a, o = Some a ∧ r = Ok a) ∨ (o = None ∧ r = Err e)).
Proof.
  destruct o; simpl; unfold ret, throw; intros H; inversion H; subst; eauto.
Qed.

(** Splits a hypothesis on a [bind] into its three cases. *)
Ltac bind_inv H :=
  let a := fresh "a" in
  let e := fresh "e" in
  let s1 := fresh "s" in
  let H1 := fresh H "a" in
  apply bind_inv in H as [(a & s1 & H1 & H)|[(e & H1 & H)|[H1 H]]].

(** ** The specifier classifier *)

Lemma startsWith_iff (s searchString : string) :
  startsWith s searchString = true ↔ ∃ rest, s = searchString +:+ rest.
Proof.
  unfold startsWith. revert s.
  induction searchString as [|c p IH]; intros s.
  - split; [intros _; by exists s|by destruct s].
  - destruct s as [|c' s']; simpl.
    + split; [done|]. intros [rest H]; discriminate.
    + destruct (Ascii.ascii_dec c c') as [->|Hne].
      * rewrite IH. split; intros [rest H]; exists rest; [by rewrite H|].
        by inversion H.
      * split; [done|]. intros [rest H]. inversion H; congruence.
Qed.

Lemma isIgnoredSpecifier_iff (specifier : string) :
  isIgnoredSpecifier specifier = true ↔
  (∃ rest, specifier = "http://" +:+ rest) ∨ (∃ rest, specifier = "https://" +:+ rest).
Proof.
  unfold isIgnoredSpecifier.
  rewrite orb_true_iff, !startsWith_iff. done.
Qed.

(** ** The tokens of a [@value ... from] rule *)

Lemma matchedImport_Some imports token i :
  matchedImport imports token = Some i →
  ∃ pre post, imports = pre ++ i :: post ∧
    importedTokenName i = name token ∧
    Forall (λ j, importedTokenName j ≠ name token) pre.
Proof.
  unfold matchedImport.
  induction imports as [|j imports IH]; simpl; [done|].
  case_bool_decide as Hj.
  - intros [= ->]. exists [], imports. by repeat split.
  - intros (pre & post & -> & Hi & Hpre)%IH.
    exists (j :: pre), post. repeat split; [done|]. by constructor.
Qed.

Lemma matchedImport_first pre i post token :
  Forall (λ j, importedTokenName j ≠ name token) pre →
  importedTokenName i = name token →
  matchedImport (pre ++ i :: post) token = Some i.
Proof.
  unfold matchedImport. intros Hpre Hi.
  induction Hpre as [|j pre Hj _ IH]; simpl.
  - by rewrite bool_decide_true.
  - by rewrite bool_decide_false.
Qed.

(** An entry that does not import the token's name is not looked at. *)
Lemma matchedImport_skip pre i post token :
  importedTokenName i ≠ name token →
  matchedImport (pre ++ i :: post) token = matchedImport (pre ++ post) token.
Proof.
  unfold matchedImport. intros Hi.
  induction pre as [|j pre IH]; simpl.
  - by rewrite bool_decide_false.
  - by rewrite IH.
Qed.

(** An entry behind one that imports the same name is not looked at. *)
Lemma matchedImport_shadowed pre i1 mid i2 post token :
  importedTokenName i1 = importedTokenName i2 →
  matchedImport (pre ++ i1 :: mid ++ i2 :: post) token
  = matchedImport (pre ++ i1 :: mid ++ post) token.
Proof.
  unfold matchedImport. intros H12.
  induction pre as [|j pre IH]; simpl.
  - case_bool_decide as H1; [done|].
    change (matchedImport (mid ++ i2 :: post) token = matchedImport (mid ++ post) token).
    apply matchedImport_skip. congruence.
  - by rewrite IH.
Qed.

Lemma push_imported_tokens_cons imports token rest toks :
  push_imported_tokens imports (token :: rest) toks
  = push_imported_tokens imports rest
      (toks ++ match matchedImport imports token with
               | Some i => [imported_token i token]
               | None => []
               end).
Proof.
  simpl. unfold imported_token.
  destruct (matchedImport imports token) as [i|]; [|by rewrite app_nil_r].
  by case_bool_decide.
Qed.

Lemma push_imported_tokens_ext imports imports' result_tokens toks :
  (∀ token, token ∈ result_tokens →
     matchedImport imports token = matchedImport imports' token) →
  push_imported_tokens imports result_tokens toks
  = push_imported_tokens imports' result_tokens toks.
Proof.
  revert toks. induction result_tokens as [|token rest IH]; intros toks H; [done|].
  rewrite !push_imported_tokens_cons.
  rewrite (H token) by (by left). apply IH.
  intros t Ht. apply H. by right.
Qed.

Lemma push_imported_tokens_app imports result_tokens toks :
  push_imported_tokens imports result_tokens toks
  = toks ++ push_imported_tokens imports result_tokens [].
Proof.
  revert toks. induction result_tokens as [|token rest IH]; intros toks.
  - simpl. by rewrite app_nil_r.
  - rewrite !push_imported_tokens_cons. rewrite IH.
    rewrite (IH ([] ++ _)). simpl. by rewrite app_assoc.
Qed.

Lemma elem_of_push_imported_tokens imports result_tokens toks t :
  t ∈ push_imported_tokens imports result_tokens toks ↔
  t ∈ toks ∨ ∃ token i, token ∈ result_tokens ∧
     matchedImport imports token = Some i ∧ t = imported_token i token.
Proof.
  revert toks. induction result_tokens as [|token rest IH]; intros toks.
  - simpl. split; [by left|]. intros [H|(token & i & H & _)]; [done|].
    by apply elem_of_nil in H.
  - rewrite push_imported_tokens_cons, IH, elem_of_app. split.
    + intros [[H|H]|(token' & i & H1 & H2 & H3)].
      * by left.
      * right. destruct (matchedImport imports token) as [i|] eqn:Hm.
        -- apply list_elem_of_singleton in H. exists token, i.
           split; [by left|done].
        -- by apply elem_of_nil in H.
      * right. exists token', i. split; [by right|done].
    + intros [H|(token' & i & H1 & H2 & H3)]; [by left; left|].
      apply elem_of_cons in H1 as [->|H1].
      * left. right. rewrite H2. subst t. by apply list_elem_of_singleton.
      * right. eauto.
Qed.

Section ValueImports.
Context {Root AtRule Rule ClassSelector MapObject : Type}.
Context (E : Env Root AtRule Rule ClassSelector MapObject).

(** One turn of the third loop on a [@value ... from] rule whose
    specifier resolves and whose sheet loads. *)
Lemma for_atValues_import load filePath atValue rest deps toks s
    from_ imports from s1 result s2 :
  parseAtValue E atValue = Some (valueImportDeclaration from_ imports) →
  isIgnoredSpecifier from_ = false →
  strict_resolver E from_ filePath s = (Ok from, s1) →
  load from s1 = (Ok result, s2) →
  for_atValues E load filePath (atValue :: rest) deps toks s
  = for_atValues E load filePath rest
      (deps ++ from :: dependencies result)
      (push_imported_tokens imports (tokens result) toks) s2.
Proof.
  intros Hparse Hign Hres Hload. simpl.
  rewrite Hparse. simpl. unfold bind at 1. unfold ret at 1.
  rewrite Hign. rewrite (bind_Ok _ _ _ _ _ Hres).
  by rewrite (bind_Ok _ _ _ _ _ Hload).
Qed.

(** C6: every token that a [@value ... from] rule emits is made from a
    token [token] of the loaded source sheet and the entry [i] of the rule
    that imports its name: it is named by the local alias, its
    [importedName] is set if and only if the alias differs from the
    imported name (and is then the imported name), and its
    [originalLocation] is the one [token] has in the source sheet's
    result. *)
Theorem value_import_token_fields load filePath atValue rest deps toks s
    from_ imports from s1 result s2 :
  parseAtValue E atValue = Some (valueImportDeclaration from_ imports) →
  isIgnoredSpecifier from_ = false →
  strict_resolver E from_ filePath s = (Ok from, s1) →
  load from s1 = (Ok result, s2) →
  ∃ emitted,
    for_atValues E load filePath (atValue :: rest) deps toks s
    = for_atValues E load filePath rest
        (deps ++ from :: dependencies result) (toks ++ emitted) s2 ∧
    ∀ t, t ∈ emitted →
      ∃ token i, token ∈ tokens result ∧ i ∈ imports ∧
        importedTokenName i = name token ∧
        name t = localTokenName i ∧
        (is_Some (importedName t) ↔ localTokenName i ≠ importedTokenName i) ∧
        (∀ n, importedName t = Some n → n = importedTokenName i) ∧
        originalLocation t = originalLocation token.
Proof.
  intros Hparse Hign Hres Hload.
  exists (push_imported_tokens imports (tokens result) []). split.
  - rewrite <- push_imported_tokens_app. by eapply for_atValues_import.
  - intros t [Ht|(token & i & Htoken & Hm & ->)]%elem_of_push_imported_tokens.
    { by apply elem_of_nil in Ht. }
    apply matchedImport_Some in Hm as (pre & post & -> & Hi & _).
    exists token, i. split; [done|]. split.
    { apply elem_of_app. right. by left. }
    split; [done|]. split; [done|].
    unfold imported_token; simpl. case_bool_decide as Heq.
    + split; [|done]. split; [by intros [? ?]|done].
    + split; [|split; [by intros n [= <-]|done]].
      split; [done|]. intros _. by eexists.
Qed.

(** C7: an entry of a [@value ... from] rule whose imported name is the
    name of no token of the loaded source sheet raises no error and adds
    no token: the turn of the loop goes on to the next rule with the
    tokens it would have without the entry. *)
Theorem missing_imported_token_is_silent load filePath atValue rest deps toks s
    from_ pre i post from s1 result s2 :
  parseAtValue E atValue = Some (valueImportDeclaration from_ (pre ++ i :: post)) →
  isIgnoredSpecifier from_ = false →
  strict_resolver E from_ filePath s = (Ok from, s1) →
  load from s1 = (Ok result, s2) →
  (∀ token, token ∈ tokens result → name token ≠ importedTokenName i) →
  for_atValues E load filePath (atValue :: rest) deps toks s
  = for_atValues E load filePath rest
      (deps ++ from :: dependencies result)
      (push_imported_tokens (pre ++ post) (tokens result) toks) s2 ∧
  ∀ t, t ∈ push_imported_tokens (pre ++ i :: post) (tokens result) [] →
    ∃ token j, token ∈ tokens result ∧ j ∈ pre ++ post ∧
      importedTokenName j = name token ∧ t = imported_token j token.
Proof.
  intros Hparse Hign Hres Hload Hmiss.
  assert (Hext : ∀ token, token ∈ tokens result →
            matchedImport (pre ++ i :: post) token = matchedImport (pre ++ post) token).
  { intros token Htoken. apply matchedImport_skip.
    intros Heq. by apply (Hmiss token). }
  split.
  - rewrite (for_atValues_import _ _ _ _ _ _ _ _ _ _ _ _ _ Hparse Hign Hres Hload).
    by rewrite (push_imported_tokens_ext _ _ _ _ Hext).
  - intros t [Ht|(token & j & Htoken & Hm & ->)]%elem_of_push_imported_tokens.
    { by apply elem_of_nil in Ht. }
    rewrite Hext in Hm by done.
    apply matchedImport_Some in Hm as (pre' & post' & Heq & Hj & _).
    exists token, j. repeat split; try done.
    rewrite Heq. apply elem_of_app. right. by left.
Qed.

(** C9: when a [@value ... from] rule lists an imported name twice, the
    later entry adds nothing (the turn of the loop is the one of the rule
    without it), and a token of the source sheet with that name gives one
    token, named by the alias of the first entry that imports the name. *)
Theorem first_alias_wins load filePath atValue rest deps toks s
    from_ pre i1 mid i2 post from s1 result s2 :
  parseAtValue E atValue
    = Some (valueImportDeclaration from_ (pre ++ i1 :: mid ++ i2 :: post)) →
  isIgnoredSpecifier from_ = false →
  strict_resolver E from_ filePath s = (Ok from, s1) →
  load from s1 = (Ok result, s2) →
  importedTokenName i1 = importedTokenName i2 →
  Forall (λ j, importedTokenName j ≠ importedTokenName i1) pre →
  for_atValues E load filePath (atValue :: rest) deps toks s
  = for_atValues E load filePath rest
      (deps ++ from :: dependencies result)
      (push_imported_tokens (pre ++ i1 :: mid ++ post) (tokens result) toks) s2 ∧
  ∀ token others acc, name token = importedTokenName i1 →
    push_imported_tokens (pre ++ i1 :: mid ++ i2 :: post) (token :: others) acc
    = push_imported_tokens (pre ++ i1 :: mid ++ i2 :: post) others
        (acc ++ [imported_token i1 token]).
Proof.
  intros Hparse Hign Hres Hload H12 Hpre. split.
  - rewrite (for_atValues_import _ _ _ _ _ _ _ _ _ _ _ _ _ Hparse Hign Hres Hload).
    f_equal. apply push_imported_tokens_ext.
    intros token _. by apply matchedImport_shadowed.
  - intros token others acc Hname.
    rewrite push_imported_tokens_cons, matchedImport_first; [done| |done].
    by rewrite Hname.
Qed.
End ValueImports.

(** ** [unique] and [uniqueBy] *)

Section Unique.
Context {A K : Type} `{EqDecision K} (fn : A → K).

Lemma elem_of_uniqueBy_aux keys arr x :
  x ∈ uniqueBy_aux fn keys arr → x ∈ arr ∧ fn x ∉ keys.
Proof.
  revert keys. induction arr as [|el arr IH]; intros keys; simpl.
  - by intros ?%elem_of_nil.
  - case_decide as Hel.
    + intros [? ?]%IH. split; [by right|done].
    + intros [->|[? Hx]%IH]%elem_of_cons; [split; [by left|done]|].
      split; [by right|]. intros ?. apply Hx. by right.
Qed.

Lemma uniqueBy_aux_keys_NoDup keys arr :
  NoDup (fn <$> uniqueBy_aux fn keys arr).
Proof.
  revert keys. induction arr as [|el arr IH]; intros keys; simpl.
  - constructor.
  - case_decide as Hel; [apply IH|].
    simpl. constructor; [|apply IH].
    intros (x & Hx & [_ Hin]%elem_of_uniqueBy_aux)%list_elem_of_fmap.
    apply Hin. rewrite <- Hx. by left.
Qed.

Lemma uniqueBy_NoDup arr : NoDup (uniqueBy arr fn).
Proof. eapply NoDup_fmap_1, uniqueBy_aux_keys_NoDup. Qed.

Lemma uniqueBy_keys_NoDup arr : NoDup (fn <$> uniqueBy arr fn).
Proof. apply uniqueBy_aux_keys_NoDup. Qed.
End Unique.

Section UniqueOrder.
Context {A : Type} `{EqDecision A}.

Lemma elem_of_unique_aux keys (arr : list A) x :
  x ∈ uniqueBy_aux id keys arr ↔ x ∈ arr ∧ x ∉ keys.
Proof.
  split; [apply (elem_of_uniqueBy_aux id)|].
  revert keys. induction arr as [|el arr IH]; intros keys [Hx Hk]; simpl.
  - by apply elem_of_nil in Hx.
  - case_decide as Hel.
    + apply IH. split; [|done].
      apply elem_of_cons in Hx as [->|Hx]; [done|done].
    + destruct (decide (x = el)) as [->|Hne]; [by left|].
      right. apply IH. split.
      * by apply elem_of_cons in Hx as [->|Hx].
      * by intros [->|?]%elem_of_cons.
Qed.

Lemma elem_of_unique (arr : list A) x : x ∈ unique arr ↔ x ∈ arr.
Proof.
  unfold unique, uniqueBy. rewrite elem_of_unique_aux.
  split; [by intros [? _]|]. intros ?. split; [done|]. by intros ?%elem_of_nil.
Qed.

Lemma unique_NoDup (arr : list A) : NoDup (unique arr).
Proof. apply uniqueBy_NoDup. Qed.

Lemma first_before_cons (l : list A) a x y :
  x ≠ a → y ≠ a → first_before l x y → first_before (a :: l) x y.
Proof.
  intros Hx Hy (l1 & l2 & -> & H1 & H2 & H3).
  exists (a :: l1), l2. split; [done|].
  split; [by intros [->|?]%elem_of_cons|].
  split; [by intros [->|?]%elem_of_cons|done].
Qed.

Lemma first_before_cons_inv (l : list A) a x y :
  first_before (a :: l) x y →
  (x = a ∧ y ∈ l) ∨ (x ≠ a ∧ y ≠ a ∧ first_before l x y).
Proof.
  intros ([|b l1] & l2 & Heq & H1 & H2 & H3); simpl in Heq.
  - inversion Heq; subst. by left.
  - inversion Heq; subst. right.
    split; [intros ->; apply H1; by left|].
    split; [intros ->; apply H2; by left|].
    exists l1, l2. split; [done|].
    split; [intros ?; apply H1; by right|].
    split; [intros ?; apply H2; by right|done].
Qed.

Lemma first_before_elem (l : list A) x y : first_before l x y → x ∈ l ∧ y ∈ l.
Proof.
  intros (l1 & l2 & -> & _ & _ & Hy). split.
  - apply elem_of_app. right. by left.
  - apply elem_of_app. right. by right.
Qed.

Lemma unique_aux_first_before keys (arr : list A) x y :
  first_before (uniqueBy_aux id keys arr) x y → first_before arr x y.
Proof.
  revert keys. induction arr as [|el arr IH]; intros keys; simpl.
  - intros ([|? ?] & ? & ? & _); discriminate.
  - case_decide as Hel.
    + intros Hb. destruct (first_before_elem _ _ _ Hb) as [Hx Hy].
      apply elem_of_unique_aux in Hx as [_ Hx], Hy as [_ Hy].
      apply first_before_cons; [congruence|congruence|by eapply IH].
    + intros [[-> Hy]|(Hx & Hy & Hb)]%first_before_cons_inv.
      * apply elem_of_unique_aux in Hy as [Hy _].
        exists [], arr. repeat split; try done; by intros ?%elem_of_nil.
      * apply first_before_cons; [done|done|by eapply IH].
Qed.

Lemma unique_first_before (arr : list A) x y :
  first_before (unique arr) x y → first_before arr x y.
Proof. apply unique_aux_first_before. Qed.

Lemma filter_first_before (P : A → Prop) `{∀ x, Decision (P x)} (l : list A) x y :
  first_before (filter P l) x y → first_before l x y.
Proof.
  induction l as [|a l IH].
  - intros ([|? ?] & ? & ? & _); discriminate.
  - rewrite filter_cons. case_decide as Ha.
    + intros [[-> Hy]|(Hx & Hy & Hb)]%first_before_cons_inv.
      * apply list_elem_of_filter in Hy as [_ Hy].
        exists [], l. repeat split; try done; by intros ?%elem_of_nil.
      * apply first_before_cons; [done|done|by apply IH].
    + intros Hb. destruct (first_before_elem _ _ _ Hb) as [Hx Hy].
      apply list_elem_of_filter in Hx as [Hx _], Hy as [Hy _].
      apply first_before_cons; [congruence|congruence|by apply IH].
Qed.
End UniqueOrder.

Lemma JSON_stringify_inj : Inj (=) (=) JSON_stringify.
Proof.
  intros [n1 i1 [f1 l1 c1]] [n2 i2 [f2 l2 c2]].
  unfold JSON_stringify, JSON_stringify_Location; simpl.
  destruct i1, i2; simpl; intros H; inversion H; by subst.
Qed.

Lemma make_result_wf filePath all : result_wf filePath (make_result filePath all).
Proof.
  unfold make_result, result_wf; simpl. split; [|split].
  - intros [Hne _]%list_elem_of_filter. by apply Hne.
  - apply NoDup_filter, unique_NoDup.
  - apply uniqueBy_NoDup.
Qed.

(** The tokens of a result have pairwise different texts under
    [JSON.stringify]; by [JSON_stringify_inj] that is [NoDup]. *)
Lemma make_result_keys filePath all :
  NoDup (JSON_stringify <$> tokens (make_result filePath all)).
Proof. apply uniqueBy_keys_NoDup. Qed.

(** ** Invariants of [_load]

    [_load] changes the state in two ways only: it records a call, and it
    stores the result it has made under the path it has loaded. *)

Section Preserves.
Context (I : State → Prop).

Lemma preserves_ret {A} (a : A) : preserves I (ret a).
Proof. by intros s. Qed.

Lemma preserves_throw {A} e : e ≠ ConcurrentLoadError → preserves I (@throw A e).
Proof. intros He s Hs. split; [done|]. simpl. congruence. Qed.

Lemma preserves_pending {A} : preserves I (@pending A).
Proof. by intros s. Qed.

Lemma preserves_of_option {A} (o : option A) e :
  e ≠ ConcurrentLoadError → preserves I (of_option o e).
Proof. destruct o; [intros; apply preserves_ret|apply preserves_throw]. Qed.

Lemma preserves_cache_get key : preserves I (cache_get key).
Proof. by intros s. Qed.

Lemma preserves_bind {A B} (m : M A) (k : A → M B) :
  preserves I m → (∀ a, preserves I (k a)) → preserves I (bind m k).
Proof.
  intros Hm Hk s Hs. destruct (Hm s Hs) as [Hs1 Ho]. unfold bind.
  destruct (m s) as [[a|e|] s1]; simpl in *; [by apply Hk| |done].
  split; [done|]. intros [= ->]. by apply Ho.
Qed.
End Preserves.

Section Invariant.
Context {Root AtRule Rule ClassSelector MapObject : Type}.
Context (E : Env Root AtRule Rule ClassSelector MapObject).
Context (I : State → Prop).
Hypothesis I_record : ∀ e s,
  allowed e → I s → I (mkState (cache s) (loading s) (e :: log s)).
Hypothesis I_cache_set : ∀ key m r s,
  result_wf key r → I s →
  I (mkState (<[key := mkCacheEntry m r]> (cache s)) (loading s) (log s)).

Lemma preserves_stat_mtime path : preserves I (stat_mtime E path).
Proof.
  apply preserves_bind; [|by intros; apply preserves_of_option].
  intros s Hs. split; [by apply I_record|done].
Qed.

Lemma preserves_read_file path : preserves I (read_file E path).
Proof.
  apply preserves_bind; [|by intros; apply preserves_of_option].
  intros s Hs. split; [by apply I_record|done].
Qed.

Lemma preserves_strict_resolver specifier request :
  isIgnoredSpecifier specifier = false →
  preserves I (strict_resolver E specifier request).
Proof.
  intros Hign. apply preserves_bind; [|by intros; apply preserves_of_option].
  intros s Hs. split; [|done]. apply I_record; [|done]. by intros ? ? [= <- <-].
Qed.

Lemma preserves_isCacheOutdated_loop deps :
  preserves I (isCacheOutdated_loop E deps).
Proof.
  induction deps as [|d deps IH]; simpl; [apply preserves_ret|].
  apply preserves_bind; [apply preserves_cache_get|]. intros [entry|].
  - apply preserves_bind; [apply preserves_stat_mtime|]. intros m.
    case_bool_decide; [apply preserves_ret|apply IH].
  - apply preserves_ret.
Qed.

Lemma preserves_isCacheOutdated filePath : preserves I (isCacheOutdated E filePath).
Proof.
  apply preserves_bind; [apply preserves_cache_get|]. intros [entry|].
  - apply preserves_bind; [apply preserves_stat_mtime|]. intros m.
    case_bool_decide; [apply preserves_ret|apply preserves_isCacheOutdated_loop].
  - apply preserves_ret.
Qed.

Lemma preserves_map_dependencies deps : preserves I (map_dependencies deps).
Proof.
  induction deps as [|[dep|protocol pathname] deps IH]; simpl.
  - apply preserves_ret.
  - apply preserves_bind; [apply IH|]. intros; apply preserves_ret.
  - case_bool_decide; [by apply preserves_throw|].
    apply preserves_bind; [apply IH|]. intros; apply preserves_ret.
Qed.

Lemma preserves_readCSS filePath : preserves I (readCSS E filePath).
Proof.
  apply preserves_bind; [apply preserves_read_file|]. intros css.
  destruct (transformer E) as [t|]; [|apply preserves_ret].
  destruct (t css filePath) as [r| |].
  - apply preserves_bind; [apply preserves_map_dependencies|].
    intros; apply preserves_ret.
  - apply preserves_ret.
  - by apply preserves_throw.
Qed.

Lemma preserves_for_atImports load filePath atImports deps toks :
  (∀ p, preserves I (load p)) →
  preserves I (for_atImports E load filePath atImports deps toks).
Proof.
  intros Hload. revert deps toks.
  induction atImports as [|atImport rest IH]; intros deps toks; simpl.
  - apply preserves_ret.
  - destruct (parseAtImport E atImport) as [specifier|]; [|apply IH].
    case_bool_decide; [apply IH|].
    destruct (isIgnoredSpecifier specifier) eqn:Hign; [apply IH|].
    apply preserves_bind; [by apply preserves_strict_resolver|]. intros from.
    apply preserves_bind; [apply Hload|]. intros result. apply IH.
Qed.

Lemma preserves_for_atValues load filePath atValues deps toks :
  (∀ p, preserves I (load p)) →
  preserves I (for_atValues E load filePath atValues deps toks).
Proof.
  intros Hload. revert deps toks.
  induction atValues as [|atValue rest IH]; intros deps toks; simpl.
  - apply preserves_ret.
  - apply preserves_bind; [by apply preserves_of_option|].
    intros [tokenName|from_ imports]; [apply IH|].
    destruct (isIgnoredSpecifier from_) eqn:Hign; [apply IH|].
    apply preserves_bind; [by apply preserves_strict_resolver|]. intros from.
    apply preserves_bind; [apply Hload|]. intros result. apply IH.
Qed.

Lemma preserves_load_sheet load filePath :
  (∀ p, preserves I (load p)) → preserves I (load_sheet E load filePath).
Proof.
  intros Hload.
  apply preserves_bind; [apply preserves_readCSS|]. intros r.
  apply preserves_bind; [by apply preserves_of_option|]. intros ast.
  apply preserves_bind; [by apply preserves_of_option|]. intros localTokenNames.
  apply preserves_bind; [by apply preserves_for_atImports|]. intros imported.
  by apply preserves_for_atValues.
Qed.

Lemma preserves__load fuel filePath : preserves I (_load E fuel filePath).
Proof.
  revert filePath. induction fuel as [|fuel IH]; intros filePath; simpl.
  - apply preserves_pending.
  - apply preserves_bind; [apply preserves_isCacheOutdated|]. intros [|]; simpl.
    + apply preserves_bind; [apply preserves_stat_mtime|]. intros m.
      apply preserves_bind; [by apply preserves_load_sheet|]. intros all.
      apply preserves_bind; [|intros; apply preserves_ret].
      intros s Hs. split; [|done]. apply I_cache_set; [apply make_result_wf|done].
    + apply preserves_bind; [apply preserves_cache_get|].
      intros [entry|]; [apply preserves_ret|by apply preserves_throw].
Qed.
End Invariant.

Lemma cache_wf_empty : cache_wf ∅.
Proof. intros key entry. by rewrite lookup_empty. Qed.

Lemma cache_wf_insert key m r (c : gmap string CacheEntry) :
  result_wf key r → cache_wf c → cache_wf (<[key := mkCacheEntry m r]> c).
Proof.
  intros Hr Hc key' entry. destruct (decide (key = key')) as [<-|Hne].
  - rewrite lookup_insert_eq. by intros [= <-].
  - rewrite lookup_insert_ne by done. apply Hc.
Qed.

Section LoadFacts.
Context {Root AtRule Rule ClassSelector MapObject : Type}.
Context (E : Env Root AtRule Rule ClassSelector MapObject).

(** [_load] does not touch the flag of the guard. *)
Lemma _load_loading fuel filePath s :
  loading (_load E fuel filePath s).2 = loading s.
Proof.
  by apply (preserves__load E (λ s', loading s' = loading s)).
Qed.

Lemma _load_not_concurrent fuel filePath s :
  (_load E fuel filePath s).1 ≠ Err ConcurrentLoadError.
Proof.
  by apply (preserves__load E (λ _, True)).
Qed.

Lemma _load_cache_wf fuel filePath s :
  cache_wf (cache s) → cache_wf (cache (_load E fuel filePath s).2).
Proof.
  intros Hs. apply (preserves__load E (λ s', cache_wf (cache s'))); [done| |done].
  intros key m r s0 Hr Hs0. by apply cache_wf_insert.
Qed.

(** [_load] asks the resolver for no ignored specifier. *)
Lemma _load_log_allowed fuel filePath s :
  Forall allowed (log s) → Forall allowed (log (_load E fuel filePath s).2).
Proof.
  intros Hs. apply (preserves__load E (λ s', Forall allowed (log s'))); [|done|done].
  intros e s0 He Hs0. by constructor.
Qed.

(** [isCacheOutdated] only records calls to [stat]. *)
Lemma isCacheOutdated_state filePath s :
  ∃ new, (isCacheOutdated E filePath s).2 = mkState (cache s) (loading s) (new ++ log s)
         ∧ Forall (λ e, is_read e = false ∧ ∀ sp, is_resolve_of sp e = false) new.
Proof.
  set (I := λ s', ∃ new, s' = mkState (cache s) (loading s) (new ++ log s)
             ∧ Forall (λ e, is_read e = false ∧ ∀ sp, is_resolve_of sp e = false) new).
  assert (HI : ∀ path s', I s' → I (mkState (cache s') (loading s') (EvStat path :: log s'))).
  { intros path s' (new & -> & Hnew). exists (EvStat path :: new). split; [done|].
    by constructor. }
  assert (Hstat : ∀ path, preserves I (stat_mtime E path)).
  { intros path. apply preserves_bind; [|by intros; apply preserves_of_option].
    intros s' Hs'. split; [by apply HI|done]. }
  assert (Hloop : ∀ deps, preserves I (isCacheOutdated_loop E deps)).
  { induction deps as [|d deps IH]; simpl; [apply preserves_ret|].
    apply preserves_bind; [apply preserves_cache_get|]. intros [entry|].
    - apply preserves_bind; [apply Hstat|]. intros m.
      case_bool_decide; [apply preserves_ret|apply IH].
    - apply preserves_ret. }
  assert (H : preserves I (isCacheOutdated E filePath)).
  { apply preserves_bind; [apply preserves_cache_get|]. intros [entry|].
    - apply preserves_bind; [apply Hstat|]. intros m.
      case_bool_decide; [apply preserves_ret|apply Hloop].
    - apply preserves_ret. }
  apply H. exists []. by destruct s.
Qed.

(** The two ways in which [_load] returns a result: from the cache, or
    by loading the sheet and storing what it has made of it. *)
Lemma _load_Ok_inv fuel filePath s r s' :
  _load E (S fuel) filePath s = (Ok r, s') →
  (∃ entry, isCacheOutdated E filePath s = (Ok false, s') ∧
     cache s' !! filePath = Some entry ∧ r = result entry) ∨
  (∃ s1 m s2 all s3, isCacheOutdated E filePath s = (Ok true, s1) ∧
     stat_mtime E filePath s1 = (Ok m, s2) ∧
     load_sheet E (_load E fuel) filePath s2 = (Ok all, s3) ∧
     r = make_result filePath all ∧
     s' = mkState (<[filePath := mkCacheEntry m r]> (cache s3)) (loading s3) (log s3)).
Proof.
  intros H. simpl in H. bind_inv H; try done.
  destruct a as [|]; simpl in H.
  - right. bind_inv H; try done. bind_inv H; try done.
    unfold bind, cache_set, ret in H. inversion H; subst.
    eauto 10.
  - left. bind_inv H; try done. unfold cache_get in Ha0. inversion Ha0; subst.
    destruct (cache s1 !! filePath) as [entry|] eqn:Hentry; [|done].
    unfold ret in H. inversion H; subst. eauto.
Qed.
End LoadFacts.

Section Guard.
Context {Root AtRule Rule ClassSelector MapObject : Type}.
Context (E : Env Root AtRule Rule ClassSelector MapObject).

Lemma load_state fuel filePath s :
  loading s = false →
  load E fuel filePath s
  = finally (_load E fuel filePath) (set_loading false) (set_loading true s).
Proof. unfold load. by intros ->. Qed.

Lemma load_cache_wf fuel filePath s :
  cache_wf (cache s) → cache_wf (cache (load E fuel filePath s).2).
Proof.
  intros Hs. unfold load. destruct (loading s); [done|].
  pose proof (_load_cache_wf E fuel filePath (set_loading true s) Hs) as H.
  unfold finally. by destruct (_load E fuel filePath (set_loading true s)) as [[?|?|] ?].
Qed.

(** C2: when the flag is set, [load] fails at once with the concurrent-load
    error and changes nothing.  A top-level load sets the flag and [_load]
    leaves it as it is: as long as the load has not settled, the flag is set
    and another [load] fails with that error.  When the load settles, with
    a result or with an error, the flag is cleared, and the next [load]
    gets past the guard. *)
Theorem concurrent_load_guard fuel filePath s :
  (loading s = true → load E fuel filePath s = (Err ConcurrentLoadError, s)) ∧
  (loading s = false →
     loading (_load E fuel filePath (set_loading true s)).2 = true ∧
     (∀ s', load E fuel filePath s = (Pending, s') →
        loading s' = true ∧
        ∀ fuel' filePath',
          load E fuel' filePath' s' = (Err ConcurrentLoadError, s')) ∧
     ∀ o s', load E fuel filePath s = (o, s') → o ≠ Pending →
       loading s' = false ∧ o ≠ Err ConcurrentLoadError ∧
       ∀ fuel' filePath',
         load E fuel' filePath' s'
         = finally (_load E fuel' filePath') (set_loading false) (set_loading true s') ∧
         (load E fuel' filePath' s').1 ≠ Err ConcurrentLoadError).
Proof.
  split.
  - unfold load. by intros ->.
  - intros Hs. split; [by rewrite _load_loading|]. split.
    { intros s' H. rewrite load_state in H by done. unfold finally in H.
      pose proof (_load_loading E fuel filePath (set_loading true s)) as Hl.
      destruct (_load E fuel filePath (set_loading true s)) as [[r|e|] s1];
        inversion H; subst. simpl in Hl.
      split; [done|]. intros fuel' filePath'. unfold load. by rewrite Hl. }
    assert (Hfin : ∀ fuel0 filePath0 s0 o s',
              finally (_load E fuel0 filePath0) (set_loading false) s0 = (o, s') →
              o ≠ Err ConcurrentLoadError ∧ (o ≠ Pending → loading s' = false)).
    { intros fuel0 filePath0 s0 o s' H. unfold finally in H.
      pose proof (_load_not_concurrent E fuel0 filePath0 s0) as Hnc.
      destruct (_load E fuel0 filePath0 s0) as [[r|e|] s1];
        inversion H; subst; simpl in *; done. }
    intros o s' Hload Ho. rewrite load_state in Hload by done.
    destruct (Hfin _ _ _ _ _ Hload) as [Hnc Hflag].
    specialize (Hflag Ho). split; [done|]. split; [done|].
    intros fuel' filePath'. split; [by apply load_state|].
    rewrite load_state by done.
    destruct (finally (_load E fuel' filePath') (set_loading false)
                (set_loading true s')) as [o2 s2] eqn:H2.
    by destruct (Hfin _ _ _ _ _ H2).
Qed.
End Guard.

Lemma reachable_cache_wf {Root AtRule Rule ClassSelector MapObject : Type} s :
  reachable Root AtRule Rule ClassSelector MapObject s → cache_wf (cache s).
Proof.
  induction 1 as [|E fuel filePath s _ IH].
  - apply cache_wf_empty.
  - by apply load_cache_wf.
Qed.

Section Results.
Context {Root AtRule Rule ClassSelector MapObject : Type}.
Context (E : Env Root AtRule Rule ClassSelector MapObject).

Lemma _load_result_wf fuel filePath s r s' :
  cache_wf (cache s) → _load E fuel filePath s = (Ok r, s') → result_wf filePath r.
Proof.
  intros Hs H. destruct fuel as [|fuel]; [done|].
  apply _load_Ok_inv in H as [(entry & H1 & H2 & ->)|(s1 & m & s2 & all & s3 & _ & _ & _ & -> & _)].
  - destruct (isCacheOutdated_state E filePath s) as (new & Hst & _).
    rewrite H1 in Hst. simpl in Hst. subst s'. by apply (Hs filePath).
  - apply make_result_wf.
Qed.

Lemma load_Ok_inv fuel filePath s r s' :
  load E fuel filePath s = (Ok r, s') →
  ∃ s1, _load E fuel filePath (set_loading true s) = (Ok r, s1) ∧ s' = set_loading false s1.
Proof.
  unfold load. destruct (loading s); [done|]. unfold finally.
  destruct (_load E fuel filePath (set_loading true s)) as [[r'|e|] s1]; [|done|done].
  intros [= -> <-]. eauto.
Qed.

(** C4: a result that [load] returns in a state that a Locator can be in
    does not list the loaded sheet among its dependencies, lists no
    dependency twice and no token twice.  It is either the result stored
    in the cache, or made from the lists that the body of [_load] has
    filled: then its dependencies are the paths of that list other than
    the sheet itself, in the order of their first insertion, and no two of
    its tokens have the same text under [JSON.stringify]. *)
Theorem load_result_unique fuel filePath s r s' :
  reachable Root AtRule Rule ClassSelector MapObject s →
  load E fuel filePath s = (Ok r, s') →
  (filePath ∉ dependencies r) ∧ NoDup (dependencies r) ∧ NoDup (tokens r) ∧
  ((∃ entry, cache s !! filePath = Some entry ∧ r = result entry) ∨
   (∃ fuel' s1 all s2,
      fuel = S fuel' ∧
      load_sheet E (_load E fuel') filePath s1 = (Ok all, s2) ∧
      (∀ dep, dep ∈ dependencies r ↔ dep ∈ all.1 ∧ dep ≠ filePath) ∧
      (∀ x y, first_before (dependencies r) x y → first_before all.1 x y) ∧
      NoDup (JSON_stringify <$> tokens r))).
Proof.
  intros Hs%reachable_cache_wf (s1 & H & ->)%load_Ok_inv.
  pose proof (_load_result_wf fuel filePath (set_loading true s) r s1 Hs H)
    as (H1 & H2 & H3).
  split; [done|]. split; [done|]. split; [done|].
  destruct fuel as [|fuel]; [done|].
  apply _load_Ok_inv in H as [(entry & H4 & H5 & ->)|(s2 & m & s3 & all & s4 & _ & _ & H4 & -> & _)].
  - left. exists entry. split; [|done].
    destruct (isCacheOutdated_state E filePath (set_loading true s)) as (new & Hst & _).
    rewrite H4 in Hst. simpl in Hst. by subst s1.
  - right. exists fuel, s3, all, s4. split; [done|]. split; [done|].
    split; [|split].
    + intros dep. unfold make_result; simpl.
      rewrite list_elem_of_filter, elem_of_unique. tauto.
    + intros x y Hb. unfold make_result in Hb; simpl in Hb.
      by apply filter_first_before, unique_first_before in Hb.
    + apply make_result_keys.
Qed.
End Results.

Lemma endsWith_false_defaultTransformer {MapObject : Type}
    (scssTransformer lessTransformer : Transformer MapObject) source from :
  endsWith from ".scss" = false → endsWith from ".less" = false →
  defaultTransformer scssTransformer lessTransformer source from = TransformedFalse.
Proof. unfold defaultTransformer. by intros -> ->. Qed.

Section Transformer.
Context {Root AtRule Rule ClassSelector MapObject : Type}.
Context (E : Env Root AtRule Rule ClassSelector MapObject).

Lemma for_atImports_ext load load' filePath atImports deps toks s :
  (∀ p s0, load p s0 = load' p s0) →
  for_atImports E load filePath atImports deps toks s
  = for_atImports E load' filePath atImports deps toks s.
Proof.
  intros Hload. revert deps toks s.
  induction atImports as [|atImport rest IH]; intros deps toks s; simpl; [done|].
  destruct (parseAtImport E atImport) as [specifier|]; [|apply IH].
  case_bool_decide; [apply IH|].
  destruct (isIgnoredSpecifier specifier); [apply IH|].
  apply bind_ext; [done|]. intros from s1.
  apply bind_ext; [apply Hload|]. intros result s2. apply IH.
Qed.

Lemma for_atValues_ext load load' filePath atValues deps toks s :
  (∀ p s0, load p s0 = load' p s0) →
  for_atValues E load filePath atValues deps toks s
  = for_atValues E load' filePath atValues deps toks s.
Proof.
  intros Hload. revert deps toks s.
  induction atValues as [|atValue rest IH]; intros deps toks s; simpl; [done|].
  apply bind_ext; [done|]. intros [tokenName|from_ imports] s0; [apply IH|].
  destruct (isIgnoredSpecifier from_); [apply IH|].
  apply bind_ext; [done|]. intros from s1.
  apply bind_ext; [apply Hload|]. intros result s2. apply IH.
Qed.

Lemma readCSS_false t filePath source s :
  transformer E = Some t →
  readFile E filePath = Some source →
  t source filePath = TransformedFalse →
  readCSS E filePath s
  = (Ok (mkReadCSS source None []),
     mkState (cache s) (loading s) (EvReadFile filePath :: log s)).
Proof.
  intros Ht Hread Hfalse. unfold readCSS, read_file, bind, record, of_option.
  rewrite Hread. simpl. by rewrite Ht, Hfalse.
Qed.

Lemma readCSS_unconfigured filePath source s :
  readFile E filePath = Some source →
  readCSS (set_transformer None E) filePath s
  = (Ok (mkReadCSS source None []),
     mkState (cache s) (loading s) (EvReadFile filePath :: log s)).
Proof.
  intros Hread. unfold readCSS, read_file, bind, record, of_option. simpl.
  by rewrite Hread.
Qed.

Lemma readCSS_always_false t filePath s :
  transformer E = Some t →
  (∀ source from, t source from = TransformedFalse) →
  readCSS E filePath s = readCSS (set_transformer None E) filePath s.
Proof.
  intros Ht Hfalse. destruct (readFile E filePath) as [source|] eqn:Hread.
  - by rewrite (readCSS_false t _ source), (readCSS_unconfigured _ source).
  - unfold readCSS, read_file, bind, record, of_option. simpl. by rewrite Hread.
Qed.

Lemma _load_always_false t fuel filePath s :
  transformer E = Some t →
  (∀ source from, t source from = TransformedFalse) →
  _load E fuel filePath s = _load (set_transformer None E) fuel filePath s.
Proof.
  intros Ht Hfalse. revert filePath s.
  induction fuel as [|fuel IH]; intros filePath s; [done|].
  simpl. apply bind_ext; [done|]. intros [|] s1; simpl; [|done].
  apply bind_ext; [done|]. intros m s2.
  apply bind_ext; [|done].
  unfold load_sheet. apply bind_ext; [by apply (readCSS_always_false t)|].
  intros r s3. apply bind_ext; [done|]. intros ast s4.
  apply bind_ext; [done|]. intros localTokenNames s5. simpl.
  apply bind_ext; [by apply for_atImports_ext|]. intros imported s6.
  by apply for_atValues_ext.
Qed.

(** C8: when the transformer of the Locator returns [false] for a file,
    [readCSS] returns what it returns when the Locator has no transformer:
    the text read from the file as [css], no source map, no dependency;
    the parser is then given that text and no previous map.  A transformer
    that returns [false] for every file leaves every load as it is without
    a transformer.  [defaultTransformer] returns [false] for a file whose
    name ends neither in [.scss] nor in [.less]. *)
Theorem transformer_false_as_unconfigured t :
  transformer E = Some t →
  (∀ filePath source s,
     readFile E filePath = Some source →
     t source filePath = TransformedFalse →
     readCSS E filePath s = readCSS (set_transformer None E) filePath s ∧
     (∃ s1, readCSS E filePath s = (Ok (mkReadCSS source None []), s1) ∧
            parse E source filePath None s1
            = of_option (postcss_parse E source filePath None)
                (CssSyntaxError filePath) s1)) ∧
  ((∀ source from, t source from = TransformedFalse) →
   ∀ fuel filePath s,
     load E fuel filePath s = load (set_transformer None E) fuel filePath s) ∧
  (∀ (scssTransformer lessTransformer : Transformer MapObject) source from,
     endsWith from ".scss" = false → endsWith from ".less" = false →
     defaultTransformer scssTransformer lessTransformer source from = TransformedFalse).
Proof.
  intros Ht. split; [|split].
  - intros filePath source s Hread Hfalse. split.
    + by rewrite (readCSS_false t _ source), (readCSS_unconfigured _ source).
    + eexists. split; [by apply (readCSS_false t)|done].
  - intros Hfalse fuel filePath s. unfold load, finally.
    destruct (loading s); [done|].
    by rewrite (_load_always_false t).
  - intros. by apply endsWith_false_defaultTransformer.
Qed.
End Transformer.

(** ** The cache *)

Section Cache.
Context {Root AtRule Rule ClassSelector MapObject : Type}.
Context (E : Env Root AtRule Rule ClassSelector MapObject).

Lemma stat_mtime_Some path m s :
  stat E path = Some m →
  stat_mtime E path s = (Ok m, mkState (cache s) (loading s) (EvStat path :: log s)).
Proof. intros H. unfold stat_mtime, bind, record, of_option. by rewrite H. Qed.

Lemma stat_mtime_None path s :
  stat E path = None →
  stat_mtime E path s
  = (Err (StatError path), mkState (cache s) (loading s) (EvStat path :: log s)).
Proof. intros H. unfold stat_mtime, bind, record, of_option. by rewrite H. Qed.

Lemma stats_cons d deps (l : list Event) :
  stats (d :: deps) ++ l = stats deps ++ EvStat d :: l.
Proof. unfold stats. simpl. by rewrite <- app_assoc. Qed.


(** The loop goes past the dependencies that are fresh. *)
Lemma isCacheOutdated_loop_fresh pre rest s :
  Forall (fresh E (cache s)) pre →
  isCacheOutdated_loop E (pre ++ rest) s
  = isCacheOutdated_loop E rest (mkState (cache s) (loading s) (stats pre ++ log s)).
Proof.
  revert s. induction pre as [|d pre IH]; intros s Hpre; simpl.
  - by destruct s.
  - inversion Hpre as [|? ? (entry & Hentry & Hstat) Hpre']; subst.
    unfold bind at 1, cache_get at 1. rewrite Hentry.
    rewrite (bind_Ok _ _ _ _ _ (stat_mtime_Some d _ s Hstat)).
    rewrite bool_decide_false by (by intros ?).
    rewrite IH by done. simpl. by rewrite stats_cons.
Qed.

Lemma isCacheOutdated_up_to_date path r s :
  up_to_date E (cache s) path r →
  isCacheOutdated E path s
  = (Ok false, mkState (cache s) (loading s)
                 (stats (dependencies r) ++ EvStat path :: log s)).
Proof.
  intros [(entry & Hentry & Hstat & <-) Hdeps].
  unfold isCacheOutdated. unfold bind at 1, cache_get at 1. rewrite Hentry.
  rewrite (bind_Ok _ _ _ _ _ (stat_mtime_Some path _ s Hstat)).
  rewrite bool_decide_false by (by intros ?).
  rewrite <- (app_nil_r (dependencies (result entry))) at 1.
  rewrite isCacheOutdated_loop_fresh by done. done.
Qed.

Lemma isCacheOutdated_missing path s :
  cache s !! path = None → isCacheOutdated E path s = (Ok true, s).
Proof. intros H. unfold isCacheOutdated, bind, cache_get. by rewrite H. Qed.

Lemma isCacheOutdated_loop_false deps s s' :
  isCacheOutdated_loop E deps s = (Ok false, s') → Forall (fresh E (cache s)) deps.
Proof.
  revert s. induction deps as [|d deps IH]; intros s H; [constructor|].
  simpl in H. unfold bind at 1, cache_get at 1 in H.
  destruct (cache s !! d) as [entry|] eqn:Hentry; [|done].
  destruct (stat E d) as [m|] eqn:Hstat.
  - rewrite (bind_Ok _ _ _ _ _ (stat_mtime_Some d m s Hstat)) in H.
    case_bool_decide as Hm; [done|].
    constructor; [exists entry; by rewrite Hm|].
    by apply IH in H.
  - by rewrite (bind_Err _ _ _ _ _ (stat_mtime_None d s Hstat)) in H.
Qed.

Lemma isCacheOutdated_false path s s' :
  isCacheOutdated E path s = (Ok false, s') →
  ∃ entry, cache s !! path = Some entry ∧ up_to_date E (cache s) path (result entry).
Proof.
  intros H. unfold isCacheOutdated in H. unfold bind at 1, cache_get at 1 in H.
  destruct (cache s !! path) as [entry|] eqn:Hentry; [|done].
  exists entry. split; [done|].
  destruct (stat E path) as [m|] eqn:Hstat.
  - rewrite (bind_Ok _ _ _ _ _ (stat_mtime_Some path m s Hstat)) in H.
    case_bool_decide as Hm; [done|].
    split; [exists entry; by rewrite Hm|].
    by apply isCacheOutdated_loop_false in H.
  - by rewrite (bind_Err _ _ _ _ _ (stat_mtime_None path s Hstat)) in H.
Qed.

(** Served from the cache: one unit of fuel is enough, nothing is read
    and nothing is stored. *)
Lemma _load_up_to_date fuel path r s :
  up_to_date E (cache s) path r →
  _load E (S fuel) path s
  = (Ok r, mkState (cache s) (loading s)
             (stats (dependencies r) ++ EvStat path :: log s)).
Proof.
  intros Hup. simpl.
  rewrite (bind_Ok _ _ _ _ _ (isCacheOutdated_up_to_date path r s Hup)). simpl.
  destruct Hup as [(entry & Hentry & _ & <-) _].
  unfold bind, cache_get. simpl. by rewrite Hentry.
Qed.

(** A dependency that is gone from the disk, behind fresh ones. *)
Lemma isCacheOutdated_deleted path entry pre dep post depEntry s :
  cache s !! path = Some entry →
  stat E path = Some (mtime entry) →
  dependencies (result entry) = pre ++ dep :: post →
  Forall (fresh E (cache s)) pre →
  cache s !! dep = Some depEntry →
  stat E dep = None →
  isCacheOutdated E path s
  = (Err (StatError dep),
     mkState (cache s) (loading s) (EvStat dep :: stats pre ++ EvStat path :: log s)).
Proof.
  intros Hentry Hstat Hdeps Hpre Hdep Hgone.
  unfold isCacheOutdated. unfold bind at 1, cache_get at 1. rewrite Hentry.
  rewrite (bind_Ok _ _ _ _ _ (stat_mtime_Some path _ s Hstat)).
  rewrite bool_decide_false by (by intros ?).
  rewrite Hdeps, isCacheOutdated_loop_fresh by done.
  simpl. unfold bind at 1, cache_get at 1. simpl. rewrite Hdep.
  by rewrite (bind_Err _ _ _ _ _ (stat_mtime_None dep _ Hgone)).
Qed.

(** A dependency without an entry of its own, behind fresh ones. *)
Lemma isCacheOutdated_no_entry path entry pre dep post s :
  cache s !! path = Some entry →
  stat E path = Some (mtime entry) →
  dependencies (result entry) = pre ++ dep :: post →
  Forall (fresh E (cache s)) pre →
  cache s !! dep = None →
  isCacheOutdated E path s
  = (Ok true, mkState (cache s) (loading s) (stats pre ++ EvStat path :: log s)).
Proof.
  intros Hentry Hstat Hdeps Hpre Hdep.
  unfold isCacheOutdated. unfold bind at 1, cache_get at 1. rewrite Hentry.
  rewrite (bind_Ok _ _ _ _ _ (stat_mtime_Some path _ s Hstat)).
  rewrite bool_decide_false by (by intros ?).
  rewrite Hdeps, isCacheOutdated_loop_fresh by done.
  simpl. unfold bind at 1, cache_get at 1. simpl. by rewrite Hdep.
Qed.
End Cache.

Section Freshness.
Context {Root AtRule Rule ClassSelector MapObject : Type}.
Context (E : Env Root AtRule Rule ClassSelector MapObject).

Lemma cache_unchanged {A} (m : M A) s :
  preserves (λ s', cache s' = cache s) m → cache (m s).2 = cache s.
Proof. intros H. by apply H. Qed.

Lemma strict_resolver_cache specifier request s o s' :
  strict_resolver E specifier request s = (o, s') → cache s' = cache s.
Proof.
  unfold strict_resolver, bind, record, of_option.
  destruct (resolver E specifier request); intros [= <- <-]; done.
Qed.

Lemma stat_mtime_cache path s o s' :
  stat_mtime E path s = (o, s') → cache s' = cache s.
Proof.
  unfold stat_mtime, bind, record, of_option.
  destruct (stat E path); intros [= <- <-]; done.
Qed.

Lemma readCSS_cache filePath s o s' :
  readCSS E filePath s = (o, s') → cache s' = cache s.
Proof.
  intros H.
  pose proof (cache_unchanged (readCSS E filePath) s) as Hc.
  rewrite H in Hc. apply Hc. by apply preserves_readCSS.
Qed.





Lemma fresh_insert (c : gmap string CacheEntry) path m r k :
  stat E path = Some m → fresh E c k → fresh E (<[path := mkCacheEntry m r]> c) k.
Proof.
  intros Hm (entry & Hentry & Hstat). destruct (decide (path = k)) as [<-|Hne].
  - exists (mkCacheEntry m r). by rewrite lookup_insert_eq.
  - exists entry. by rewrite lookup_insert_ne.
Qed.

End Freshness.

(** ** Ignored specifiers *)

Section LocalDependencies.
Context {Root AtRule Rule ClassSelector MapObject : Type}.
Context (E : Env Root AtRule Rule ClassSelector MapObject).
Hypothesis Hresolver : resolves_to_paths (resolver E).

Lemma strict_resolver_path specifier request s from s' :
  strict_resolver E specifier request s = (Ok from, s') →
  isIgnoredSpecifier from = false ∧ cache s' = cache s.
Proof.
  unfold strict_resolver, bind, record, of_option.
  destruct (resolver E specifier request) as [path|] eqn:Hres; [|done].
  intros [= <- <-]. split; [by eapply Hresolver|done].
Qed.

Lemma readCSS_local filePath s r s' :
  readCSS E filePath s = (Ok r, s') →
  Forall (λ dep, isIgnoredSpecifier dep = false) (css_dependencies r).
Proof.
  intros H. unfold readCSS in H. bind_inv H; try done.
  destruct (transformer E) as [t|]; [|inversion H; constructor].
  destruct (t a filePath) as [tr| |]; [|inversion H; constructor|done].
  bind_inv H; try done. inversion H; subst. simpl.
  apply Forall_forall. by intros dep [? _]%list_elem_of_filter.
Qed.

Lemma for_atImports_local load filePath atImports deps toks s all s' :
  local load →
  for_atImports E load filePath atImports deps toks s = (Ok all, s') →
  cache_local (cache s) →
  Forall (λ dep, isIgnoredSpecifier dep = false) deps →
  Forall (λ dep, isIgnoredSpecifier dep = false) all.1 ∧ cache_local (cache s').
Proof.
  intros Hload. revert deps toks s.
  induction atImports as [|atImport rest IH]; intros deps toks s H Hs Hdeps; simpl in H.
  - inversion H; subst. done.
  - destruct (parseAtImport E atImport) as [specifier|]; [|by eapply IH].
    case_bool_decide; [by eapply IH|].
    destruct (isIgnoredSpecifier specifier); [by eapply IH|].
    bind_inv H; try done. bind_inv H; try done.
    apply strict_resolver_path in Ha as [Hfrom Hc].
    apply Hload in Ha0 as [Hr Hs1]; [|by rewrite Hc].
    eapply IH; [done|done|].
    apply Forall_app. split; [done|by constructor].
Qed.

Lemma for_atValues_local load filePath atValues deps toks s all s' :
  local load →
  for_atValues E load filePath atValues deps toks s = (Ok all, s') →
  cache_local (cache s) →
  Forall (λ dep, isIgnoredSpecifier dep = false) deps →
  Forall (λ dep, isIgnoredSpecifier dep = false) all.1 ∧ cache_local (cache s').
Proof.
  intros Hload. revert deps toks s.
  induction atValues as [|atValue rest IH]; intros deps toks s H Hs Hdeps; simpl in H.
  - inversion H; subst. done.
  - bind_inv H; try done.
    apply of_option_inv in Ha as [-> _].
    destruct a as [tokenName|from_ imports]; [by eapply IH|].
    destruct (isIgnoredSpecifier from_); [by eapply IH|].
    bind_inv H; try done. bind_inv H; try done.
    apply strict_resolver_path in Ha as [Hfrom Hc].
    apply Hload in Ha0 as [Hr Hs1]; [|by rewrite Hc].
    eapply IH; [done|done|].
    apply Forall_app. split; [done|by constructor].
Qed.

Lemma cache_local_insert key m r (c : gmap string CacheEntry) :
  Forall (λ dep, isIgnoredSpecifier dep = false) (dependencies r) →
  cache_local c → cache_local (<[key := mkCacheEntry m r]> c).
Proof.
  intros Hr Hc key' entry dep. destruct (decide (key = key')) as [<-|Hne].
  - rewrite lookup_insert_eq. intros [= <-]. simpl.
    rewrite Forall_forall in Hr. apply Hr.
  - rewrite lookup_insert_ne by done. apply Hc.
Qed.

Lemma _load_local fuel : local (_load E fuel).
Proof.
  induction fuel as [|fuel IH]; intros path s r s' Hs H; [done|].
  apply _load_Ok_inv in H
    as [(entry & H1 & H2 & ->)|(s1 & m & s2 & all & s3 & H1 & H2 & H3 & -> & ->)].
  - destruct (isCacheOutdated_state E path s) as (new & Hst & _).
    rewrite H1 in Hst. simpl in Hst. subst s'. simpl in *.
    split; [|done]. apply Forall_forall. intros dep Hdep. by eapply Hs.
  - destruct (isCacheOutdated_state E path s) as (new & Hst & _).
    rewrite H1 in Hst. simpl in Hst. subst s1.
    apply stat_mtime_cache in H2. simpl in H2.
    unfold load_sheet in H3.
    bind_inv H3; try done. bind_inv H3; try done. bind_inv H3; try done.
    bind_inv H3; try done.
    apply readCSS_local in H3a as Hcss. apply readCSS_cache in H3a.
    unfold parse in H3a0. apply of_option_inv in H3a0 as [-> _].
    apply of_option_inv in H3a1 as [-> _].
    apply for_atImports_local in H3a2 as [Hd1 Hc1];
      [|done|by rewrite H3a, H2|done].
    apply for_atValues_local in H3 as [Hd2 Hc2]; [|done|done|done].
    assert (Hr : Forall (λ dep, isIgnoredSpecifier dep = false)
                   (dependencies (make_result path all))).
    { unfold make_result; simpl. apply Forall_forall.
      intros dep [_ Hdep]%list_elem_of_filter. rewrite elem_of_unique in Hdep.
      rewrite Forall_forall in Hd2. by apply Hd2. }
    split; [done|]. simpl. by apply cache_local_insert.
Qed.
End LocalDependencies.

Section Ignored.
Context {Root AtRule Rule ClassSelector MapObject : Type}.
Context (E : Env Root AtRule Rule ClassSelector MapObject).

Lemma load_log_allowed fuel filePath s :
  Forall allowed (log s) → Forall allowed (log (load E fuel filePath s).2).
Proof.
  intros Hs. unfold load. destruct (loading s); [done|].
  pose proof (_load_log_allowed E fuel filePath (set_loading true s) Hs) as H.
  unfold finally. by destruct (_load E fuel filePath (set_loading true s)) as [[?|?|] ?].
Qed.

(** C5: [isIgnoredSpecifier] is true exactly of the specifiers that begin
    with [http://] or with [https://]; the loop over the [@import] rules
    passes over a rule with such a specifier, leaving the dependencies,
    the tokens and the state as they are and raising nothing; in the log of
    a load that starts with no call recorded, no call to the resolver has
    such a specifier; and when the resolver returns paths only and the cache
    lists none, no dependency of a result that [load] returns is such a
    specifier. *)
Theorem ignored_specifiers_are_skipped :
  (∀ specifier,
     isIgnoredSpecifier specifier = true ↔
     (∃ rest, specifier = "http://" +:+ rest) ∨
     (∃ rest, specifier = "https://" +:+ rest)) ∧
  (∀ load filePath atImport rest deps toks specifier,
     parseAtImport E atImport = Some specifier →
     isIgnoredSpecifier specifier = true →
     for_atImports E load filePath (atImport :: rest) deps toks
     = for_atImports E load filePath rest deps toks) ∧
  (∀ fuel filePath s specifier request,
     log s = [] →
     EvResolve specifier request ∈ log (load E fuel filePath s).2 →
     isIgnoredSpecifier specifier = false) ∧
  (∀ fuel filePath s r s' dep,
     resolves_to_paths (resolver E) → cache_local (cache s) →
     load E fuel filePath s = (Ok r, s') →
     dep ∈ dependencies r → isIgnoredSpecifier dep = false).
Proof.
  split; [apply isIgnoredSpecifier_iff|]. split; [|split].
  - intros load filePath atImport rest deps toks specifier Hparse Hign.
    simpl. rewrite Hparse, Hign. by case_bool_decide.
  - intros fuel filePath s specifier request Hs Hin.
    assert (H : Forall allowed (log (load E fuel filePath s).2)).
    { apply load_log_allowed. rewrite Hs. constructor. }
    rewrite Forall_forall in H. by eapply H.
  - intros fuel filePath s r s' dep Hres Hs (s1 & H & ->)%load_Ok_inv Hdep.
    apply (_load_local E Hres) in H as [H _]; [|done].
    rewrite Forall_forall in H. by apply H.
Qed.
End Ignored.

(** ** Termination *)

Lemma settles_ret {A} (a : A) : settles (ret a).
Proof. by intros s. Qed.

Lemma settles_throw {A} e : settles (@throw A e).
Proof. by intros s. Qed.

Lemma settles_of_option {A} (o : option A) e : settles (of_option o e).
Proof. destruct o; [apply settles_ret|apply settles_throw]. Qed.

Lemma settles_bind {A B} (m : M A) (k : A → M B) :
  settles m → (∀ a, settles (k a)) → settles (bind m k).
Proof.
  intros Hm Hk s. specialize (Hm s). unfold bind.
  destruct (m s) as [[a|e|] s1]; simpl in *; [apply Hk|done|done].
Qed.


Section Termination.
Context {Root AtRule Rule ClassSelector MapObject : Type}.
Context (E : Env Root AtRule Rule ClassSelector MapObject).

Lemma settles_stat_mtime path : settles (stat_mtime E path).
Proof. apply settles_bind; [done|intros; apply settles_of_option]. Qed.


Lemma settles_isCacheOutdated_loop deps : settles (isCacheOutdated_loop E deps).
Proof.
  induction deps as [|d deps IH]; simpl; [apply settles_ret|].
  apply settles_bind; [done|]. intros [entry|]; [|apply settles_ret].
  apply settles_bind; [apply settles_stat_mtime|]. intros m.
  case_bool_decide; [apply settles_ret|apply IH].
Qed.

Lemma settles_isCacheOutdated path : settles (isCacheOutdated E path).
Proof.
  apply settles_bind; [done|]. intros [entry|]; [|apply settles_ret].
  apply settles_bind; [apply settles_stat_mtime|]. intros m.
  case_bool_decide; [apply settles_ret|apply settles_isCacheOutdated_loop].
Qed.



(** What [readCSS] returns does not depend on the state. *)
Lemma map_dependencies_pure deps s s0 :
  (map_dependencies deps s).1 = (map_dependencies deps s0).1.
Proof.
  induction deps as [|[dep|protocol pathname] deps IH]; simpl; [done| |].
  - unfold bind. destruct (map_dependencies deps s) as [[?|?|] ?],
      (map_dependencies deps s0) as [[?|?|] ?]; simpl in *; congruence.
  - case_bool_decide; [done|].
    unfold bind. destruct (map_dependencies deps s) as [[?|?|] ?],
      (map_dependencies deps s0) as [[?|?|] ?]; simpl in *; congruence.
Qed.

Lemma readCSS_pure filePath s s0 :
  (readCSS E filePath s).1 = (readCSS E filePath s0).1.
Proof.
  unfold readCSS, read_file. unfold bind at 1 2 4 5, record, of_option.
  destruct (readFile E filePath) as [css|]; simpl; [|done].
  destruct (transformer E) as [t|]; [|done].
  destruct (t css filePath) as [r| |]; [|done|done].
  unfold bind.
  pose proof (map_dependencies_pure (tr_dependencies r)
    (mkState (cache s) (loading s) (EvReadFile filePath :: log s))
    (mkState (cache s0) (loading s0) (EvReadFile filePath :: log s0))) as H.
  destruct (map_dependencies (tr_dependencies r) _) as [[?|?|] ?],
    (map_dependencies (tr_dependencies r) _) as [[?|?|] ?]; simpl in *; congruence.
Qed.


End Termination.

Section Cycles.
Context {Root AtRule Rule ClassSelector MapObject : Type}.
Context (E : Env Root AtRule Rule ClassSelector MapObject).

Lemma parse_inv css filePath map s o s' :
  parse E css filePath map s = (o, s') →
  s' = s ∧ ∀ s0, parse E css filePath map s0 = (o, s0).
Proof.
  unfold parse.
  destruct (postcss_parse E css filePath _) as [ast|]; simpl;
    intros [= <- <-]; done.
Qed.

Lemma elem_of_imported_sheets filePath s r s1 ast s2 specifier from :
  readCSS E filePath s = (Ok r, s1) →
  parse E (css r) filePath (map r) s1 = (Ok ast, s2) →
  specifier ∈ import_specifiers E ast →
  isIgnoredSpecifier specifier = false →
  resolver E specifier filePath = Some from →
  from ∈ imported_sheets E filePath.
Proof.
  intros Hread Hparse Hspec Hign Hres. unfold imported_sheets.
  pose proof (readCSS_pure E filePath new_state s) as Hpure.
  rewrite Hread in Hpure. simpl in Hpure.
  destruct (readCSS E filePath new_state) as [o s0]. simpl in Hpure. subst o.
  apply parse_inv in Hparse as [_ Hparse]. rewrite Hparse.
  apply list_elem_of_omap. exists specifier. split; [done|]. by rewrite Hign.
Qed.



End Cycles.

(** ** The results do not depend on the cache *)

Section Determinism.
Context {Root AtRule Rule ClassSelector MapObject : Type}.
Context (E : Env Root AtRule Rule ClassSelector MapObject).

Lemma bind_oracle {B} table path r (k : LoadResult → M B) s :
  table path = Ok r → bind (oracle table path) k s = k r s.
Proof. unfold bind, oracle. by intros ->. Qed.

Lemma oracle_Ok table path s r s' :
  oracle table path s = (Ok r, s') → table path = Ok r.
Proof. unfold oracle. by intros [= -> _]. Qed.

Lemma strict_resolver_Ok specifier request s from s' :
  strict_resolver E specifier request s = (Ok from, s') →
  ∀ t, strict_resolver E specifier request t
       = (Ok from, mkState (cache t) (loading t)
                     (EvResolve specifier request :: log t)).
Proof.
  unfold strict_resolver, bind, record, of_option.
  destruct (resolver E specifier request); [|done]. by intros [= <- _] t.
Qed.

Lemma readCSS_Ok filePath s r s' :
  readCSS E filePath s = (Ok r, s') → ∀ s0, ∃ s0', readCSS E filePath s0 = (Ok r, s0').
Proof.
  intros H s0. pose proof (readCSS_pure E filePath s0 s) as Hpure.
  rewrite H in Hpure. destruct (readCSS E filePath s0) as [o s0'].
  simpl in Hpure. subst o. by exists s0'.
Qed.

(** A loop over an oracle returns the same lists in every state, and with
    every oracle that answers at least as much. *)
Lemma for_atImports_oracle table table' filePath atImports deps toks s all s' :
  (∀ p r, table p = Ok r → table' p = Ok r) →
  for_atImports E (oracle table) filePath atImports deps toks s = (Ok all, s') →
  ∀ s0, ∃ s0',
    for_atImports E (oracle table') filePath atImports deps toks s0 = (Ok all, s0').
Proof.
  intros Hmono. revert deps toks s.
  induction atImports as [|atImport rest IH]; intros deps toks s H t; simpl in *.
  - inversion H; subst. by exists t.
  - destruct (parseAtImport E atImport) as [specifier|]; [|by eapply IH].
    case_bool_decide; [by eapply IH|].
    destruct (isIgnoredSpecifier specifier); [by eapply IH|].
    bind_inv H; try done. bind_inv H; try done.
    rewrite (bind_Ok _ _ _ _ _ (strict_resolver_Ok _ _ _ _ _ Ha t)).
    rewrite (bind_oracle table' a a0) by (by eapply Hmono, oracle_Ok).
    by eapply IH.
Qed.

Lemma for_atValues_oracle table table' filePath atValues deps toks s all s' :
  (∀ p r, table p = Ok r → table' p = Ok r) →
  for_atValues E (oracle table) filePath atValues deps toks s = (Ok all, s') →
  ∀ s0, ∃ s0',
    for_atValues E (oracle table') filePath atValues deps toks s0 = (Ok all, s0').
Proof.
  intros Hmono. revert deps toks s.
  induction atValues as [|atValue rest IH]; intros deps toks s H t; simpl in *.
  - inversion H; subst. by exists t.
  - bind_inv H; try done.
    apply of_option_inv in Ha as [-> [(parsed & Hparse & [= ->])|[_ ?]]]; [|done].
    rewrite Hparse. simpl. unfold bind at 1, ret at 1.
    destruct parsed as [tokenName|from_ imports]; [by eapply IH|].
    destruct (isIgnoredSpecifier from_); [by eapply IH|].
    bind_inv H; try done. bind_inv H; try done.
    rewrite (bind_Ok _ _ _ _ _ (strict_resolver_Ok _ _ _ _ _ Ha t)).
    rewrite (bind_oracle table' a a0) by (by eapply Hmono, oracle_Ok).
    by eapply IH.
Qed.

Lemma load_sheet_oracle table table' filePath s all s' :
  (∀ p r, table p = Ok r → table' p = Ok r) →
  load_sheet E (oracle table) filePath s = (Ok all, s') →
  ∀ s0, ∃ s0', load_sheet E (oracle table') filePath s0 = (Ok all, s0').
Proof.
  intros Hmono H t. unfold load_sheet in *.
  bind_inv H; try done. bind_inv H; try done. bind_inv H; try done.
  bind_inv H; try done.
  destruct (readCSS_Ok _ _ _ _ Ha t) as [t1 Hread].
  rewrite (bind_Ok _ _ _ _ _ Hread).
  apply parse_inv in Ha0 as [_ Hparse]. rewrite (bind_Ok _ _ _ _ _ (Hparse t1)).
  apply of_option_inv in Ha1 as [_ [(l & Hlocal & [= ->])|[_ ?]]]; [|done].
  rewrite Hlocal. simpl. unfold bind at 1, ret at 1.
  destruct (for_atImports_oracle table table' _ _ _ _ _ _ _ Hmono Ha2 t1) as [t2 Himports].
  rewrite (bind_Ok _ _ _ _ _ Himports).
  by eapply for_atValues_oracle.
Qed.

Lemma uncached_S fuel filePath :
  uncached E (S fuel) filePath
  = match (load_sheet E (oracle (uncached E fuel)) filePath new_state).1 with
    | Ok all => Ok (make_result filePath all)
    | Err e => Err e
    | Pending => Pending
    end.
Proof. done. Qed.

Lemma uncached_Ok_inv fuel filePath r :
  uncached E (S fuel) filePath = Ok r →
  ∃ all s', load_sheet E (oracle (uncached E fuel)) filePath new_state = (Ok all, s') ∧
            r = make_result filePath all.
Proof.
  rewrite uncached_S.
  destruct (load_sheet E (oracle (uncached E fuel)) filePath new_state)
    as [[all|e|] s']; simpl; [|done|done].
  intros [= <-]. eauto.
Qed.

Lemma uncached_intro table fuel filePath s all s' :
  (∀ p r, table p = Ok r → uncached E fuel p = Ok r) →
  load_sheet E (oracle table) filePath s = (Ok all, s') →
  uncached E (S fuel) filePath = Ok (make_result filePath all).
Proof.
  intros Hmono H. rewrite uncached_S.
  destruct (load_sheet_oracle _ _ _ _ _ _ Hmono H new_state) as [s0 ->]. done.
Qed.

(** More fuel does not change a result. *)
Lemma uncached_more fuel filePath r :
  uncached E fuel filePath = Ok r → uncached E (S fuel) filePath = Ok r.
Proof.
  revert filePath r. induction fuel as [|fuel IH]; intros filePath r H; [done|].
  apply uncached_Ok_inv in H as (all & s' & H & ->).
  by eapply uncached_intro.
Qed.

Lemma uncached_le (fuel fuel' : nat) filePath r :
  (fuel ≤ fuel')%nat → uncached E fuel filePath = Ok r → uncached E fuel' filePath = Ok r.
Proof.
  induction 1 as [|fuel' _ IH]; [done|]. intros H. by apply uncached_more, IH.
Qed.

Lemma uncached_deterministic fuel fuel' filePath r r' :
  uncached E fuel filePath = Ok r → uncached E fuel' filePath = Ok r' → r = r'.
Proof.
  intros H H'.
  apply (uncached_le fuel (fuel `max` fuel')) in H; [|lia].
  apply (uncached_le fuel' (fuel `max` fuel')) in H'; [|lia].
  congruence.
Qed.
End Determinism.

Section Faithful.
Context {Root AtRule Rule ClassSelector MapObject : Type}.
Context (E : Env Root AtRule Rule ClassSelector MapObject).

Lemma coherent_cache c c' : c' = c → coherent E c → coherent E c'.
Proof. by intros ->. Qed.

Lemma coherent_insert key m r fuel (c : gmap string CacheEntry) :
  uncached E fuel key = Ok r → coherent E c →
  coherent E (<[key := mkCacheEntry m r]> c).
Proof.
  intros Hr Hc key' entry. destruct (decide (key = key')) as [<-|Hne].
  - rewrite lookup_insert_eq. intros [= <-]. by exists fuel.
  - rewrite lookup_insert_ne by done. apply Hc.
Qed.

Lemma isCacheOutdated_cache filePath s o s' :
  isCacheOutdated E filePath s = (o, s') → cache s' = cache s.
Proof.
  intros H. destruct (isCacheOutdated_state E filePath s) as (new & Hst & _).
  rewrite H in Hst. simpl in Hst. by subst s'.
Qed.

Lemma for_atImports_faithful load filePath atImports deps toks s o s' :
  faithful E load → coherent E (cache s) →
  for_atImports E load filePath atImports deps toks s = (o, s') →
  coherent E (cache s') ∧
  ∀ all, o = Ok all →
    ∃ fuel, ∀ t, ∃ t',
      for_atImports E (oracle (uncached E fuel)) filePath atImports deps toks t
      = (Ok all, t').
Proof.
  intros Hload. revert deps toks s.
  induction atImports as [|atImport rest IH]; intros deps toks s Hs H; simpl in H.
  - inversion H; subst. split; [done|]. intros all [= <-].
    exists 0. intros t. by exists t.
  - assert (Hskip : ∀ all fuel,
      (∀ t, ∃ t', for_atImports E (oracle (uncached E fuel)) filePath rest deps toks t
                  = (Ok all, t')) →
      parseAtImport E atImport = None ∨
      (∃ specifier, parseAtImport E atImport = Some specifier ∧
         (specifier = "" ∨ isIgnoredSpecifier specifier = true)) →
      ∀ t, ∃ t', for_atImports E (oracle (uncached E fuel)) filePath
                   (atImport :: rest) deps toks t = (Ok all, t')).
    { intros all fuel Hrest Hcase t. simpl.
      destruct Hcase as [->|(specifier & -> & [->|Hign])]; [apply Hrest|apply Hrest|].
      case_bool_decide; [apply Hrest|]. rewrite Hign. apply Hrest. }
    destruct (parseAtImport E atImport) as [specifier|] eqn:Hparse.
    2:{ destruct (IH _ _ _ Hs H) as [Hc Hall]. split; [done|].
        intros all Ho. destruct (Hall all Ho) as [fuel Hrest].
        exists fuel. apply Hskip; [done|by left]. }
    case_bool_decide as Hempty.
    { destruct (IH _ _ _ Hs H) as [Hc Hall]. split; [done|].
      intros all Ho. destruct (Hall all Ho) as [fuel Hrest].
      exists fuel. apply Hskip; [done|]. right. exists specifier. auto. }
    destruct (isIgnoredSpecifier specifier) eqn:Hign.
    { destruct (IH _ _ _ Hs H) as [Hc Hall]. split; [done|].
      intros all Ho. destruct (Hall all Ho) as [fuel Hrest].
      exists fuel. apply Hskip; [done|]. right. exists specifier. auto. }
    bind_inv H.
    + apply strict_resolver_cache in Ha as Hc.
      bind_inv H.
      * destruct (Hload _ _ _ _ (coherent_cache _ _ Hc Hs) Ha0) as [Hs1 Hr].
        destruct (Hr a0 eq_refl) as [fuel1 Hfuel1].
        destruct (IH _ _ _ Hs1 H) as [Hs' Hall]. split; [done|].
        intros all Ho. destruct (Hall all Ho) as [fuel2 Hrest].
        exists (fuel1 `max` fuel2). intros t. simpl.
        rewrite Hparse, (bool_decide_false _ Hempty), Hign.
        rewrite (bind_Ok _ _ _ _ _ (strict_resolver_Ok E _ _ _ _ _ Ha t)).
        rewrite (bind_oracle (uncached E (fuel1 `max` fuel2)) a a0)
          by (eapply uncached_le; [|done]; lia).
        destruct (Hrest t) as [t' Hrun].
        eapply for_atImports_oracle; [|exact Hrun].
        intros p r. apply uncached_le. lia.
      * subst o. split; [|done].
        by destruct (Hload _ _ _ _ (coherent_cache _ _ Hc Hs) Ha0).
      * subst o. split; [|done].
        by destruct (Hload _ _ _ _ (coherent_cache _ _ Hc Hs) Ha0).
    + subst o. apply strict_resolver_cache in Ha. split; [by rewrite Ha|done].
    + subst o. apply strict_resolver_cache in Ha. split; [by rewrite Ha|done].
Qed.

Lemma for_atValues_faithful load filePath atValues deps toks s o s' :
  faithful E load → coherent E (cache s) →
  for_atValues E load filePath atValues deps toks s = (o, s') →
  coherent E (cache s') ∧
  ∀ all, o = Ok all →
    ∃ fuel, ∀ t, ∃ t',
      for_atValues E (oracle (uncached E fuel)) filePath atValues deps toks t
      = (Ok all, t').
Proof.
  intros Hload. revert deps toks s.
  induction atValues as [|atValue rest IH]; intros deps toks s Hs H; simpl in H.
  - inversion H; subst. split; [done|]. intros all [= <-].
    exists 0. intros t. by exists t.
  - destruct (parseAtValue E atValue) as [parsed|] eqn:Hparse; simpl in H.
    2:{ inversion H; subst. done. }
    unfold bind at 1, ret at 1 in H.
    assert (Hstep : ∀ t k,
      for_atValues E (oracle (uncached E k)) filePath (atValue :: rest) deps toks t
      = match parsed with
        | valueDeclaration tokenName =>
            for_atValues E (oracle (uncached E k)) filePath rest deps
              (toks ++ [mkToken tokenName None
                          (getOriginalLocationOfAtValue E atValue parsed)]) t
        | valueImportDeclaration from_ imports =>
            if isIgnoredSpecifier from_ then
              for_atValues E (oracle (uncached E k)) filePath rest deps toks t
            else
              bind (strict_resolver E from_ filePath)
                (λ from, bind (oracle (uncached E k) from)
                   (λ result, for_atValues E (oracle (uncached E k)) filePath rest
                      (deps ++ from :: dependencies result)
                      (push_imported_tokens imports (tokens result) toks))) t
        end).
    { intros t k. simpl. rewrite Hparse. simpl. unfold bind at 1, ret at 1.
      destruct parsed as [|from0 imports0]; [done|].
      by destruct (isIgnoredSpecifier from0). }
    destruct parsed as [tokenName|from_ imports].
    { destruct (IH _ _ _ Hs H) as [Hc Hall]. split; [done|].
      intros all Ho. destruct (Hall all Ho) as [fuel Hrest].
      exists fuel. intros t. rewrite Hstep. apply Hrest. }
    destruct (isIgnoredSpecifier from_) eqn:Hign.
    { destruct (IH _ _ _ Hs H) as [Hc Hall]. split; [done|].
      intros all Ho. destruct (Hall all Ho) as [fuel Hrest].
      exists fuel. intros t. rewrite Hstep. apply Hrest. }
    bind_inv H.
    + apply strict_resolver_cache in Ha as Hc.
      bind_inv H.
      * destruct (Hload _ _ _ _ (coherent_cache _ _ Hc Hs) Ha0) as [Hs1 Hr].
        destruct (Hr a0 eq_refl) as [fuel1 Hfuel1].
        destruct (IH _ _ _ Hs1 H) as [Hs' Hall]. split; [done|].
        intros all Ho. destruct (Hall all Ho) as [fuel2 Hrest].
        exists (fuel1 `max` fuel2). intros t. rewrite Hstep.
        rewrite (bind_Ok _ _ _ _ _ (strict_resolver_Ok E _ _ _ _ _ Ha t)).
        rewrite (bind_oracle (uncached E (fuel1 `max` fuel2)) a a0)
          by (eapply uncached_le; [|done]; lia).
        destruct (Hrest t) as [t' Hrun].
        eapply for_atValues_oracle; [|exact Hrun].
        intros p r. apply uncached_le. lia.
      * subst o. split; [|done].
        by destruct (Hload _ _ _ _ (coherent_cache _ _ Hc Hs) Ha0).
      * subst o. split; [|done].
        by destruct (Hload _ _ _ _ (coherent_cache _ _ Hc Hs) Ha0).
    + subst o. apply strict_resolver_cache in Ha. split; [by rewrite Ha|done].
    + subst o. apply strict_resolver_cache in Ha. split; [by rewrite Ha|done].
Qed.

Lemma load_sheet_faithful load filePath s o s' :
  faithful E load → coherent E (cache s) →
  load_sheet E load filePath s = (o, s') →
  coherent E (cache s') ∧
  ∀ all, o = Ok all →
    ∃ fuel, ∀ t, ∃ t',
      load_sheet E (oracle (uncached E fuel)) filePath t = (Ok all, t').
Proof.
  intros Hload Hs H. unfold load_sheet in H.
  bind_inv H.
  2:{ subst o. apply readCSS_cache in Ha. split; [by rewrite Ha|done]. }
  2:{ subst o. apply readCSS_cache in Ha. split; [by rewrite Ha|done]. }
  apply readCSS_cache in Ha as Hc.
  bind_inv H.
  2:{ subst o. apply parse_inv in Ha0 as [-> _]. split; [by rewrite Hc|done]. }
  2:{ subst o. apply parse_inv in Ha0 as [-> _]. split; [by rewrite Hc|done]. }
  apply parse_inv in Ha0 as [-> Hparse].
  bind_inv H.
  2:{ subst o. apply of_option_inv in Ha0 as [-> _]. split; [by rewrite Hc|done]. }
  2:{ subst o. apply of_option_inv in Ha0 as [-> _]. split; [by rewrite Hc|done]. }
  apply of_option_inv in Ha0 as [-> [(l & Hlocal & [= ->])|[_ ?]]]; [|done].
  bind_inv H.
  2:{ subst o. split; [|done].
      by destruct (for_atImports_faithful _ _ _ _ _ _ _ _ Hload
                     (coherent_cache _ _ Hc Hs) Ha0). }
  2:{ subst o. split; [|done].
      by destruct (for_atImports_faithful _ _ _ _ _ _ _ _ Hload
                     (coherent_cache _ _ Hc Hs) Ha0). }
  destruct (for_atImports_faithful _ _ _ _ _ _ _ _ Hload
              (coherent_cache _ _ Hc Hs) Ha0) as [Hs1 Himports].
  destruct (Himports _ eq_refl) as [fuel1 Hrun1].
  destruct (for_atValues_faithful _ _ _ _ _ _ _ _ Hload Hs1 H) as [Hs' Hvalues].
  split; [done|]. intros all Ho.
  destruct (Hvalues all Ho) as [fuel2 Hrun2].
  exists (fuel1 `max` fuel2). intros t. unfold load_sheet.
  destruct (readCSS_Ok E _ _ _ _ Ha t) as [t1 Hread].
  rewrite (bind_Ok _ _ _ _ _ Hread), (bind_Ok _ _ _ _ _ (Hparse t1)).
  rewrite Hlocal. simpl. unfold bind at 1, ret at 1.
  destruct (Hrun1 t1) as [t2 Hrun1'].
  assert (Hmono : ∀ p r, uncached E fuel1 p = Ok r →
                         uncached E (fuel1 `max` fuel2) p = Ok r).
  { intros p r. apply uncached_le. lia. }
  destruct (for_atImports_oracle E _ _ _ _ _ _ _ _ _ Hmono Hrun1' t1) as [t3 Hrun3].
  rewrite (bind_Ok _ _ _ _ _ Hrun3).
  destruct (Hrun2 t3) as [t4 Hrun2'].
  eapply for_atValues_oracle; [|exact Hrun2'].
  intros p r. apply uncached_le. lia.
Qed.

Lemma _load_faithful fuel : faithful E (_load E fuel).
Proof.
  induction fuel as [|fuel IH]; intros path s o s' Hs H.
  { inversion H; subst. done. }
  simpl in H. bind_inv H.
  2:{ subst o. apply isCacheOutdated_cache in Ha. split; [by rewrite Ha|done]. }
  2:{ subst o. apply isCacheOutdated_cache in Ha. split; [by rewrite Ha|done]. }
  apply isCacheOutdated_cache in Ha as Hc.
  destruct a; simpl in H.
  - bind_inv H.
    2:{ subst o. apply stat_mtime_cache in Ha0. split; [by rewrite Ha0, Hc|done]. }
    2:{ subst o. apply stat_mtime_cache in Ha0. split; [by rewrite Ha0, Hc|done]. }
    apply stat_mtime_cache in Ha0 as Hc0.
    assert (Hs1 : coherent E (cache s1)) by (by rewrite Hc0, Hc).
    bind_inv H.
    2:{ subst o. split; [|done]. by destruct (load_sheet_faithful _ _ _ _ _ IH Hs1 Ha1). }
    2:{ subst o. split; [|done]. by destruct (load_sheet_faithful _ _ _ _ _ IH Hs1 Ha1). }
    destruct (load_sheet_faithful _ _ _ _ _ IH Hs1 Ha1) as [Hs2 Hall].
    destruct (Hall _ eq_refl) as [fuel' Hrun].
    destruct (Hrun new_state) as [t' Hrun'].
    assert (Hr : uncached E (S fuel') path = Ok (make_result path a0)).
    { rewrite uncached_S. by rewrite Hrun'. }
    unfold bind, cache_set, ret in H. inversion H; subst. simpl.
    split; [by eapply coherent_insert|]. intros r [= <-]. eauto.
  - unfold bind, cache_get in H.
    destruct (cache s0 !! path) as [entry|] eqn:Hentry.
    + inversion H; subst. split; [by rewrite Hc|].
      intros r [= <-]. eapply Hs. by rewrite <- Hc.
    + inversion H; subst. split; [by rewrite Hc|done].
Qed.

Lemma load_coherent fuel filePath s :
  coherent E (cache s) → coherent E (cache (load E fuel filePath s).2).
Proof.
  intros Hs. unfold load. destruct (loading s); [done|]. unfold finally.
  destruct (_load E fuel filePath (set_loading true s)) as [o s'] eqn:H.
  destruct (_load_faithful fuel _ (set_loading true s) _ _ Hs H) as [Hs' _].
  by destruct o.
Qed.

Lemma reachable_on_coherent s : reachable_on E s → coherent E (cache s).
Proof.
  induction 1 as [|fuel filePath s _ IH].
  - intros key entry. unfold new_state. simpl. by rewrite lookup_empty.
  - by apply load_coherent.
Qed.

Lemma reachable_on_reachable s :
  reachable_on E s → reachable Root AtRule Rule ClassSelector MapObject s.
Proof. induction 1; by constructor. Qed.

(** Whatever the cache holds, [load] returns for a sheet the result that
    [_load] makes of it when nothing is cached. *)
Lemma load_uncached fuel filePath s r s' :
  reachable_on E s → load E fuel filePath s = (Ok r, s') →
  ∃ fuel', uncached E fuel' filePath = Ok r.
Proof.
  intros Hs%reachable_on_coherent (s1 & H & ->)%load_Ok_inv.
  destruct (_load_faithful fuel _ (set_loading true s) _ _ Hs H) as [_ Hr].
  by apply Hr.
Qed.
End Faithful.

(** ** Loading twice *)

Section Idempotence.
Context {Root AtRule Rule ClassSelector MapObject : Type}.
Context (E : Env Root AtRule Rule ClassSelector MapObject).

Lemma load_up_to_date fuel path r s :
  loading s = false →
  up_to_date E (cache s) path r →
  load E (S fuel) path s
  = (Ok r, mkState (cache s) false (stats (dependencies r) ++ EvStat path :: log s)).
Proof.
  intros Hs Hup. rewrite load_state by done. unfold finally.
  by rewrite (_load_up_to_date E fuel path r (set_loading true s) Hup).
Qed.


(** C10, as amended: when the entry of a sheet has the mtime the sheet
    has now, and a dependency listed in it is gone from the disk but has
    an entry of its own, and the dependencies listed before it are fresh,
    [load] fails with the error of [stat] on that dependency; the cache is
    left as it is and no file is read.  When the dependency has no entry
    of its own, [isCacheOutdated] answers [true] without calling [stat] on
    it, and [_load] goes on to load the sheet again. *)
Theorem deleted_dependency_fails_with_stat_error fuel filePath entry pre dep post s :
  loading s = false →
  cache s !! filePath = Some entry →
  stat E filePath = Some (mtime entry) →
  dependencies (result entry) = pre ++ dep :: post →
  Forall (fresh E (cache s)) pre →
  stat E dep = None →
  (∀ depEntry, cache s !! dep = Some depEntry →
     load E (S fuel) filePath s
     = (Err (StatError dep),
        mkState (cache s) false (EvStat dep :: stats pre ++ EvStat filePath :: log s))) ∧
  (cache s !! dep = None →
     isCacheOutdated E filePath s
     = (Ok true, mkState (cache s) (loading s) (stats pre ++ EvStat filePath :: log s))).
Proof.
  intros Hs Hentry Hstat Hdeps Hpre Hgone. split.
  - intros depEntry Hdep.
    rewrite load_state by done. unfold finally. simpl.
    by rewrite (bind_Err _ _ _ _ _
      (isCacheOutdated_deleted E filePath entry pre dep post depEntry
         (set_loading true s) Hentry Hstat Hdeps Hpre Hdep Hgone)).
  - intros Hdep. by eapply isCacheOutdated_no_entry.
Qed.
End Idempotence.


(** C10, as stated, fails: [a.scss] is cached with the dependency
    [_d.scss], which the transformer has reported and which has no cache
    entry of its own; after [_d.scss] is deleted, the next load finds the
    entry outdated, reads [a.scss] again and returns a result. *)
Lemma deleted_dependency_reloads :
  ∃ r s1 r' s2,
    load Fixture.a_uses_d 1 Fixture.a_scss new_state = (Ok r, s1) ∧
    dependencies r = [Fixture.d_scss] ∧
    stat Fixture.d_deleted Fixture.d_scss = None ∧
    load Fixture.d_deleted 1 Fixture.a_scss s1 = (Ok r', s2) ∧
    log s2 = [EvReadFile Fixture.a_scss; EvStat Fixture.a_scss; EvStat Fixture.a_scss] ++ log s1.
Proof.
  destruct (load Fixture.a_uses_d 1 Fixture.a_scss new_state) as [o s1] eqn:H1.
  destruct (load Fixture.d_deleted 1 Fixture.a_scss s1) as [o2 s2] eqn:H2.
  vm_compute in H1. inversion H1; subst o s1. clear H1.
  vm_compute in H2. inversion H2; subst o2 s2. clear H2.
  eexists _, _, _, _. repeat split; reflexivity.
Qed.

Section CyclicImports.
Context {Root AtRule Rule ClassSelector MapObject : Type}.
Context (E : Env Root AtRule Rule ClassSelector MapObject).



End CyclicImports.


(** ** The theorems at the fixtures *)

Section Witnesses.
Import Fixture.

(** [theme.css] takes [x] under its own name and [y] under the first alias
    listed for it; the locations are those of [values.css]. *)
Example theme_tokens :
  (load theme 2 theme_css new_state).1
  = Ok (mkLoadResult [values_css]
          [mkToken "x" None (mkLocation values_css 1 0);
           mkToken "z" (Some "y") (mkLocation values_css 2 0)]).
Proof. vm_compute. reflexivity. Qed.

(** [b.css] declares [.b] three times, twice at the same place: the two
    equal tokens are merged; the remote import leaves no trace. *)
Example a_tokens : (load a_imports_b 2 a_css new_state).1 = Ok a_result.
Proof. vm_compute. reflexivity. Qed.

(** With fuel for one sheet only, the load of [a.css] is still pending. *)
Example a_needs_fuel : (load a_imports_b 1 a_css new_state).1 = Pending.
Proof. vm_compute. reflexivity. Qed.



Lemma env_resolves_to_paths files sheets t :
  resolves_to_paths (resolver (env files sheets t)).
Proof.
  intros specifier request path.
  change (resolver (env files sheets t) specifier request)
    with (if startsWith specifier "/" then Some specifier else None).
  destruct (startsWith specifier "/") eqn:Hp; [|done].
  apply startsWith_iff in Hp as [rest ->]. by intros [= <-].
Defined.

Lemma a_loaded_eq : load a_imports_b 2 a_css new_state = (Ok a_result, a_loaded).
Proof. vm_compute. reflexivity. Defined.

Lemma a_loaded_up_to_date : up_to_date a_imports_b (cache a_loaded) a_css a_result.
Proof.
  split.
  - exists (mkCacheEntry 1 a_result). vm_compute. repeat split; reflexivity.
  - constructor; [|constructor].
    exists (mkCacheEntry 2 b_result). vm_compute. split; reflexivity.
Defined.


Lemma concurrent_load_guard_witness :
  load a_imports_b 2 a_css (set_loading true new_state)
  = (Err ConcurrentLoadError, set_loading true new_state) ∧
  loading a_loaded = false ∧
  (load a_imports_b 2 a_css a_loaded).1 ≠ Err ConcurrentLoadError ∧
  load self_import 1 b_css self_import_pending_state
  = (Err ConcurrentLoadError, self_import_pending_state).
Proof.
  destruct (concurrent_load_guard a_imports_b 2 a_css (set_loading true new_state))
    as [H1 _].
  destruct (concurrent_load_guard a_imports_b 2 a_css new_state) as [_ H2].
  destruct (concurrent_load_guard self_import 3 a_css new_state) as [_ H6].
  split; [by apply H1|].
  destruct (H2 eq_refl) as (_ & _ & H3).
  destruct (H3 (Ok a_result) a_loaded a_loaded_eq) as (H4 & _ & H5); [done|].
  split; [done|]. split; [apply H5|].
  destruct (H6 eq_refl) as (_ & H7 & _).
  apply (H7 self_import_pending_state). vm_compute. reflexivity.
Defined.




Lemma load_result_unique_witness :
  (a_css ∉ dependencies a_result) ∧ NoDup (dependencies a_result) ∧
  NoDup (tokens a_result).
Proof.
  destruct (load_result_unique a_imports_b 2 a_css new_state a_result a_loaded
              reachable_new a_loaded_eq) as (H1 & H2 & H3 & _).
  done.
Defined.

Lemma ignored_specifiers_are_skipped_witness :
  isIgnoredSpecifier "https://example.com/c.css" = true ∧
  for_atImports a_imports_b (_load a_imports_b 1) a_css
    [NImport (Some "https://example.com/c.css")] [b_css] []
  = for_atImports a_imports_b (_load a_imports_b 1) a_css [] [b_css] [] ∧
  isIgnoredSpecifier b_css = false ∧
  (∀ dep, dep ∈ dependencies a_result → isIgnoredSpecifier dep = false).
Proof.
  destruct (ignored_specifiers_are_skipped a_imports_b) as (H1 & H2 & H3 & H4).
  split; [|split; [|split]].
  - apply H1. right. by exists "example.com/c.css".
  - by apply (H2 (_load a_imports_b 1) a_css (NImport (Some "https://example.com/c.css"))
                [] [b_css] [] "https://example.com/c.css").
  - apply (H3 2 a_css new_state b_css a_css); [done|].
    rewrite a_loaded_eq. vm_compute. do 2 right. left.
  - intros dep. apply (H4 2 a_css new_state a_result a_loaded dep).
    + apply env_resolves_to_paths.
    + intros key entry dep' Hkey. unfold new_state in Hkey. simpl in Hkey.
      by rewrite lookup_empty in Hkey.
    + apply a_loaded_eq.
Defined.

Lemma theme_loaded_eq :
  _load theme 1 values_css theme_resolved = (Ok values_result, theme_loaded).
Proof. vm_compute. reflexivity. Defined.

Lemma value_import_token_fields_witness :
  ∃ emitted,
    for_atValues theme (_load theme 1) theme_css [theme_rule] [] [] new_state
    = for_atValues theme (_load theme 1) theme_css []
        ([] ++ values_css :: dependencies values_result) ([] ++ emitted) theme_loaded ∧
    ∀ t, t ∈ emitted →
      ∃ token i, token ∈ tokens values_result ∧
        i ∈ [x_as_x; y_as_z; y_as_w; missing_as_m] ∧
        importedTokenName i = name token ∧
        name t = localTokenName i ∧
        (is_Some (importedName t) ↔ localTokenName i ≠ importedTokenName i) ∧
        (∀ n, importedName t = Some n → n = importedTokenName i) ∧
        originalLocation t = originalLocation token.
Proof.
  apply (value_import_token_fields theme (_load theme 1) theme_css theme_rule
           [] [] [] new_state values_css [x_as_x; y_as_z; y_as_w; missing_as_m]
           values_css theme_resolved values_result theme_loaded
           eq_refl eq_refl eq_refl theme_loaded_eq).
Defined.

Lemma missing_imported_token_is_silent_witness :
  for_atValues theme (_load theme 1) theme_css [theme_rule] [] [] new_state
  = for_atValues theme (_load theme 1) theme_css []
      ([] ++ values_css :: dependencies values_result)
      (push_imported_tokens ([x_as_x; y_as_z; y_as_w] ++ [])
         (tokens values_result) []) theme_loaded.
Proof.
  refine (proj1 (missing_imported_token_is_silent theme (_load theme 1) theme_css
           theme_rule [] [] [] new_state values_css [x_as_x; y_as_z; y_as_w]
           missing_as_m [] values_css theme_resolved values_result theme_loaded
           eq_refl eq_refl eq_refl theme_loaded_eq _)).
  intros token Hin Hname.
  apply elem_of_cons in Hin as [->|Hin]; [discriminate|].
  apply elem_of_cons in Hin as [->|Hin]; [discriminate|].
  by apply elem_of_nil in Hin.
Defined.

Lemma first_alias_wins_witness :
  for_atValues theme (_load theme 1) theme_css [theme_rule] [] [] new_state
  = for_atValues theme (_load theme 1) theme_css []
      ([] ++ values_css :: dependencies values_result)
      (push_imported_tokens ([x_as_x] ++ y_as_z :: [] ++ [missing_as_m])
         (tokens values_result) []) theme_loaded ∧
  push_imported_tokens [x_as_x; y_as_z; y_as_w; missing_as_m] [y_token] []
  = [mkToken "z" (Some "y") (mkLocation values_css 2 0)].
Proof.
  destruct (first_alias_wins theme (_load theme 1) theme_css
              theme_rule [] [] [] new_state values_css [x_as_x] y_as_z [] y_as_w
              [missing_as_m] values_css theme_resolved values_result theme_loaded
              eq_refl eq_refl eq_refl theme_loaded_eq eq_refl) as [H1 H2].
  { constructor; [discriminate|constructor]. }
  split; [exact H1|].
  exact (H2 y_token [] [] eq_refl).
Defined.

Lemma transformer_false_as_unconfigured_witness :
  readCSS a_uses_d d_scss new_state
  = readCSS (set_transformer None a_uses_d) d_scss new_state ∧
  defaultTransformer inlining inlining "" a_css = TransformedFalse.
Proof.
  destruct (transformer_false_as_unconfigured a_uses_d inlining eq_refl)
    as (H1 & _ & H3).
  split.
  - by destruct (H1 d_scss ".d{}" new_state eq_refl eq_refl).
  - by apply H3.
Defined.

Lemma deleted_dependency_fails_with_stat_error_witness :
  load b_deleted 1 a_css a_loaded
  = (Err (StatError b_css),
     mkState (cache a_loaded) false
       (EvStat b_css :: stats [] ++ EvStat a_css :: log a_loaded)).
Proof.
  refine (proj1 (deleted_dependency_fails_with_stat_error b_deleted 0 a_css
           (mkCacheEntry 1 a_result) [] b_css [] a_loaded _ _ _ _ _ _)
           (mkCacheEntry 2 b_result) _).
  - vm_compute. reflexivity.
  - vm_compute. reflexivity.
  - reflexivity.
  - reflexivity.
  - constructor.
  - reflexivity.
  - vm_compute. reflexivity.
Defined.
End Witnesses.

(** ** How the state moves *)

Section StepsMonad.
Context (R : State → State → Prop) `{!Reflexive R} `{!Transitive R}.

Lemma steps_ret {A} (a : A) : steps R (ret a).
Proof. intros s o s' H. unfold ret in H. by inversion H. Qed.

Lemma steps_throw {A} e : steps R (@throw A e).
Proof. intros s o s' H. unfold throw in H. by inversion H. Qed.

Lemma steps_pending {A} : steps R (@pending A).
Proof. intros s o s' H. unfold pending in H. by inversion H. Qed.

Lemma steps_of_option {A} (o : option A) e : steps R (of_option o e).
Proof. destruct o; [apply steps_ret|apply steps_throw]. Qed.

Lemma steps_cache_get key : steps R (cache_get key).
Proof. intros s o s' H. unfold cache_get in H. by inversion H. Qed.

Lemma steps_bind {A B} (m : M A) (k : A → M B) :
  steps R m → (∀ a, steps R (k a)) → steps R (bind m k).
Proof.
  intros Hm Hk s o s' H. bind_inv H.
  - etrans; [by eapply Hm|by eapply Hk].
  - by eapply Hm.
  - by eapply Hm.
Qed.

Lemma steps_bind_Ok {A B} (m : M A) (k : A → M B) :
  steps R m →
  (∀ a s s1, m s = (Ok a, s1) → ∀ o s', k a s1 = (o, s') → R s1 s') →
  steps R (bind m k).
Proof.
  intros Hm Hk s o s' H. bind_inv H.
  - etrans; [by eapply Hm|by eapply Hk].
  - by eapply Hm.
  - by eapply Hm.
Qed.

Lemma steps_run {A} (m : M A) s : steps R m → R s (m s).2.
Proof. intros H. apply (H s (m s).1). by destruct (m s). Qed.
End StepsMonad.

Section StepsLoad.
Context {Root AtRule Rule ClassSelector MapObject : Type}.
Context (E : Env Root AtRule Rule ClassSelector MapObject).
Context (R : State → State → Prop) `{!Reflexive R} `{!Transitive R}.
Hypothesis R_record : ∀ e s, R s (mkState (cache s) (loading s) (e :: log s)).
Hypothesis R_store : ∀ key m r s0 s,
  (isCacheOutdated E key s0).1 = Ok true → stat E key = Some m → R s0 s →
  R s0 (mkState (<[key := mkCacheEntry m r]> (cache s)) (loading s) (log s)).

Lemma steps_record e : steps R (record e).
Proof. intros s o s' H. unfold record in H. inversion H. apply R_record. Qed.

Lemma steps_stat_mtime path : steps R (stat_mtime E path).
Proof.
  apply steps_bind; [done|apply steps_record|intros; apply steps_of_option; done].
Qed.

Lemma steps_read_file path : steps R (read_file E path).
Proof.
  apply steps_bind; [done|apply steps_record|intros; apply steps_of_option; done].
Qed.

Lemma steps_strict_resolver specifier request :
  steps R (strict_resolver E specifier request).
Proof.
  apply steps_bind; [done|apply steps_record|intros; apply steps_of_option; done].
Qed.

Lemma steps_isCacheOutdated_loop deps : steps R (isCacheOutdated_loop E deps).
Proof.
  induction deps as [|d deps IH]; simpl; [by apply steps_ret|].
  apply steps_bind; [done|by apply steps_cache_get|]. intros [entry|].
  - apply steps_bind; [done|apply steps_stat_mtime|]. intros m.
    case_bool_decide; [by apply steps_ret|apply IH].
  - by apply steps_ret.
Qed.

Lemma steps_isCacheOutdated filePath : steps R (isCacheOutdated E filePath).
Proof.
  apply steps_bind; [done|by apply steps_cache_get|]. intros [entry|].
  - apply steps_bind; [done|apply steps_stat_mtime|]. intros m.
    case_bool_decide; [by apply steps_ret|apply steps_isCacheOutdated_loop].
  - by apply steps_ret.
Qed.

Lemma steps_map_dependencies deps : steps R (map_dependencies deps).
Proof.
  induction deps as [|[dep|protocol pathname] deps IH]; simpl.
  - by apply steps_ret.
  - apply steps_bind; [done|apply IH|]. intros; by apply steps_ret.
  - case_bool_decide; [by apply steps_throw|].
    apply steps_bind; [done|apply IH|]. intros; by apply steps_ret.
Qed.

Lemma steps_readCSS filePath : steps R (readCSS E filePath).
Proof.
  apply steps_bind; [done|apply steps_read_file|]. intros css.
  destruct (transformer E) as [t|]; [|by apply steps_ret].
  destruct (t css filePath) as [r| |].
  - apply steps_bind; [done|apply steps_map_dependencies|].
    intros; by apply steps_ret.
  - by apply steps_ret.
  - by apply steps_throw.
Qed.

Lemma resolver_Ok specifier request s from s' :
  strict_resolver E specifier request s = (Ok from, s') →
  resolver E specifier request = Some from.
Proof.
  intros H. unfold strict_resolver in H. bind_inv H; try done.
  apply of_option_inv in H as [_ [(m' & Hm & [= ->])|[_ ?]]]; done.
Qed.

Lemma steps_for_atImports load filePath atImports deps toks :
  (∀ atImport from, atImport ∈ atImports →
     import_target E filePath atImport from → steps R (load from)) →
  steps R (for_atImports E load filePath atImports deps toks).
Proof.
  revert deps toks.
  induction atImports as [|atImport rest IH]; intros deps toks Hload; simpl.
  - by apply steps_ret.
  - assert (Hrest : ∀ deps toks, steps R (for_atImports E load filePath rest deps toks)).
    { intros deps' toks'. apply IH. intros a from Ha. apply Hload. by right. }
    destruct (parseAtImport E atImport) as [specifier|] eqn:Hparse; [|apply Hrest].
    case_bool_decide as Hempty; [apply Hrest|].
    destruct (isIgnoredSpecifier specifier) eqn:Hign; [apply Hrest|].
    apply steps_bind_Ok; [done|apply steps_strict_resolver|].
    intros from s s1 Hres%resolver_Ok.
    apply steps_bind; [done| |intros; apply Hrest].
    apply (Hload atImport); [by left|]. by exists specifier.
Qed.

Lemma steps_for_atValues load filePath atValues deps toks :
  (∀ atValue imports from, atValue ∈ atValues →
     value_import_target E filePath atValue imports from → steps R (load from)) →
  steps R (for_atValues E load filePath atValues deps toks).
Proof.
  revert deps toks.
  induction atValues as [|atValue rest IH]; intros deps toks Hload; simpl.
  - by apply steps_ret.
  - assert (Hrest : ∀ deps toks, steps R (for_atValues E load filePath rest deps toks)).
    { intros deps' toks'. apply IH. intros a imports from Ha. apply Hload. by right. }
    apply steps_bind_Ok; [done|by apply steps_of_option|].
    intros parsed s s1 Hparse.
    apply of_option_inv in Hparse as [-> [(? & Hparse & [= <-])|[_ ?]]]; [|done].
    destruct parsed as [tokenName|from_ imports]; [apply Hrest|].
    destruct (isIgnoredSpecifier from_) eqn:Hign; [apply Hrest|].
    apply steps_bind_Ok; [done|apply steps_strict_resolver|].
    intros from t t1 Hres%resolver_Ok.
    apply steps_bind; [done| |intros; apply Hrest].
    apply (Hload atValue imports); [by left|]. by exists from_.
Qed.

Lemma import_target_imported filePath s r s1 ast s2 atImport from :
  readCSS E filePath s = (Ok r, s1) →
  parse E (css r) filePath (map r) s1 = (Ok ast, s2) →
  atImport ∈ atImports (collectNodes E ast) →
  import_target E filePath atImport from →
  from ∈ imported_sheets E filePath.
Proof.
  intros Hread Hparse Hin (specifier & Hp & Hne & Hign & Hres).
  eapply elem_of_imported_sheets; try done.
  unfold import_specifiers. apply elem_of_app. left.
  apply list_elem_of_omap. exists atImport. split; [done|].
  rewrite Hp. by rewrite bool_decide_false.
Qed.

Lemma value_import_target_imported filePath s r s1 ast s2 atValue imports from :
  readCSS E filePath s = (Ok r, s1) →
  parse E (css r) filePath (map r) s1 = (Ok ast, s2) →
  atValue ∈ atValues (collectNodes E ast) →
  value_import_target E filePath atValue imports from →
  from ∈ imported_sheets E filePath.
Proof.
  intros Hread Hparse Hin (from_ & Hp & Hign & Hres).
  eapply elem_of_imported_sheets; try done.
  unfold import_specifiers. apply elem_of_app. right.
  apply list_elem_of_omap. exists atValue. split; [done|]. by rewrite Hp.
Qed.

(** What follows [readCSS] in the body of [_load]. *)
Lemma steps_load_sheet_read load filePath s :
  (∀ from, from ∈ imported_sheets E filePath → steps R (load from)) →
  R (readCSS E filePath s).2 (load_sheet E load filePath s).2.
Proof.
  intros Hload. unfold load_sheet.
  destruct (readCSS E filePath s) as [[r|e|] s1] eqn:Hr; simpl.
  - rewrite (bind_Ok _ _ _ _ _ Hr). apply steps_run.
    apply steps_bind_Ok; [done|by apply steps_of_option|].
    intros ast t t1 Hparse.
    assert (Hparse' : parse E (css r) filePath (map r) s1 = (Ok ast, s1)).
    { apply parse_inv in Hparse as [_ Hparse]. apply Hparse. }
    apply of_option_inv in Hparse as [-> _].
    apply steps_bind; [done|by apply steps_of_option|]. intros localTokenNames.
    apply steps_bind; [done| |].
    + apply steps_for_atImports. intros atImport from Hin Ht.
      apply Hload. by eapply import_target_imported.
    + intros imported. apply steps_for_atValues. intros atValue imports from Hin Ht.
      apply Hload. by eapply value_import_target_imported.
  - by rewrite (bind_Err _ _ _ _ _ Hr).
  - unfold bind. by rewrite Hr.
Qed.

Lemma steps_load_sheet load filePath :
  (∀ from, from ∈ imported_sheets E filePath → steps R (load from)) →
  steps R (load_sheet E load filePath).
Proof.
  intros Hload s o s' H.
  pose proof (steps_load_sheet_read load filePath s Hload) as Hrest.
  rewrite H in Hrest. etrans; [|exact Hrest].
  by apply (steps_run R (readCSS E filePath) s), steps_readCSS.
Qed.

Lemma stat_mtime_Ok path s m s' :
  stat_mtime E path s = (Ok m, s') → stat E path = Some m.
Proof.
  intros H. unfold stat_mtime in H. bind_inv H; try done.
  apply of_option_inv in H as [_ [(m' & Hm & [= ->])|[_ ?]]]; done.
Qed.

Lemma steps__load fuel filePath : steps R (_load E fuel filePath).
Proof.
  revert filePath. induction fuel as [|fuel IH]; intros filePath.
  { apply steps_pending. done. }
  intros s o s' H. simpl in H.
  destruct (isCacheOutdated E filePath s) as [outdated s1] eqn:Hout.
  assert (Hs1 : R s s1) by (by eapply steps_isCacheOutdated).
  unfold bind at 1 in H. rewrite Hout in H.
  destruct outdated as [[|]|e|]; simpl in H; try (by inversion H; subst).
  - destruct (stat_mtime E filePath s1) as [om s2] eqn:Hstat.
    assert (Hs2 : R s1 s2) by (by eapply steps_stat_mtime).
    unfold bind at 1 in H. rewrite Hstat in H.
    destruct om as [m|e|]; try (inversion H; subst; by etrans).
    apply stat_mtime_Ok in Hstat.
    destruct (load_sheet E (_load E fuel) filePath s2) as [oall s3] eqn:Hsheet.
    assert (Hs3 : R s2 s3) by (eapply steps_load_sheet; [intros from _; apply IH|done]).
    unfold bind at 1 in H. rewrite Hsheet in H.
    destruct oall as [all|e|]; try (inversion H; subst; by do 2 etrans).
    unfold bind, cache_set, ret in H. inversion H; subst.
    apply R_store; [by rewrite Hout|done|]. by do 2 (etrans; [done|]).
  - unfold bind, cache_get in H. destruct (cache s1 !! filePath); by inversion H; subst.
Qed.
End StepsLoad.


(** ** What a load keeps of the log and of the cache *)

#[global] Instance log_grows_refl : Reflexive log_grows.
Proof. intros s. by exists []. Qed.

#[global] Instance log_grows_trans : Transitive log_grows.
Proof.
  intros s1 s2 s3 [new1 H1] [new2 H2]. exists (new2 ++ new1).
  by rewrite H2, H1, app_assoc.
Qed.

Section Kept.
Context {Root AtRule Rule ClassSelector MapObject : Type}.
Context (E : Env Root AtRule Rule ClassSelector MapObject).

#[global] Instance cache_kept_refl : Reflexive (cache_kept E).
Proof. by intros s. Qed.

#[global] Instance cache_kept_trans : Transitive (cache_kept E).
Proof.
  intros s1 s2 s3 (Ha1 & Hb1 & Hc1) (Ha2 & Hb2 & Hc2). split; [|split].
  - intros k Hk. by apply Ha2, Ha1.
  - intros k Hk. by apply Hb2, Hb1.
  - intros path r Hup. by apply Hc2, Hc1.
Qed.

Lemma cache_kept_cache s1 s2 t1 t2 :
  cache t1 = cache s1 → cache t2 = cache s2 → cache_kept E s1 s2 → cache_kept E t1 t2.
Proof. unfold cache_kept. by intros -> ->. Qed.

Lemma _load_log_grows fuel filePath s : log_grows s (_load E fuel filePath s).2.
Proof.
  apply (steps__load E log_grows) with (fuel := fuel) (filePath := filePath)
    (o := (_load E fuel filePath s).1).
  - intros e t. by exists [e].
  - intros key m r s0 t _ _ Ht. done.
  - by destruct (_load E fuel filePath s).
Qed.

Lemma _load_cache_kept fuel filePath s : cache_kept E s (_load E fuel filePath s).2.
Proof.
  apply (steps__load E (cache_kept E)) with (fuel := fuel) (filePath := filePath)
    (o := (_load E fuel filePath s).1).
  - intros e t. done.
  - intros key m r s0 t Hout Hstat (Ha & Hb & Hc). split; [|split]; simpl.
    + intros k Hk. destruct (decide (key = k)) as [<-|Hne].
      * rewrite lookup_insert_eq. by eexists.
      * rewrite lookup_insert_ne by done. by apply Ha.
    + intros k Hk. apply fresh_insert; [done|by apply Hb].
    + intros path r' Hup.
      assert (Hne : key ≠ path).
      { intros <-. by rewrite (isCacheOutdated_up_to_date E key r' s0 Hup) in Hout. }
      destruct (Hc path r' Hup) as [(entry & He & Hm & Hr) Hdeps]. split.
      * exists entry. by rewrite lookup_insert_ne.
      * eapply Forall_impl; [exact Hdeps|]. intros k Hk. by apply fresh_insert.
  - by destruct (_load E fuel filePath s).
Qed.

(** The state that [load] leaves is the one of [_load], the flag apart. *)
Lemma load_cache_log fuel filePath s :
  loading s = false →
  cache (load E fuel filePath s).2 = cache (_load E fuel filePath (set_loading true s)).2 ∧
  log (load E fuel filePath s).2 = log (_load E fuel filePath (set_loading true s)).2.
Proof.
  intros Hs. unfold load, finally. rewrite Hs.
  by destruct (_load E fuel filePath (set_loading true s)) as [[r|e|] s1].
Qed.

Lemma load_settled_loading fuel filePath s o s' :
  loading s = false → load E fuel filePath s = (o, s') → o ≠ Pending →
  loading s' = false.
Proof.
  intros Hs H Ho. unfold load, finally in H. rewrite Hs in H.
  destruct (_load E fuel filePath (set_loading true s)) as [[r|e|] s1];
    inversion H; by subst.
Qed.

(** X7: whichever sheet is loaded and however the load ends, no cache entry
    is removed, every entry that holds the mtime its file has now still
    does, and every entry that is up to date stays up to date with the
    result it holds. *)
Theorem load_keeps_cache fuel filePath s :
  (∀ k, is_Some (cache s !! k) → is_Some (cache (load E fuel filePath s).2 !! k)) ∧
  (∀ k, fresh E (cache s) k → fresh E (cache (load E fuel filePath s).2) k) ∧
  (∀ path r, up_to_date E (cache s) path r →
     up_to_date E (cache (load E fuel filePath s).2) path r).
Proof.
  change (cache_kept E s (load E fuel filePath s).2).
  destruct (loading s) eqn:Hs.
  - unfold load. by rewrite Hs.
  - destruct (load_cache_log fuel filePath s Hs) as [Hc _].
    eapply cache_kept_cache; [| |apply (_load_cache_kept fuel filePath (set_loading true s))];
      done.
Qed.

(** X8: a result that the cache holds up to date is served again after any
    other load has settled, with its value or with an error: the next load
    of that sheet returns it, and calls [stat] only. *)
Theorem cached_result_survives fuel other s o s' filePath r fuel' :
  loading s = false →
  up_to_date E (cache s) filePath r →
  load E fuel other s = (o, s') → o ≠ Pending →
  load E (S fuel') filePath s'
  = (Ok r, mkState (cache s') false
             (stats (dependencies r) ++ EvStat filePath :: log s')).
Proof.
  intros Hs Hup H Ho. apply load_up_to_date.
  - by eapply load_settled_loading.
  - destruct (load_cache_log fuel other s Hs) as [Hc _]. rewrite H in Hc.
    destruct (_load_cache_kept fuel other (set_loading true s)) as (_ & _ & Hk).
    simpl in Hc. rewrite Hc. by apply Hk.
Qed.
End Kept.

(** ** The errors of a load *)

Section RaisesMonad.
Context (P : Error → Prop).

Lemma raises_ret {A} (a : A) : raises P (ret a).
Proof. intros s e s' H. unfold ret in H. by inversion H. Qed.

Lemma raises_throw {A} e : P e → raises P (@throw A e).
Proof. intros He s e' s' H. unfold throw in H. by inversion H; subst. Qed.

Lemma raises_pending {A} : raises P (@pending A).
Proof. intros s e s' H. unfold pending in H. by inversion H. Qed.

Lemma raises_of_option {A} (o : option A) e :
  (o = None → P e) → raises P (of_option o e).
Proof. destruct o; [intros; apply raises_ret|intros He; by apply raises_throw, He]. Qed.

Lemma raises_cache_get key : raises P (cache_get key).
Proof. intros s e s' H. unfold cache_get in H. by inversion H. Qed.

Lemma raises_record ev : raises P (record ev).
Proof. intros s e s' H. unfold record in H. by inversion H. Qed.

Lemma raises_bind_Ok {A B} (m : M A) (k : A → M B) :
  raises P m →
  (∀ a s s1, m s = (Ok a, s1) → ∀ e s', k a s1 = (Err e, s') → P e) →
  raises P (bind m k).
Proof.
  intros Hm Hk s e s' H. bind_inv H.
  - by eapply Hk.
  - inversion H; subst. by eapply Hm.
  - done.
Qed.

Lemma raises_bind {A B} (m : M A) (k : A → M B) :
  raises P m → (∀ a, raises P (k a)) → raises P (bind m k).
Proof.
  intros Hm Hk. apply raises_bind_Ok; [done|]. intros a _ s1 _ e s'. apply Hk.
Qed.
End RaisesMonad.

Section Errors.
Context {Root AtRule Rule ClassSelector MapObject : Type}.
Context (E : Env Root AtRule Rule ClassSelector MapObject).

Lemma read_file_Ok path s source s' :
  read_file E path s = (Ok source, s') → readFile E path = Some source.
Proof.
  intros H. unfold read_file in H. bind_inv H; try done.
  apply of_option_inv in H as [_ [(m' & Hm & [= ->])|[_ ?]]]; done.
Qed.

Lemma raises_stat_mtime path : raises (justified E) (stat_mtime E path).
Proof.
  apply raises_bind; [apply raises_record|]. intros _.
  by apply raises_of_option.
Qed.

Lemma raises_read_file path : raises (justified E) (read_file E path).
Proof.
  apply raises_bind; [apply raises_record|]. intros _.
  by apply raises_of_option.
Qed.

Lemma raises_strict_resolver specifier request :
  isIgnoredSpecifier specifier = false →
  raises (justified E) (strict_resolver E specifier request).
Proof.
  intros Hign. apply raises_bind; [apply raises_record|]. intros _.
  by apply raises_of_option.
Qed.

Lemma raises_isCacheOutdated_loop deps :
  raises (justified E) (isCacheOutdated_loop E deps).
Proof.
  induction deps as [|d deps IH]; simpl; [apply raises_ret|].
  apply raises_bind; [apply raises_cache_get|]. intros [entry|].
  - apply raises_bind; [apply raises_stat_mtime|]. intros m.
    case_bool_decide; [apply raises_ret|apply IH].
  - apply raises_ret.
Qed.

Lemma raises_isCacheOutdated filePath :
  raises (justified E) (isCacheOutdated E filePath).
Proof.
  apply raises_bind; [apply raises_cache_get|]. intros [entry|].
  - apply raises_bind; [apply raises_stat_mtime|]. intros m.
    case_bool_decide; [apply raises_ret|apply raises_isCacheOutdated_loop].
  - apply raises_ret.
Qed.

Lemma raises_map_dependencies deps :
  raises (λ e, ∃ protocol pathname, e = UnsupportedProtocol protocol ∧
                 protocol ≠ "file:" ∧ DepURL protocol pathname ∈ deps)
         (map_dependencies deps).
Proof.
  induction deps as [|[dep|protocol pathname] deps IH]; simpl.
  - apply raises_ret.
  - apply raises_bind; [|intros; apply raises_ret].
    intros s e s' (protocol & pathname & -> & Hne & Hin)%IH.
    exists protocol, pathname. repeat split; try done. by right.
  - case_bool_decide as Hp.
    + apply raises_throw. exists protocol, pathname. repeat split; try done. by left.
    + apply raises_bind; [|intros; apply raises_ret].
      intros s e s' (protocol' & pathname' & -> & Hne & Hin)%IH.
      exists protocol', pathname'. repeat split; try done. by right.
Qed.

Lemma raises_readCSS filePath : raises (justified E) (readCSS E filePath).
Proof.
  apply raises_bind_Ok; [apply raises_read_file|].
  intros source s s1 Hread%read_file_Ok.
  destruct (transformer E) as [t|] eqn:Ht; [|apply raises_ret].
  destruct (t source filePath) as [r| |] eqn:Hr.
  - apply raises_bind; [|intros; apply raises_ret].
    intros s2 e s2' (protocol & pathname & -> & Hne & Hin)%raises_map_dependencies.
    split; [done|]. by exists t, source, filePath, r, pathname.
  - apply raises_ret.
  - apply raises_throw. by exists t, source.
Qed.

Lemma raises_parse css filePath map : raises (justified E) (parse E css filePath map).
Proof. apply raises_of_option. intros H. simpl. eauto. Qed.

Lemma raises_for_atImports load filePath atImports deps toks :
  (∀ p, raises (justified E) (load p)) →
  raises (justified E) (for_atImports E load filePath atImports deps toks).
Proof.
  intros Hload. revert deps toks.
  induction atImports as [|atImport rest IH]; intros deps toks; simpl.
  - apply raises_ret.
  - destruct (parseAtImport E atImport) as [specifier|]; [|apply IH].
    case_bool_decide; [apply IH|].
    destruct (isIgnoredSpecifier specifier) eqn:Hign; [apply IH|].
    apply raises_bind; [by apply raises_strict_resolver|]. intros from.
    apply raises_bind; [apply Hload|]. intros result. apply IH.
Qed.

Lemma raises_for_atValues load filePath atValues deps toks :
  (∀ p, raises (justified E) (load p)) →
  raises (justified E) (for_atValues E load filePath atValues deps toks).
Proof.
  intros Hload. revert deps toks.
  induction atValues as [|atValue rest IH]; intros deps toks; simpl.
  - apply raises_ret.
  - apply raises_bind.
    { apply raises_of_option. intros H. right. eauto. }
    intros [tokenName|from_ imports]; [apply IH|].
    destruct (isIgnoredSpecifier from_) eqn:Hign; [apply IH|].
    apply raises_bind; [by apply raises_strict_resolver|]. intros from.
    apply raises_bind; [apply Hload|]. intros result. apply IH.
Qed.

Lemma raises_load_sheet load filePath :
  (∀ p, raises (justified E) (load p)) →
  raises (justified E) (load_sheet E load filePath).
Proof.
  intros Hload.
  apply raises_bind; [apply raises_readCSS|]. intros r.
  apply raises_bind; [apply raises_parse|]. intros ast.
  apply raises_bind.
  { apply raises_of_option. intros H. left. eauto. }
  intros localTokenNames.
  apply raises_bind; [by apply raises_for_atImports|]. intros imported.
  by apply raises_for_atValues.
Qed.

Lemma raises__load fuel filePath : raises (justified E) (_load E fuel filePath).
Proof.
  revert filePath. induction fuel as [|fuel IH]; intros filePath; simpl.
  - apply raises_pending.
  - apply raises_bind_Ok; [apply raises_isCacheOutdated|].
    intros [|] s s1 Hout; simpl.
    + apply raises_bind; [apply raises_stat_mtime|]. intros m.
      apply raises_bind; [by apply raises_load_sheet|]. intros all.
      apply raises_bind; [|intros; apply raises_ret].
      intros t e t' H. unfold cache_set in H. by inversion H.
    + intros e s' H.
      pose proof (isCacheOutdated_cache E _ _ _ _ Hout) as Hc.
      apply isCacheOutdated_false in Hout as (entry & Hentry & _).
      unfold bind, cache_get in H. rewrite Hc, Hentry in H. by inversion H.
Qed.

(** X5: an error that [load] throws is the one of the guard, thrown when a
    load is under way, or has its cause on the disk or in a collaborator:
    a [stat] or a [readFile] that rejects, a specifier that the resolver
    does not resolve, a transformer that rejects or reports a [URL] that
    is not a [file:] one, a sheet that does not parse.  The non-null
    assertion on the cache entry never fails. *)
Theorem load_errors_are_justified fuel filePath s e s' :
  load E fuel filePath s = (Err e, s') →
  (e = ConcurrentLoadError ∧ loading s = true ∧ s' = s) ∨
  (loading s = false ∧ e ≠ TypeError ∧ justified E e).
Proof.
  intros H. unfold load in H. destruct (loading s) eqn:Hs.
  - left. by inversion H.
  - right. split; [done|]. unfold finally in H.
    destruct (_load E fuel filePath (set_loading true s)) as [[r|e'|] s1] eqn:Hl;
      inversion H; subst.
    apply raises__load in Hl. split; [|done]. by intros ->.
Qed.
End Errors.

(** ** The cache check and the reload *)

Section Outdated.
Context {Root AtRule Rule ClassSelector MapObject : Type}.
Context (E : Env Root AtRule Rule ClassSelector MapObject).

Lemma stat_events (new : list Event) :
  Forall (λ e, is_read e = false ∧ ∀ sp, is_resolve_of sp e = false) new →
  ∃ paths, new = EvStat <$> paths.
Proof.
  induction 1 as [|e new [Hr Hs] _ [paths ->]]; [by exists []|].
  destruct e as [p|p|sp rq]; [by exists (p :: paths)|done|].
  specialize (Hs sp). simpl in Hs. by rewrite bool_decide_true in Hs.
Qed.

Lemma stats_fmap (deps : list string) : stats deps = EvStat <$> rev deps.
Proof.
  unfold stats. induction deps as [|d deps IH]; [done|].
  rewrite fmap_cons. change (rev (EvStat d :: (EvStat <$> deps)))
    with (rev (EvStat <$> deps) ++ [EvStat d]).
  rewrite IH. change (rev (d :: deps)) with (rev deps ++ [d]).
  by rewrite fmap_app.
Qed.

Lemma isCacheOutdated_raises filePath :
  raises (λ e, ∃ path, e = StatError path ∧ stat E path = None)
         (isCacheOutdated E filePath).
Proof.
  set (P := λ e, ∃ path, e = StatError path ∧ stat E path = None).
  assert (Hstat : ∀ path, raises P (stat_mtime E path)).
  { intros path. apply raises_bind; [apply raises_record|]. intros _.
    apply raises_of_option. intros H. by exists path. }
  assert (Hloop : ∀ deps, raises P (isCacheOutdated_loop E deps)).
  { induction deps as [|d deps IH]; simpl; [apply raises_ret|].
    apply raises_bind; [apply raises_cache_get|]. intros [entry|].
    - apply raises_bind; [apply Hstat|]. intros m.
      case_bool_decide; [apply raises_ret|apply IH].
    - apply raises_ret. }
  apply raises_bind; [apply raises_cache_get|]. intros [entry|].
  - apply raises_bind; [apply Hstat|]. intros m.
    case_bool_decide; [apply raises_ret|apply Hloop].
  - apply raises_ret.
Qed.

(** X1: [isCacheOutdated] answers [false] exactly when the entry of the
    sheet and the entries of the dependencies it lists all hold the mtime
    their file has now; it answers [true] for a sheet without entry
    without a call to [stat]; the only error it throws is the one of a
    [stat] that rejects; and it leaves the cache as it is, calling
    [stat] only. *)
Theorem isCacheOutdated_spec filePath s :
  ((isCacheOutdated E filePath s).1 = Ok false ↔
     ∃ r, up_to_date E (cache s) filePath r) ∧
  (cache s !! filePath = None → isCacheOutdated E filePath s = (Ok true, s)) ∧
  (∀ e, (isCacheOutdated E filePath s).1 = Err e →
     ∃ path, e = StatError path ∧ stat E path = None) ∧
  (isCacheOutdated E filePath s).1 ≠ Pending ∧
  ∃ paths, (isCacheOutdated E filePath s).2
           = mkState (cache s) (loading s) ((EvStat <$> paths) ++ log s).
Proof.
  split; [|split; [|split; [|split]]].
  - split.
    + destruct (isCacheOutdated E filePath s) as [o s'] eqn:H. simpl. intros ->.
      apply isCacheOutdated_false in H as (entry & _ & Hup). eauto.
    + intros [r Hup]. by rewrite (isCacheOutdated_up_to_date E filePath r s Hup).
  - apply isCacheOutdated_missing.
  - intros e He. destruct (isCacheOutdated E filePath s) as [o s'] eqn:H.
    simpl in He. subst o. by eapply isCacheOutdated_raises.
  - apply settles_isCacheOutdated.
  - destruct (isCacheOutdated_state E filePath s) as (new & Hs & Hnew).
    apply stat_events in Hnew as [paths ->]. eauto.
Qed.

(** The changes that make an entry outdated. *)
Lemma isCacheOutdated_changed filePath entry m s :
  cache s !! filePath = Some entry → stat E filePath = Some m → m ≠ mtime entry →
  isCacheOutdated E filePath s
  = (Ok true, mkState (cache s) (loading s) (EvStat filePath :: log s)).
Proof.
  intros Hentry Hstat Hne. unfold isCacheOutdated.
  rewrite (bind_Ok _ _ s (Some entry) s) by (unfold cache_get; by rewrite Hentry).
  rewrite (bind_Ok _ _ _ _ _ (stat_mtime_Some E filePath m s Hstat)).
  rewrite bool_decide_true; [done|]. by intros Heq.
Qed.

Lemma isCacheOutdated_dependency_changed filePath entry pre dep post depEntry m s :
  cache s !! filePath = Some entry →
  stat E filePath = Some (mtime entry) →
  dependencies (result entry) = pre ++ dep :: post →
  Forall (fresh E (cache s)) pre →
  cache s !! dep = Some depEntry → stat E dep = Some m → m ≠ mtime depEntry →
  isCacheOutdated E filePath s
  = (Ok true,
     mkState (cache s) (loading s) (EvStat dep :: stats pre ++ EvStat filePath :: log s)).
Proof.
  intros Hentry Hstat Hdeps Hpre HdepEntry Hdep Hne. unfold isCacheOutdated.
  rewrite (bind_Ok _ _ s (Some entry) s) by (unfold cache_get; by rewrite Hentry).
  rewrite (bind_Ok _ _ _ _ _ (stat_mtime_Some E filePath _ s Hstat)).
  rewrite bool_decide_false by (by intros H; apply H).
  rewrite Hdeps, isCacheOutdated_loop_fresh by done.
  simpl. unfold bind at 1, cache_get at 1. simpl. rewrite HdepEntry.
  rewrite (bind_Ok _ _ _ _ _ (stat_mtime_Some E dep m _ Hdep)).
  rewrite bool_decide_true; [done|]. by intros Heq.
Qed.

Lemma readCSS_state filePath s :
  (readCSS E filePath s).2 = mkState (cache s) (loading s) (EvReadFile filePath :: log s).
Proof.
  assert (Hmap : ∀ deps t, (map_dependencies deps t).2 = t).
  { induction deps as [|[dep|protocol pathname] deps IH]; intros t; simpl; [done| |].
    - unfold bind. specialize (IH t).
      by destruct (map_dependencies deps t) as [[l|e|] t'].
    - case_bool_decide; [done|]. unfold bind. specialize (IH t).
      by destruct (map_dependencies deps t) as [[l|e|] t']. }
  unfold readCSS, read_file, bind at 1, bind at 1, record.
  destruct (readFile E filePath) as [source|]; simpl; [|done].
  destruct (transformer E) as [t|]; [|done].
  destruct (t source filePath) as [r| |]; [|done|done].
  unfold bind. specialize (Hmap (tr_dependencies r)
    (mkState (cache s) (loading s) (EvReadFile filePath :: log s))).
  by destruct (map_dependencies (tr_dependencies r) _) as [[l|e|] t'].
Qed.

(** A sheet that is outdated and still on the disk is read. *)
Lemma _load_outdated_reads fuel filePath s s1 m :
  isCacheOutdated E filePath s = (Ok true, s1) → stat E filePath = Some m →
  ∃ new, log (_load E (S fuel) filePath s).2
         = new ++ EvReadFile filePath :: EvStat filePath :: log s1.
Proof.
  intros Hout Hstat. simpl.
  rewrite (bind_Ok _ _ _ _ _ Hout). simpl.
  rewrite (bind_Ok _ _ _ _ _ (stat_mtime_Some E filePath m s1 Hstat)).
  set (s2 := mkState _ _ _).
  assert (Hsheet : ∃ new, log (load_sheet E (_load E fuel) filePath s2).2
                           = new ++ EvReadFile filePath :: log s2).
  { pose proof (steps_load_sheet_read E log_grows) as Hread.
    destruct (Hread (λ e t, ex_intro _ [e] eq_refl) (_load E fuel) filePath s2)
      as [new Hnew].
    - intros p _. intros t o t' Ht. pose proof (_load_log_grows E fuel p t) as Hg.
      by rewrite Ht in Hg.
    - exists new. by rewrite Hnew, readCSS_state. }
  destruct Hsheet as [new Hnew].
  destruct (load_sheet E (_load E fuel) filePath s2) as [[all|e|] s3] eqn:Hs;
    simpl in Hnew.
  - rewrite (bind_Ok _ _ _ _ _ Hs). exists new. by rewrite <- Hnew.
  - rewrite (bind_Err _ _ _ _ _ Hs). exists new. by rewrite <- Hnew.
  - unfold bind at 1. rewrite Hs. exists new. by rewrite <- Hnew.
Qed.

(** X2: an entry is outdated when the mtime of its file has changed, or
    the mtime of a dependency it lists, or when a dependency it lists has
    no entry of its own; the next [load] of the sheet then calls [stat]
    and [readFile] on it again, whatever the entry holds. *)
Theorem stale_entry_is_reloaded fuel filePath entry s :
  loading s = false →
  cache s !! filePath = Some entry →
  (∃ m, stat E filePath = Some m ∧ m ≠ mtime entry) ∨
  (stat E filePath = Some (mtime entry) ∧
   ∃ pre dep post depEntry m,
     dependencies (result entry) = pre ++ dep :: post ∧
     Forall (fresh E (cache s)) pre ∧
     cache s !! dep = Some depEntry ∧ stat E dep = Some m ∧ m ≠ mtime depEntry) ∨
  (stat E filePath = Some (mtime entry) ∧
   ∃ pre dep post,
     dependencies (result entry) = pre ++ dep :: post ∧
     Forall (fresh E (cache s)) pre ∧ cache s !! dep = None) →
  (isCacheOutdated E filePath s).1 = Ok true ∧
  ∃ newer older,
    log (load E (S fuel) filePath s).2
    = newer ++ EvReadFile filePath :: EvStat filePath :: (EvStat <$> older) ++ log s.
Proof.
  intros Hs Hentry Hstale.
  destruct (load_cache_log E (S fuel) filePath s Hs) as [_ ->].
  assert (∃ m older, stat E filePath = Some m ∧
            isCacheOutdated E filePath (set_loading true s)
            = (Ok true, mkState (cache s) true ((EvStat <$> older) ++ log s)) ∧
            (isCacheOutdated E filePath s).1 = Ok true)
    as (m & older & Hstat & Hout & Hout').
  { destruct Hstale as [(m & Hstat & Hne)|[(Hstat & pre & dep & post & depEntry & m &
                                            Hdeps & Hpre & HdepEntry & Hdep & Hne)|
                                           (Hstat & pre & dep & post & Hdeps & Hpre & Hdep)]].
    - exists m, [filePath]. split; [done|].
      rewrite !(isCacheOutdated_changed filePath entry m) by done. done.
    - exists (mtime entry), (dep :: rev pre ++ [filePath]). split; [done|].
      rewrite !(isCacheOutdated_dependency_changed filePath entry pre dep post depEntry m)
        by done.
      split; [|done]. simpl.
      by rewrite stats_fmap, fmap_app, <- !app_assoc.
    - exists (mtime entry), (rev pre ++ [filePath]). split; [done|].
      rewrite !(isCacheOutdated_no_entry E filePath entry pre dep post) by done.
      split; [|done]. simpl.
      by rewrite stats_fmap, fmap_app, <- !app_assoc. }
  split; [done|].
  destruct (_load_outdated_reads fuel filePath _ _ m Hout Hstat) as [new Hnew].
  exists new, older. by rewrite Hnew.
Qed.

Lemma _load_missing_file fuel filePath s :
  stat E filePath = None →
  _load E (S fuel) filePath s
  = (Err (StatError filePath),
     mkState (cache s) (loading s) (EvStat filePath :: log s)).
Proof.
  intros Hstat. destruct (cache s !! filePath) as [entry|] eqn:Hentry.
  - assert (Hout : isCacheOutdated E filePath s
                   = (Err (StatError filePath),
                      mkState (cache s) (loading s) (EvStat filePath :: log s))).
    { unfold isCacheOutdated. unfold bind at 1, cache_get at 1. rewrite Hentry.
      by rewrite (bind_Err _ _ _ _ _ (stat_mtime_None E filePath s Hstat)). }
    simpl. by rewrite (bind_Err _ _ _ _ _ Hout).
  - simpl. rewrite (bind_Ok _ _ _ _ _ (isCacheOutdated_missing E filePath s Hentry)).
    simpl. by rewrite (bind_Err _ _ _ _ _ (stat_mtime_None E filePath s Hstat)).
Qed.

(** X3: loading a sheet that is not on the disk fails with the error of
    [stat], whether the cache holds an entry for it or not; the file is not
    read and the cache stays as it is. *)
Theorem missing_file_fails_with_stat_error fuel filePath s :
  loading s = false → stat E filePath = None →
  load E (S fuel) filePath s
  = (Err (StatError filePath), mkState (cache s) false (EvStat filePath :: log s)).
Proof.
  intros Hs Hstat. rewrite load_state by done. unfold finally.
  by rewrite _load_missing_file.
Qed.

(** X6: when [load] returns a result, the cache holds that result under
    the path of the sheet, with the mtime the file has now. *)
Theorem load_stores_result fuel filePath s r s' :
  load E fuel filePath s = (Ok r, s') →
  ∃ entry, cache s' !! filePath = Some entry ∧ result entry = r ∧
           stat E filePath = Some (mtime entry).
Proof.
  intros (s1 & H & ->)%load_Ok_inv. simpl.
  destruct fuel as [|fuel]; [done|].
  apply _load_Ok_inv in H as [(entry & Hout & Hentry & ->)|
                              (t1 & m & t2 & all & t3 & _ & Hstat & _ & -> & ->)].
  - pose proof (isCacheOutdated_cache E _ _ _ _ Hout) as Hc.
    apply isCacheOutdated_false in Hout as (entry' & Hentry' & (e2 & He2 & Hm & Hr) & _).
    rewrite Hc in Hentry. rewrite Hentry in Hentry', He2.
    injection Hentry' as <-. injection He2 as <-.
    exists entry. by rewrite Hc.
  - simpl. rewrite lookup_insert_eq. eexists. split; [done|]. split; [done|].
    simpl. by eapply stat_mtime_Ok.
Qed.
End Outdated.

(** ** The dependencies that the transformer reports *)

Section Dependencies.
Context {Root AtRule Rule ClassSelector MapObject : Type}.
Context (E : Env Root AtRule Rule ClassSelector MapObject).

Lemma map_dependencies_supported deps s :
  Forall supported deps →
  map_dependencies deps s = (Ok (dependency_path <$> deps), s).
Proof.
  induction 1 as [|[dep|protocol pathname] deps Hd _ IH]; simpl; [done| |].
  - by rewrite (bind_Ok _ _ _ _ _ IH).
  - simpl in Hd. rewrite bool_decide_false by (by intros H; apply H).
    by rewrite (bind_Ok _ _ _ _ _ IH).
Qed.

Lemma map_dependencies_unsupported pre protocol pathname post s :
  Forall supported pre → protocol ≠ "file:" →
  map_dependencies (pre ++ DepURL protocol pathname :: post) s
  = (Err (UnsupportedProtocol protocol), s).
Proof.
  intros Hpre Hne.
  induction Hpre as [|[dep|protocol' pathname'] pre Hd _ IH]; simpl.
  - by rewrite bool_decide_true.
  - by rewrite (bind_Err _ _ _ _ _ IH).
  - simpl in Hd. rewrite bool_decide_false by (by intros H; apply H).
    by rewrite (bind_Err _ _ _ _ _ IH).
Qed.

Lemma read_file_Some path source s :
  readFile E path = Some source →
  read_file E path s
  = (Ok source, mkState (cache s) (loading s) (EvReadFile path :: log s)).
Proof. intros H. unfold read_file, bind, record. by rewrite H. Qed.

(** X4: of what the transformer reports as dependencies, [readCSS] keeps
    the strings and the pathnames of the [file:] URLs, in their order,
    without those that start with [http://] or [https://]; at the first
    URL of another protocol it throws, with that protocol, and the [load]
    of a sheet that is not cached fails with that error and stores
    nothing. *)
Theorem readCSS_dependencies t filePath source r s :
  transformer E = Some t →
  readFile E filePath = Some source →
  t source filePath = Transformed r →
  (Forall supported (tr_dependencies r) →
   readCSS E filePath s
   = (Ok (mkReadCSS (tr_css r) (tr_map r)
            (filter (λ dep, isIgnoredSpecifier dep = false)
                    (dependency_path <$> tr_dependencies r))),
      mkState (cache s) (loading s) (EvReadFile filePath :: log s))) ∧
  (∀ pre protocol pathname post,
     tr_dependencies r = pre ++ DepURL protocol pathname :: post →
     Forall supported pre → protocol ≠ "file:" →
     readCSS E filePath s
     = (Err (UnsupportedProtocol protocol),
        mkState (cache s) (loading s) (EvReadFile filePath :: log s)) ∧
     ∀ fuel m,
       loading s = false → cache s !! filePath = None → stat E filePath = Some m →
       load E (S fuel) filePath s
       = (Err (UnsupportedProtocol protocol),
          mkState (cache s) false (EvReadFile filePath :: EvStat filePath :: log s))).
Proof.
  intros Ht Hread Hr. split.
  - intros Hsup. unfold readCSS.
    rewrite (bind_Ok _ _ _ _ _ (read_file_Some filePath source s Hread)).
    rewrite Ht, Hr.
    by rewrite (bind_Ok _ _ _ _ _ (map_dependencies_supported _ _ Hsup)).
  - intros pre protocol pathname post Hdeps Hpre Hne.
    assert (Hcss : ∀ s0, readCSS E filePath s0
              = (Err (UnsupportedProtocol protocol),
                 mkState (cache s0) (loading s0) (EvReadFile filePath :: log s0))).
    { intros s0. unfold readCSS.
      rewrite (bind_Ok _ _ _ _ _ (read_file_Some filePath source s0 Hread)).
      rewrite Ht, Hr, Hdeps.
      by rewrite (bind_Err _ _ _ _ _ (map_dependencies_unsupported _ _ _ _ _ Hpre Hne)). }
    split; [apply Hcss|].
    intros fuel m Hs Hentry Hstat. rewrite load_state by done. unfold finally.
    assert (_load E (S fuel) filePath (set_loading true s)
            = (Err (UnsupportedProtocol protocol),
               mkState (cache s) true (EvReadFile filePath :: EvStat filePath :: log s)))
      as ->; [|done].
    generalize (set_loading true s), (eq_refl : cache (set_loading true s) = cache s),
      (eq_refl : loading (set_loading true s) = true),
      (eq_refl : log (set_loading true s) = log s).
    intros s0 Hc Hl Hlog. simpl.
    rewrite (bind_Ok _ _ _ _ _ (isCacheOutdated_missing E filePath s0
               ltac:(by rewrite Hc))). simpl.
    rewrite (bind_Ok _ _ _ _ _ (stat_mtime_Some E filePath m s0 Hstat)).
    unfold load_sheet.
    rewrite (bind_Err _ _ _ _ _ (bind_Err _ _ _ _ _ (Hcss _))). simpl.
    by rewrite Hc, Hl, Hlog.
Qed.
End Dependencies.

(** ** What a result is made of *)

Lemma elem_of_uniqueBy_aux_inj {A K : Type} `{EqDecision K} (fn : A → K)
    `{!Inj (=) (=) fn} keys arr x :
  x ∈ arr → fn x ∉ keys → x ∈ uniqueBy_aux fn keys arr.
Proof.
  revert keys. induction arr as [|el arr IH]; intros keys Hx Hk.
  { by apply elem_of_nil in Hx. }
  simpl. destruct (decide (fn el ∈ keys)) as [Hel|Hel].
  - apply elem_of_cons in Hx as [->|Hx]; [done|by apply IH].
  - destruct (decide (fn x = fn el)) as [Heq|Hne].
    + apply (inj fn) in Heq as ->. by left.
    + apply elem_of_cons in Hx as [->|Hx]; [done|].
      right. apply IH; [done|]. intros [?|?]%elem_of_cons; done.
Qed.

Lemma elem_of_uniqueBy_inj {A K : Type} `{EqDecision K} (fn : A → K)
    `{!Inj (=) (=) fn} arr x :
  x ∈ uniqueBy arr fn ↔ x ∈ arr.
Proof.
  split.
  - by intros [? _]%elem_of_uniqueBy_aux.
  - intros Hx. apply elem_of_uniqueBy_aux_inj; [done|done|]. apply not_elem_of_nil.
Qed.

Lemma elem_of_make_result_dependencies filePath all d :
  d ∈ dependencies (make_result filePath all) ↔ d ≠ filePath ∧ d ∈ all.1.
Proof.
  unfold make_result; simpl. rewrite list_elem_of_filter. by rewrite elem_of_unique.
Qed.

Lemma elem_of_make_result_tokens filePath all t :
  t ∈ tokens (make_result filePath all) ↔ t ∈ all.2.
Proof.
  unfold make_result; simpl. apply elem_of_uniqueBy_inj. apply JSON_stringify_inj.
Qed.

Section Exports.
Context {Root AtRule Rule ClassSelector MapObject : Type}.
Context (E : Env Root AtRule Rule ClassSelector MapObject).

(** The second loop in closed form. *)
Lemma for_classSelectors_filter localTokenNames selectors toks :
  for_classSelectors E localTokenNames selectors toks
  = toks ++ (class_token E <$>
               filter (λ selector, value E selector.2 ∈ localTokenNames) selectors).
Proof.
  revert toks. induction selectors as [|[rule classSelector] rest IH]; intros toks.
  - simpl. by rewrite app_nil_r.
  - simpl. rewrite filter_cons. simpl. case_bool_decide as Hin.
    + rewrite decide_True by done. rewrite IH, fmap_cons, <- app_assoc. done.
    + rewrite decide_False by done. apply IH.
Qed.

Lemma for_atImports_oracle_inv table filePath atImports deps toks s all s' :
  for_atImports E (oracle table) filePath atImports deps toks s = (Ok all, s') →
  (∀ atImport q, atImport ∈ atImports → import_target E filePath atImport q →
     ∃ rq, table q = Ok rq) ∧
  (∀ d, d ∈ all.1 ↔
     d ∈ deps ∨
     ∃ atImport q rq, atImport ∈ atImports ∧ import_target E filePath atImport q ∧
       table q = Ok rq ∧ (d = q ∨ d ∈ dependencies rq)) ∧
  (∀ t, t ∈ all.2 ↔
     t ∈ toks ∨
     ∃ atImport q rq, atImport ∈ atImports ∧ import_target E filePath atImport q ∧
       table q = Ok rq ∧ t ∈ tokens rq).
Proof.
  revert deps toks s. induction atImports as [|atImport rest IH]; intros deps toks s H.
  { simpl in H. unfold ret in H. inversion H; subst; simpl.
    split; [|split]; [intros a q Ha; by apply elem_of_nil in Ha| |];
      (intros x; split; [by left|]; intros [?|(a & q & rq & Ha & _)]; [done|];
       by apply elem_of_nil in Ha). }
  assert (Hskip : (∀ q, ¬ import_target E filePath atImport q) →
            for_atImports E (oracle table) filePath rest deps toks s = (Ok all, s') →
            (∀ a q, a ∈ atImport :: rest → import_target E filePath a q →
               ∃ rq, table q = Ok rq) ∧
            (∀ d, d ∈ all.1 ↔
               d ∈ deps ∨
               ∃ a q rq, a ∈ atImport :: rest ∧ import_target E filePath a q ∧
                 table q = Ok rq ∧ (d = q ∨ d ∈ dependencies rq)) ∧
            (∀ t, t ∈ all.2 ↔
               t ∈ toks ∨
               ∃ a q rq, a ∈ atImport :: rest ∧ import_target E filePath a q ∧
                 table q = Ok rq ∧ t ∈ tokens rq)).
  { intros Hno (H1 & H2 & H3)%IH. split; [|split].
    - intros a q [->|Ha]%elem_of_cons Hq; [by destruct (Hno q)|by eapply H1].
    - intros d. rewrite H2. split.
      + intros [?|(a & q & rq & Ha & Hq)]; [by left|].
        right. exists a, q, rq. split; [by right|done].
      + intros [?|(a & q & rq & [->|Ha]%elem_of_cons & Hq & Hthen)];
          [by left|by destruct (Hno q)|].
        right. by exists a, q, rq.
    - intros t. rewrite H3. split.
      + intros [?|(a & q & rq & Ha & Hq)]; [by left|].
        right. exists a, q, rq. split; [by right|done].
      + intros [?|(a & q & rq & [->|Ha]%elem_of_cons & Hq & Hthen)];
          [by left|by destruct (Hno q)|].
        right. by exists a, q, rq. }
  simpl in H. destruct (parseAtImport E atImport) as [specifier|] eqn:Hp.
  2: { apply Hskip; [|done]. intros q (sp & Hsp & _). congruence. }
  case_bool_decide as Hempty.
  { apply Hskip; [|done]. intros q (sp & Hsp & Hne & _). congruence. }
  destruct (isIgnoredSpecifier specifier) eqn:Hign.
  { apply Hskip; [|done]. intros q (sp & Hsp & _ & Hi & _). congruence. }
  clear Hskip.
  apply bind_inv in H as [(from & s1 & Hres%resolver_Ok & H)|[(? & _ & ?)|[_ ?]]];
    [|done|done].
  apply bind_inv in H as [(result & s2 & Htable%oracle_Ok & H)|[(? & _ & ?)|[_ ?]]];
    [|done|done].
  apply IH in H as (H1 & H2 & H3).
  assert (Huniq : ∀ q, import_target E filePath atImport q → q = from).
  { intros q (sp & Hsp & _ & _ & Hq). congruence. }
  assert (Hhead : import_target E filePath atImport from) by (by exists specifier).
  split; [|split].
  - intros a' q [->|Ha']%elem_of_cons Hq; [|by eapply H1].
    apply Huniq in Hq as ->. eauto.
  - intros d. rewrite H2, elem_of_app, elem_of_cons. setoid_rewrite elem_of_cons.
    split.
    + intros [[?|[->|?]]|(a' & q & rq & Ha' & Hq)]; [by left| | |].
      * right. exists atImport, from, result. eauto 10.
      * right. exists atImport, from, result. eauto 10.
      * right. exists a', q, rq. eauto.
    + intros [?|(a' & q & rq & [->|Ha'] & Hq & Ht & Hd)]; [by left; left| |].
      * apply Huniq in Hq as ->. rewrite Htable in Ht. injection Ht as <-.
        left. right. done.
      * right. exists a', q, rq. eauto.
  - intros t. rewrite H3, elem_of_app. setoid_rewrite elem_of_cons.
    split.
    + intros [[?|?]|(a' & q & rq & Ha' & Hq)]; [by left| |].
      * right. exists atImport, from, result. eauto 10.
      * right. exists a', q, rq. eauto.
    + intros [?|(a' & q & rq & [->|Ha'] & Hq & Ht & Hd)]; [by left; left| |].
      * apply Huniq in Hq as ->. rewrite Htable in Ht. injection Ht as <-.
        left. by right.
      * right. exists a', q, rq. eauto.
Qed.

Lemma for_atValues_oracle_inv table filePath atValues deps toks s all s' :
  for_atValues E (oracle table) filePath atValues deps toks s = (Ok all, s') →
  (∀ atValue imports q, atValue ∈ atValues →
     value_import_target E filePath atValue imports q → ∃ rq, table q = Ok rq) ∧
  (∀ d, d ∈ all.1 ↔
     d ∈ deps ∨
     ∃ atValue imports q rq, atValue ∈ atValues ∧
       value_import_target E filePath atValue imports q ∧
       table q = Ok rq ∧ (d = q ∨ d ∈ dependencies rq)) ∧
  (∀ t, t ∈ all.2 ↔
     t ∈ toks ∨
     (∃ atValue tokenName, atValue ∈ atValues ∧
        parseAtValue E atValue = Some (valueDeclaration tokenName) ∧
        t = mkToken tokenName None
              (getOriginalLocationOfAtValue E atValue (valueDeclaration tokenName))) ∨
     (∃ atValue imports q rq token i, atValue ∈ atValues ∧
        value_import_target E filePath atValue imports q ∧
        table q = Ok rq ∧ token ∈ tokens rq ∧
        matchedImport imports token = Some i ∧ t = imported_token i token)).
Proof.
  revert deps toks s. induction atValues as [|atValue rest IH]; intros deps toks s H.
  { simpl in H. unfold ret in H. inversion H; subst; simpl. split; [|split].
    - intros a imports q Ha. by apply elem_of_nil in Ha.
    - intros d. split; [by left|]. intros [?|(a & ? & ? & ? & Ha & _)]; [done|].
      by apply elem_of_nil in Ha.
    - intros t. split; [by left|].
      intros [?|[(a & ? & Ha & _)|(a & ? & ? & ? & ? & ? & Ha & _)]]; [done| |];
        by apply elem_of_nil in Ha. }
  simpl in H.
  apply bind_inv in H as [(parsed & s0 & Hparse & H)|[(? & _ & ?)|[_ ?]]]; [|done|done].
  apply of_option_inv in Hparse as [-> [(? & Hparse & [= <-])|[_ ?]]]; [|done].
  destruct parsed as [tokenName|from_ imports].
  - (* a declaration: one token, no sheet *)
    apply IH in H as (H1 & H2 & H3).
    assert (Hno : ∀ imports q, ¬ value_import_target E filePath atValue imports q).
    { intros imports q (from_ & Hp & _). congruence. }
    split; [|split].
    + intros a imports q [->|Ha]%elem_of_cons Hq; [by destruct (Hno imports q)|].
      by eapply H1.
    + intros d. rewrite H2. split.
      * intros [?|(a & imports & q & rq & Ha & Hq)]; [by left|].
        right. exists a, imports, q, rq. split; [by right|done].
      * intros [?|(a & imports & q & rq & [->|Ha]%elem_of_cons & Hq & Hthen)];
          [by left|by destruct (Hno imports q)|].
        right. by exists a, imports, q, rq.
    + intros t. rewrite H3, elem_of_app, list_elem_of_singleton. split.
      * intros [[?| ->]|[(a & n & Ha & Hn)|(a & imports & q & rq & token & i & Ha & Hq)]].
        -- by left.
        -- right. left. exists atValue, tokenName. split; [by left|done].
        -- right. left. exists a, n. split; [by right|done].
        -- right. right. exists a, imports, q, rq, token, i. split; [by right|done].
      * intros [?|[(a & n & [->|Ha]%elem_of_cons & Hn & ->)|
                   (a & imports & q & rq & token & i & [->|Ha]%elem_of_cons & Hq & Hthen)]].
        -- by left; left.
        -- left. right. congruence.
        -- right. left. by exists a, n.
        -- by destruct (Hno imports q).
        -- right. right. by exists a, imports, q, rq, token, i.
  - destruct (isIgnoredSpecifier from_) eqn:Hign.
    + (* an ignored specifier: nothing *)
      apply IH in H as (H1 & H2 & H3).
      assert (Hno : ∀ imports q, ¬ value_import_target E filePath atValue imports q).
      { intros imports' q (from' & Hp & Hi & _). congruence. }
      split; [|split].
      * intros a imports' q [->|Ha]%elem_of_cons Hq; [by destruct (Hno imports' q)|].
        by eapply H1.
      * intros d. rewrite H2. split.
        -- intros [?|(a & imports' & q & rq & Ha & Hq)]; [by left|].
           right. exists a, imports', q, rq. split; [by right|done].
        -- intros [?|(a & imports' & q & rq & [->|Ha]%elem_of_cons & Hq & Hthen)];
             [by left|by destruct (Hno imports' q)|].
           right. by exists a, imports', q, rq.
      * intros t. rewrite H3. split.
        -- intros [?|[(a & n & Ha & Hn)|
                      (a & imports' & q & rq & token & i & Ha & Hq)]]; [by left| |].
           ++ right. left. exists a, n. split; [by right|done].
           ++ right. right. exists a, imports', q, rq, token, i. split; [by right|done].
        -- intros [?|[(a & n & [->|Ha]%elem_of_cons & Hn & ->)|
                      (a & imports' & q & rq & token & i & [->|Ha]%elem_of_cons
                       & Hq & Hthen)]].
           ++ by left.
           ++ congruence.
           ++ right. left. by exists a, n.
           ++ by destruct (Hno imports' q).
           ++ right. right. by exists a, imports', q, rq, token, i.
    + (* a sheet to load *)
      apply bind_inv in H as [(from & s1 & Hres%resolver_Ok & H)|[(? & _ & ?)|[_ ?]]];
        [|done|done].
      apply bind_inv in H as [(result & s2 & Htable%oracle_Ok & H)|[(? & _ & ?)|[_ ?]]];
        [|done|done].
      apply IH in H as (H1 & H2 & H3).
      assert (Huniq : ∀ imports' q, value_import_target E filePath atValue imports' q →
                imports' = imports ∧ q = from).
      { intros imports' q (from' & Hp & _ & Hq). split; congruence. }
      assert (Hhead : value_import_target E filePath atValue imports from)
        by (by exists from_).
      split; [|split].
      * intros a imports' q [->|Ha]%elem_of_cons Hq; [|by eapply H1].
        apply Huniq in Hq as [-> ->]. eauto.
      * intros d. rewrite H2, elem_of_app, elem_of_cons. split.
        -- intros [[?|[->|?]]|(a & imports' & q & rq & Ha & Hq)]; [by left| | |].
           ++ right. exists atValue, imports, from, result.
              split; [by left|]. split; [done|]. split; [done|by left].
           ++ right. exists atValue, imports, from, result.
              split; [by left|]. split; [done|]. split; [done|by right].
           ++ right. exists a, imports', q, rq. split; [by right|done].
        -- intros [?|(a & imports' & q & rq & [->|Ha]%elem_of_cons & Hq & Ht & Hd)];
             [by left; left| |].
           ++ apply Huniq in Hq as [-> ->]. rewrite Htable in Ht. injection Ht as <-.
              left. by right.
           ++ right. by exists a, imports', q, rq.
      * intros t. rewrite H3, elem_of_push_imported_tokens. split.
        -- intros [[?|(token & i & Htoken & Hi & ->)]|
                   [(a & n & Ha & Hn)|(a & imports' & q & rq & token & i & Ha & Hq)]].
           ++ by left.
           ++ right. right. exists atValue, imports, from, result, token, i.
              split; [by left|done].
           ++ right. left. exists a, n. split; [by right|done].
           ++ right. right. exists a, imports', q, rq, token, i. split; [by right|done].
        -- intros [?|[(a & n & [->|Ha]%elem_of_cons & Hn & ->)|
                      (a & imports' & q & rq & token & i & [->|Ha]%elem_of_cons
                       & Hq & Ht & Htoken & Hi & ->)]].
           ++ by left; left.
           ++ congruence.
           ++ right. left. by exists a, n.
           ++ apply Huniq in Hq as [-> ->]. rewrite Htable in Ht. injection Ht as <-.
              left. right. by exists token, i.
           ++ right. right. by exists a, imports', q, rq, token, i.
Qed.

(** What the body of [_load] makes of a sheet whose recursive calls are
    answered from a table. *)
Lemma load_sheet_oracle_inv table filePath s all s' :
  load_sheet E (oracle table) filePath s = (Ok all, s') →
  ∃ rc ast localTokenNames,
    (readCSS E filePath new_state).1 = Ok rc ∧
    (parse E (css rc) filePath (map rc) new_state).1 = Ok ast ∧
    generateLocalTokenNames E ast = Some localTokenNames ∧
    (∀ q, asked E filePath ast q → ∃ rq, table q = Ok rq) ∧
    (∀ d, d ∈ all.1 ↔
       d ∈ css_dependencies rc ∨
       ∃ q rq, asked E filePath ast q ∧ table q = Ok rq ∧
         (d = q ∨ d ∈ dependencies rq)) ∧
    (∀ t, t ∈ all.2 ↔
       pushed E (λ q rq, table q = Ok rq) filePath ast localTokenNames t).
Proof.
  intros H. unfold load_sheet in H.
  apply bind_inv in H as [(rc & s1 & Hread & H)|[(? & _ & ?)|[_ ?]]]; [|done|done].
  apply bind_inv in H as [(ast & s2 & Hparse & H)|[(? & _ & ?)|[_ ?]]]; [|done|done].
  apply bind_inv in H as [(ltn & s3 & Hltn & H)|[(? & _ & ?)|[_ ?]]]; [|done|done].
  apply of_option_inv in Hltn as [-> [(? & Hltn & [= <-])|[_ ?]]]; [|done].
  apply bind_inv in H as [(imported & s4 & Himports & H)|[(? & _ & ?)|[_ ?]]];
    [|done|done].
  apply for_atImports_oracle_inv in Himports as (I1 & I2 & I3).
  apply for_atValues_oracle_inv in H as (V1 & V2 & V3).
  exists rc, ast, ltn.
  split. { pose proof (readCSS_pure E filePath new_state s) as Hp. by rewrite Hread in Hp. }
  split. { apply parse_inv in Hparse as [_ Hparse]. by rewrite Hparse. }
  split; [done|]. split; [|split].
  - intros q [(a & Ha & Hq)|(a & imports & Ha & Hq)]; [by eapply I1|by eapply V1].
  - intros d. rewrite V2, I2. split.
    + intros [[?|(a & q & rq & Ha & Hq & Hthen)]|(a & imports & q & rq & Ha & Hq & Hthen)].
      * by left.
      * right. exists q, rq. split; [|done]. left. by exists a.
      * right. exists q, rq. split; [|done]. right. by exists a, imports.
    + intros [?|(q & rq & [(a & Ha & Hq)|(a & imports & Ha & Hq)] & Hthen)].
      * by left; left.
      * left. right. by exists a, q, rq.
      * right. by exists a, imports, q, rq.
  - intros t. rewrite V3, for_classSelectors_filter, elem_of_app, I3,
      list_elem_of_fmap. split.
    + intros [[[?|(a & q & rq & Ha & Hq & Ht & Hin)]|(selector & -> & Hsel)]|
              [(a & n & Ha & Hn & ->)|
               (a & imports & q & rq & token & i & Ha & Hq & Ht & Htoken & Hi & ->)]].
      * by apply elem_of_nil in H.
      * by eapply pushed_import.
      * apply list_elem_of_filter in Hsel as [Hlocal Hsel]. by apply pushed_class.
      * by apply pushed_value.
      * by eapply pushed_value_import.
    + intros [a q rq t' Ha Hq Ht Hin|selector Hsel Hlocal|a n Ha Hn|
              a imports q rq token i Ha Hq Ht Htoken Hi].
      * left. left. right. by exists a, q, rq.
      * left. right. exists selector. split; [done|]. by apply list_elem_of_filter.
      * right. left. by exists a, n.
      * right. right. by exists a, imports, q, rq, token, i.
Qed.

(** What [load] returns on a Locator whose loads have all seen the disk as
    it is. *)
Lemma load_exports fuel filePath s r s' :
  reachable_on E s → load E fuel filePath s = (Ok r, s') →
  ∃ rc ast localTokenNames,
    (readCSS E filePath new_state).1 = Ok rc ∧
    (parse E (css rc) filePath (map rc) new_state).1 = Ok ast ∧
    generateLocalTokenNames E ast = Some localTokenNames ∧
    (∀ q, asked E filePath ast q → ∃ rq, loads_to E q rq) ∧
    (∀ d, d ∈ dependencies r ↔
       d ≠ filePath ∧
       (d ∈ css_dependencies rc ∨
        ∃ q rq, asked E filePath ast q ∧ loads_to E q rq ∧
          (d = q ∨ d ∈ dependencies rq))) ∧
    (∀ t, t ∈ tokens r ↔ pushed E (loads_to E) filePath ast localTokenNames t).
Proof.
  intros Hs H. destruct (load_uncached E fuel filePath s r s' Hs H) as [[|n] Hn]; [done|].
  apply uncached_Ok_inv in Hn as (all & t & Hsheet & ->).
  apply load_sheet_oracle_inv in Hsheet
    as (rc & ast & ltn & Hread & Hparse & Hltn & Hasked & Hdeps & Htoks).
  assert (Hsame : ∀ q rq, asked E filePath ast q →
            loads_to E q rq ↔ uncached E n q = Ok rq).
  { intros q rq [rq' Hq]%Hasked. split; [|by exists n].
    intros [m Hm]. by rewrite (uncached_deterministic E _ _ _ _ _ Hm Hq). }
  exists rc, ast, ltn. do 3 (split; [done|]). split; [|split].
  - intros q [rq Hq]%Hasked. by exists rq, n.
  - intros d. rewrite elem_of_make_result_dependencies, Hdeps. split.
    + intros [Hne [?|(q & rq & Hq & Ht & Hd)]]; (split; [done|]); [by left|].
      right. exists q, rq. split; [done|]. split; [by exists n|done].
    + intros [Hne [?|(q & rq & Hq & Ht & Hd)]]; (split; [done|]); [by left|].
      right. exists q, rq. split; [done|]. split; [by apply Hsame|done].
  - intros t0. rewrite elem_of_make_result_tokens, Htoks. split.
    + intros [a q rq t' Ha Hq Ht Hin|selector Hsel Hlocal|a m Ha Hm|
              a imports q rq token i Ha Hq Ht Htoken Hi].
      * eapply pushed_import; try done. by exists n.
      * by apply pushed_class.
      * by apply pushed_value.
      * eapply pushed_value_import; try done. by exists n.
    + intros [a q rq t' Ha Hq Ht Hin|selector Hsel Hlocal|a m Ha Hm|
              a imports q rq token i Ha Hq Ht Htoken Hi].
      * eapply pushed_import; try done. apply Hsame; [|done]. left. by exists a.
      * by apply pushed_class.
      * by apply pushed_value.
      * eapply pushed_value_import; try done. apply Hsame; [|done].
        right. by exists a, imports.
Qed.

(** X9: on a Locator whose loads have all seen the disk as it is, the
    tokens of a result are exactly the tokens that the three loops push:
    every token of every sheet that an [@import] rule asks for, one token
    for every class selector whose name is a local token name, one token for
    every [@value] declaration, and for every [@value ... from] rule one
    token for every token of the sheet it asks for whose name the rule
    imports. *)
Theorem load_tokens fuel filePath s r s' :
  reachable_on E s → load E fuel filePath s = (Ok r, s') →
  ∃ rc ast localTokenNames,
    (readCSS E filePath new_state).1 = Ok rc ∧
    (parse E (css rc) filePath (map rc) new_state).1 = Ok ast ∧
    generateLocalTokenNames E ast = Some localTokenNames ∧
    ∀ t, t ∈ tokens r ↔ pushed E (loads_to E) filePath ast localTokenNames t.
Proof.
  intros Hs H.
  destruct (load_exports fuel filePath s r s' Hs H)
    as (rc & ast & ltn & Hread & Hparse & Hltn & _ & _ & Htoks).
  by exists rc, ast, ltn.
Qed.

(** X10: on such a Locator, every sheet that a rule of the loaded sheet asks
    for has a result, and the dependencies of the result are exactly, the
    sheet itself apart: the dependencies that the transformer reports, the
    sheets that the [@import] and [@value ... from] rules ask for, and the
    dependencies of the results of those sheets. *)
Theorem load_dependencies fuel filePath s r s' :
  reachable_on E s → load E fuel filePath s = (Ok r, s') →
  ∃ rc ast,
    (readCSS E filePath new_state).1 = Ok rc ∧
    (parse E (css rc) filePath (map rc) new_state).1 = Ok ast ∧
    (∀ q, asked E filePath ast q → ∃ rq, loads_to E q rq) ∧
    ∀ d, d ∈ dependencies r ↔
      d ≠ filePath ∧
      (d ∈ css_dependencies rc ∨
       ∃ q rq, asked E filePath ast q ∧ loads_to E q rq ∧
         (d = q ∨ d ∈ dependencies rq)).
Proof.
  intros Hs H.
  destruct (load_exports fuel filePath s r s' Hs H)
    as (rc & ast & ltn & Hread & Hparse & Hltn & Hasked & Hdeps & _).
  by exists rc, ast.
Qed.

(** X11: the second loop of [_load] pushes, behind the tokens it is given,
    one token for every class selector whose name is a local token name, in
    the order of the selectors, named by the selector, without
    [importedName] and located where the selector is; a selector of
    another name pushes nothing. *)
Theorem class_selectors_push_local_tokens localTokenNames selectors toks :
  for_classSelectors E localTokenNames selectors toks
  = toks ++ (class_token E <$>
               filter (λ selector, value E selector.2 ∈ localTokenNames) selectors) ∧
  (∀ t, t ∈ for_classSelectors E localTokenNames selectors toks →
     t ∈ toks ∨
     (name t ∈ localTokenNames ∧ importedName t = None ∧
      ∃ selector, selector ∈ selectors ∧ name t = value E selector.2 ∧
        originalLocation t
        = getOriginalLocationOfClassSelector E selector.1 selector.2)) ∧
  (Forall (λ selector, value E selector.2 ∉ localTokenNames) selectors →
   for_classSelectors E localTokenNames selectors toks = toks).
Proof.
  split; [apply for_classSelectors_filter|]. split.
  - intros t. rewrite for_classSelectors_filter, elem_of_app, list_elem_of_fmap.
    intros [?|(selector & -> & [Hlocal Hsel]%list_elem_of_filter)]; [by left|].
    right. split; [done|]. split; [done|]. by exists selector.
  - intros Hnone. rewrite for_classSelectors_filter.
    assert (filter (λ selector, value E selector.2 ∈ localTokenNames) selectors = [])
      as ->; [|by rewrite app_nil_r].
    induction Hnone as [|selector rest Hsel _ IH]; [done|].
    rewrite filter_cons. by rewrite decide_False.
Qed.
End Exports.

(** ** [defaultTransformer] *)

Lemma append_assoc (s1 s2 s3 : string) : (s1 +:+ s2) +:+ s3 = s1 +:+ (s2 +:+ s3).
Proof.
  induction s1 as [|c s1 IH]; [done|].
  change (String c ((s1 +:+ s2) +:+ s3) = String c (s1 +:+ s2 +:+ s3)). by rewrite IH.
Qed.

Lemma rev_app_app (s1 s2 acc : string) :
  String.rev_app (s1 +:+ s2) acc = String.rev_app s2 (String.rev_app s1 acc).
Proof. revert acc. induction s1 as [|c s1 IH]; intros acc; [done|]. simpl. apply IH. Qed.

Lemma rev_app_acc (s acc : string) : String.rev_app s acc = String.rev s +:+ acc.
Proof.
  unfold String.rev. revert acc. induction s as [|c s IH]; intros acc; [done|].
  simpl. rewrite IH, (IH (String c "")). by rewrite append_assoc.
Qed.

Lemma rev_app_string (s1 s2 : string) :
  String.rev (s1 +:+ s2) = String.rev s2 +:+ String.rev s1.
Proof. unfold String.rev at 1. by rewrite rev_app_app, rev_app_acc. Qed.

Lemma rev_rev (s : string) : String.rev (String.rev s) = s.
Proof.
  induction s as [|c s IH]; [done|].
  change (String c s) with (String c "" +:+ s) at 1.
  rewrite rev_app_string, rev_app_string, IH. done.
Qed.

Lemma endsWith_iff (s searchString : string) :
  endsWith s searchString = true ↔ ∃ stem, s = stem +:+ searchString.
Proof.
  unfold endsWith. rewrite (startsWith_iff (String.rev s) (String.rev searchString)
    : String.prefix _ _ = true ↔ _). split.
  - intros [rest H]. exists (String.rev rest).
    rewrite <- (rev_rev s), H, rev_app_string. by rewrite rev_rev.
  - intros [stem ->]. exists (String.rev stem). apply rev_app_string.
Qed.

Lemma endsWith_false (s searchString : string) :
  endsWith s searchString = false ↔ ∀ stem, s ≠ stem +:+ searchString.
Proof.
  rewrite <- not_true_iff_false, endsWith_iff. split.
  - intros H stem Hs. apply H. by exists stem.
  - intros H [stem Hs]. by apply (H stem).
Qed.

(** X12: [defaultTransformer] hands a file whose name ends in [.scss] to the
    SCSS transformer and a file whose name ends in [.less] to the Less
    transformer, with the source and the name it was given, and answers
    [false] for every other name; no name ends in both. *)
Theorem defaultTransformer_dispatch {MapObject : Type}
    (scssTransformer lessTransformer : Transformer MapObject) source from :
  (∀ stem, from = stem +:+ ".scss" →
     defaultTransformer scssTransformer lessTransformer source from
     = scssTransformer source from) ∧
  (∀ stem, from = stem +:+ ".less" →
     defaultTransformer scssTransformer lessTransformer source from
     = lessTransformer source from) ∧
  ((∀ stem, from ≠ stem +:+ ".scss") → (∀ stem, from ≠ stem +:+ ".less") →
     defaultTransformer scssTransformer lessTransformer source from = TransformedFalse).
Proof.
  unfold defaultTransformer. split; [|split].
  - intros stem Hs. by rewrite (proj2 (endsWith_iff from ".scss")) by eauto.
  - intros stem Hs.
    assert (Hscss : endsWith from ".scss" = false).
    { apply endsWith_false. intros stem' Hs'. rewrite Hs in Hs'.
      apply (f_equal String.rev) in Hs'. rewrite !rev_app_string in Hs'.
      by inversion Hs'. }
    rewrite Hscss. by rewrite (proj2 (endsWith_iff from ".less")) by eauto.
  - intros Hscss%endsWith_false Hless%endsWith_false. by rewrite Hscss, Hless.
Qed.

(** ** The entries that a load writes *)

#[global] Instance untouched_above_refl rank K : Reflexive (untouched_above rank K).
Proof. by intros s k. Qed.

#[global] Instance untouched_above_trans rank K : Transitive (untouched_above rank K).
Proof. intros s1 s2 s3 H1 H2 k Hk. by rewrite H2, H1. Qed.

Section Frame.
Context {Root AtRule Rule ClassSelector MapObject : Type}.
Context (E : Env Root AtRule Rule ClassSelector MapObject).
Context (rank : string → nat).
Hypothesis Hrank : ∀ p q, q ∈ imported_sheets E p → rank q < rank p.

Lemma untouched_above_record K e s :
  untouched_above rank K s (mkState (cache s) (loading s) (e :: log s)).
Proof. by intros k. Qed.

(** [_load] writes no entry above the sheet it loads. *)
Lemma _load_untouched_above fuel filePath K :
  rank filePath < K → steps (untouched_above rank K) (_load E fuel filePath).
Proof.
  revert filePath. induction fuel as [|fuel IH]; intros filePath HK.
  { by apply steps_pending. }
  intros s o s' H. simpl in H.
  destruct (isCacheOutdated E filePath s) as [outdated s1] eqn:Hout.
  assert (Hs1 : untouched_above rank K s s1).
  { eapply steps_isCacheOutdated; [apply _|apply _|apply untouched_above_record|done]. }
  unfold bind at 1 in H. rewrite Hout in H.
  destruct outdated as [[|]|e|]; simpl in H; try (by inversion H; subst).
  - destruct (stat_mtime E filePath s1) as [om s2] eqn:Hstat.
    assert (Hs2 : untouched_above rank K s1 s2).
    { eapply steps_stat_mtime; [apply _|apply _|apply untouched_above_record|done]. }
    unfold bind at 1 in H. rewrite Hstat in H.
    destruct om as [m|e|]; try (inversion H; subst; by etrans).
    destruct (load_sheet E (_load E fuel) filePath s2) as [oall s3] eqn:Hsheet.
    assert (Hs3 : untouched_above rank K s2 s3).
    { eapply steps_load_sheet;
        [apply _|apply _|apply untouched_above_record| |done].
      intros from Hfrom. apply IH. specialize (Hrank _ _ Hfrom). lia. }
    unfold bind at 1 in H. rewrite Hsheet in H.
    destruct oall as [all|e|]; try (inversion H; subst; by do 2 etrans).
    unfold bind, cache_set, ret in H. inversion H; subst.
    intros k Hk. simpl. rewrite lookup_insert_ne by (intros ->; lia).
    by rewrite (Hs3 k), (Hs2 k), (Hs1 k).
  - unfold bind, cache_get in H. destruct (cache s1 !! filePath); by inversion H; subst.
Qed.

(** Besides its own entry [_load] writes entries of lower sheets only, and
    its own entry only when it returns a result. *)
Lemma _load_frame fuel filePath s o s' :
  _load E fuel filePath s = (o, s') →
  (∀ k, k ≠ filePath → (rank filePath ≤ rank k)%nat → cache s' !! k = cache s !! k) ∧
  ((∀ r, o ≠ Ok r) → cache s' !! filePath = cache s !! filePath).
Proof.
  destruct fuel as [|fuel]; intros H.
  { simpl in H. unfold pending in H. by inversion H. }
  set (K := rank filePath).
  simpl in H.
  destruct (isCacheOutdated E filePath s) as [outdated s1] eqn:Hout.
  pose proof (isCacheOutdated_cache E _ _ _ _ Hout) as Hc.
  unfold bind at 1 in H. rewrite Hout in H.
  destruct outdated as [[|]|e|]; simpl in H.
  - destruct (stat_mtime E filePath s1) as [om s2] eqn:Hstat.
    pose proof (stat_mtime_cache E _ _ _ _ Hstat) as Hc2.
    unfold bind at 1 in H. rewrite Hstat in H.
    destruct om as [m|e|].
    + destruct (load_sheet E (_load E fuel) filePath s2) as [oall s3] eqn:Hsheet.
      assert (Hs3 : untouched_above rank K s2 s3).
      { eapply steps_load_sheet;
          [apply _|apply _|apply untouched_above_record| |done].
        intros from Hfrom. apply _load_untouched_above. by apply Hrank. }
      unfold bind at 1 in H. rewrite Hsheet in H.
      destruct oall as [all|e|].
      * unfold bind, cache_set, ret in H. inversion H; subst. split.
        -- intros k Hne Hk. simpl. rewrite lookup_insert_ne by done.
           by rewrite (Hs3 k Hk), Hc2, Hc.
        -- intros Hno. by destruct (Hno (make_result filePath all)).
      * inversion H; subst. split; intros; rewrite Hs3, Hc2, Hc; done.
      * inversion H; subst. split; intros; rewrite Hs3, Hc2, Hc; done.
    + inversion H; subst. split; intros; by rewrite Hc2, Hc.
    + inversion H; subst. split; intros; by rewrite Hc2, Hc.
  - unfold bind, cache_get in H.
    destruct (cache s1 !! filePath); inversion H; subst; split; intros; by rewrite Hc.
  - inversion H; subst. split; intros; by rewrite Hc.
  - inversion H; subst. split; intros; by rewrite Hc.
Qed.

(** X13: when the imports form no cycle (every sheet ranks above the sheets
    it asks for), a [load] changes no cache entry but the one of the sheet
    it loads and those of sheets of lower rank; and a [load] that ends with
    an error stores nothing for the sheet: its entry is as it was. *)
Theorem load_frame fuel filePath s :
  (∀ k, k ≠ filePath → (rank filePath ≤ rank k)%nat →
     cache (load E fuel filePath s).2 !! k = cache s !! k) ∧
  (∀ e s', load E fuel filePath s = (Err e, s') →
     cache s' !! filePath = cache s !! filePath).
Proof.
  destruct (loading s) eqn:Hs.
  { unfold load. rewrite Hs. split; [done|]. by intros e s' [= _ <-]. }
  destruct (_load E fuel filePath (set_loading true s)) as [o s1] eqn:H.
  destruct (_load_frame _ _ _ _ _ H) as [H1 H2]. split.
  - intros k Hne Hk. destruct (load_cache_log E fuel filePath s Hs) as [-> _].
    rewrite H. by apply H1.
  - intros e s' Hl. unfold load, finally in Hl. rewrite Hs, H in Hl.
    destruct o as [r|e'|]; inversion Hl; subst. simpl. by apply H2.
Qed.
End Frame.

(** ** Imports that fail *)

Section FailingImports.
Context {Root AtRule Rule ClassSelector MapObject : Type}.
Context (E : Env Root AtRule Rule ClassSelector MapObject).

Lemma for_atImports_passed_over load filePath pre rest deps toks s :
  Forall (passed_over E) pre →
  for_atImports E load filePath (pre ++ rest) deps toks s
  = for_atImports E load filePath rest deps toks s.
Proof.
  induction 1 as [|atImport pre Hp _ IH]; [done|]. simpl. unfold passed_over in Hp.
  destruct (parseAtImport E atImport) as [specifier|]; [|done].
  case_bool_decide as Hempty; [done|].
  destruct Hp as [?| ->]; done.
Qed.

Lemma readCSS_at filePath rc s :
  (readCSS E filePath new_state).1 = Ok rc →
  readCSS E filePath s
  = (Ok rc, mkState (cache s) (loading s) (EvReadFile filePath :: log s)).
Proof.
  intros H. pose proof (readCSS_pure E filePath s new_state) as Hpure.
  pose proof (readCSS_state E filePath s) as Hstate.
  destruct (readCSS E filePath s) as [o s1]. simpl in *. by rewrite Hpure, H, Hstate.
Qed.

Lemma parse_at css filePath map ast s :
  (parse E css filePath map new_state).1 = Ok ast →
  parse E css filePath map s = (Ok ast, s).
Proof.
  intros H. destruct (parse E css filePath map new_state) as [o s1] eqn:Hp.
  simpl in H. subst o. apply parse_inv in Hp as [_ Hp]. apply Hp.
Qed.

(** The body of [_load] up to the first [@import] rule that is not passed
    over. *)
Lemma _load_first_import fuel filePath s m rc ast localTokenNames pre atImport rest
    specifier :
  cache s !! filePath = None →
  stat E filePath = Some m →
  (readCSS E filePath new_state).1 = Ok rc →
  (parse E (css rc) filePath (map rc) new_state).1 = Ok ast →
  generateLocalTokenNames E ast = Some localTokenNames →
  atImports (collectNodes E ast) = pre ++ atImport :: rest →
  Forall (passed_over E) pre →
  parseAtImport E atImport = Some specifier →
  specifier ≠ "" → isIgnoredSpecifier specifier = false →
  ∀ e s',
    (let* from := strict_resolver E specifier filePath in _load E fuel from)
      (mkState (cache s) (loading s) (EvReadFile filePath :: EvStat filePath :: log s))
    = (Err e, s') →
    _load E (S fuel) filePath s = (Err e, s').
Proof.
  intros Hentry Hstat Hread Hparse Hltn Himports Hpre Hp Hne Hign e s' H. simpl.
  rewrite (bind_Ok _ _ _ _ _ (isCacheOutdated_missing E filePath s Hentry)). simpl.
  rewrite (bind_Ok _ _ _ _ _ (stat_mtime_Some E filePath m s Hstat)).
  apply bind_Err. unfold load_sheet.
  rewrite (bind_Ok _ _ _ _ _ (readCSS_at filePath rc _ Hread)).
  rewrite (bind_Ok _ _ _ _ _ (parse_at _ _ _ _ _ Hparse)).
  rewrite Hltn. unfold of_option. rewrite (bind_Ok _ _ _ localTokenNames _ eq_refl).
  apply bind_Err. rewrite Himports, for_atImports_passed_over by done.
  simpl. rewrite Hp, bool_decide_false, Hign by done.
  apply bind_inv in H as [(from & s1 & Hres & H)|[(e' & Hres & [= <-])|[_ ?]]]; [| |done].
  - rewrite (bind_Ok _ _ _ _ _ Hres). by apply bind_Err.
  - by apply bind_Err.
Qed.

(** X14: when the first [@import] rule that is not passed over has a
    specifier that the resolver does not resolve, the [load] of a sheet that
    is not cached fails with the error that names the specifier and the
    importing sheet, and the cache stays as it is; when the sheet it
    resolves to fails to load, [load] fails with the error of that
    sheet. *)
Theorem failing_import_fails_the_load fuel filePath s m rc ast localTokenNames
    pre atImport rest specifier :
  loading s = false →
  cache s !! filePath = None →
  stat E filePath = Some m →
  (readCSS E filePath new_state).1 = Ok rc →
  (parse E (css rc) filePath (map rc) new_state).1 = Ok ast →
  generateLocalTokenNames E ast = Some localTokenNames →
  atImports (collectNodes E ast) = pre ++ atImport :: rest →
  Forall (passed_over E) pre →
  parseAtImport E atImport = Some specifier →
  specifier ≠ "" → isIgnoredSpecifier specifier = false →
  (resolver E specifier filePath = None →
   load E (S fuel) filePath s
   = (Err (CouldNotResolve specifier filePath),
      mkState (cache s) false
        (EvResolve specifier filePath :: EvReadFile filePath :: EvStat filePath
           :: log s))) ∧
  (∀ from e s',
     resolver E specifier filePath = Some from →
     _load E fuel from
       (mkState (cache s) true
          (EvResolve specifier filePath :: EvReadFile filePath :: EvStat filePath
             :: log s))
     = (Err e, s') →
     load E (S fuel) filePath s = (Err e, set_loading false s')).
Proof.
  intros Hs Hentry Hstat Hread Hparse Hltn Himports Hpre Hp Hne Hign.
  assert (Hfirst := _load_first_import fuel filePath (set_loading true s) m rc ast
                      localTokenNames pre atImport rest specifier Hentry Hstat Hread
                      Hparse Hltn Himports Hpre Hp Hne Hign).
  split.
  - intros Hres. rewrite load_state by done. unfold finally.
    rewrite (Hfirst (CouldNotResolve specifier filePath)
               (mkState (cache s) true
                  (EvResolve specifier filePath :: EvReadFile filePath
                     :: EvStat filePath :: log s))); [done|].
    simpl. unfold strict_resolver. apply bind_Err. unfold bind, record, of_option.
    by rewrite Hres.
  - intros from e s' Hres Hfrom.
    rewrite load_state by done. unfold finally. rewrite (Hfirst e s'); [done|].
    simpl. unfold strict_resolver, bind at 1, bind at 1, record, of_option.
    rewrite Hres. exact Hfrom.
Qed.
End FailingImports.

(** ** The order of the lists *)

Section LoopOrder.
Context {Root AtRule Rule ClassSelector MapObject : Type}.
Context (E : Env Root AtRule Rule ClassSelector MapObject).

(** The first loop does not look at what it has been given: it appends. *)
Lemma for_atImports_appends load filePath atImports deps1 deps2 toks1 toks2 s all s' :
  for_atImports E load filePath atImports (deps1 ++ deps2) (toks1 ++ toks2) s
  = (Ok all, s') →
  ∃ all', for_atImports E load filePath atImports deps2 toks2 s = (Ok all', s') ∧
          all = (deps1 ++ all'.1, toks1 ++ all'.2).
Proof.
  revert deps2 toks2 s.
  induction atImports as [|atImport rest IH]; intros deps2 toks2 s H; simpl in *.
  { unfold ret in *. inversion H; subst. by eexists. }
  destruct (parseAtImport E atImport) as [specifier|]; [|by apply IH].
  case_bool_decide; [by apply IH|].
  destruct (isIgnoredSpecifier specifier); [by apply IH|].
  apply bind_inv in H as [(from & s1 & Hres & H)|[(? & _ & ?)|[_ ?]]]; [|done|done].
  apply bind_inv in H as [(result & s2 & Hload & H)|[(? & _ & ?)|[_ ?]]]; [|done|done].
  rewrite <- !app_assoc in H. apply IH in H as (all' & H & ->).
  exists all'. split; [|done].
  rewrite (bind_Ok _ _ _ _ _ Hres). by rewrite (bind_Ok _ _ _ _ _ Hload).
Qed.

(** So does the third loop. *)
Lemma for_atValues_appends load filePath atValues deps1 deps2 toks1 toks2 s all s' :
  for_atValues E load filePath atValues (deps1 ++ deps2) (toks1 ++ toks2) s
  = (Ok all, s') →
  ∃ all', for_atValues E load filePath atValues deps2 toks2 s = (Ok all', s') ∧
          all = (deps1 ++ all'.1, toks1 ++ all'.2).
Proof.
  revert deps2 toks2 s.
  induction atValues as [|atValue rest IH]; intros deps2 toks2 s H; simpl in *.
  { unfold ret in *. inversion H; subst. by eexists. }
  apply bind_inv in H as [(parsed & s0 & Hparse & H)|[(? & _ & ?)|[_ ?]]]; [|done|done].
  rewrite (bind_Ok _ _ _ _ _ Hparse).
  destruct parsed as [tokenName|from_ imports].
  - rewrite <- app_assoc in H. by apply IH.
  - destruct (isIgnoredSpecifier from_); [by apply IH|].
    apply bind_inv in H as [(from & s1 & Hres & H)|[(? & _ & ?)|[_ ?]]]; [|done|done].
    apply bind_inv in H as [(result & s2 & Hload & H)|[(? & _ & ?)|[_ ?]]]; [|done|done].
    rewrite push_imported_tokens_app, <- !app_assoc in H.
    rewrite <- push_imported_tokens_app in H.
    apply IH in H as (all' & H & ->).
    exists all'. split; [|done].
    rewrite (bind_Ok _ _ _ _ _ Hres). by rewrite (bind_Ok _ _ _ _ _ Hload).
Qed.

(** X15: a result that [_load] does not take from the cache lists its
    dependencies and its tokens in the order of the three loops.  The
    dependencies are those that the transformer reports, then those of the
    [@import] rules, then those of the [@value ... from] rules; the tokens
    are those of the imported sheets, then those of the class selectors,
    then those of the [@value] rules; the result keeps the first
    occurrence of each. *)
Theorem result_lists_in_loop_order fuel filePath s r s' :
  _load E (S fuel) filePath s = (Ok r, s') →
  (∃ entry, cache s !! filePath = Some entry ∧ r = result entry) ∨
  (∃ rc ast localTokenNames s1 imported s2 valued s3,
     (readCSS E filePath new_state).1 = Ok rc ∧
     (parse E (css rc) filePath (map rc) new_state).1 = Ok ast ∧
     generateLocalTokenNames E ast = Some localTokenNames ∧
     for_atImports E (_load E fuel) filePath (atImports (collectNodes E ast)) [] [] s1
     = (Ok imported, s2) ∧
     for_atValues E (_load E fuel) filePath (atValues (collectNodes E ast)) [] [] s2
     = (Ok valued, s3) ∧
     dependencies r
     = filter (λ dep, dep ≠ filePath)
         (unique (css_dependencies rc ++ imported.1 ++ valued.1)) ∧
     tokens r
     = uniqueBy (imported.2
                 ++ (class_token E <$>
                       filter (λ selector, value E selector.2 ∈ localTokenNames)
                              (classSelectors (collectNodes E ast)))
                 ++ valued.2) JSON_stringify).
Proof.
  intros Hload. apply _load_Ok_inv in Hload
    as [(entry & Hout & Hentry & ->)|
        (t1 & m & t2 & all & t3 & _ & _ & Hsheet & -> & ->)].
  { left. exists entry. split; [|done].
    by rewrite <- (isCacheOutdated_cache E _ _ _ _ Hout). }
  right. unfold load_sheet in Hsheet.
  apply bind_inv in Hsheet as [(rc & u1 & Hread & H)|[(? & _ & ?)|[_ ?]]]; [|done|done].
  apply bind_inv in H as [(ast & u2 & Hparse & H)|[(? & _ & ?)|[_ ?]]]; [|done|done].
  apply bind_inv in H as [(ltn & u3 & Hltn & H)|[(? & _ & ?)|[_ ?]]]; [|done|done].
  apply of_option_inv in Hltn as [-> [(? & Hltn & [= <-])|[_ ?]]]; [|done].
  apply bind_inv in H as [(imported & u4 & Himports & H)|[(? & _ & ?)|[_ ?]]];
    [|done|done].
  rewrite <- (app_nil_r (css_dependencies rc)) in Himports.
  apply (for_atImports_appends _ _ _ _ nil nil nil) in Himports
    as (imported' & Himports & ->).
  simpl in H. rewrite for_classSelectors_filter in H.
  rewrite <- (app_nil_r (css_dependencies rc ++ imported'.1)) in H.
  rewrite <- (app_nil_r (class_token E <$> _)) in H. rewrite app_assoc in H.
  apply for_atValues_appends in H as (valued & H & ->).
  exists rc, ast, ltn, u2, imported', u4, valued, t3.
  split. { pose proof (readCSS_pure E filePath new_state t2) as Hp. by rewrite Hread in Hp. }
  split. { apply parse_inv in Hparse as [_ Hparse]. by rewrite Hparse. }
  split; [done|]. split; [done|]. split; [done|].
  unfold make_result; simpl. by rewrite <- !app_assoc.
Qed.
End LoopOrder.

(** ** The further theorems at the fixtures *)

Section MoreWitnesses.
Import Fixture MoreFixtures.

Lemma isCacheOutdated_spec_witness :
  (isCacheOutdated a_imports_b a_css a_loaded).1 = Ok false ∧
  isCacheOutdated a_imports_b a_css new_state = (Ok true, new_state).
Proof.
  destruct (isCacheOutdated_spec a_imports_b a_css a_loaded) as [H1 _].
  destruct (isCacheOutdated_spec a_imports_b a_css new_state) as (_ & H2 & _).
  split.
  - apply H1. exists a_result. apply a_loaded_up_to_date.
  - apply H2. vm_compute. reflexivity.
Defined.

Lemma stale_entry_is_reloaded_witness :
  (isCacheOutdated b_touched a_css a_loaded).1 = Ok true ∧
  ∃ newer older,
    log (load b_touched 1 a_css a_loaded).2
    = newer ++ EvReadFile a_css :: EvStat a_css :: (EvStat <$> older) ++ log a_loaded.
Proof.
  apply (stale_entry_is_reloaded b_touched 0 a_css (mkCacheEntry 1 a_result) a_loaded).
  - vm_compute. reflexivity.
  - vm_compute. reflexivity.
  - right. left. split; [reflexivity|].
    exists [], b_css, [], (mkCacheEntry 2 b_result), 3%Z.
    split; [reflexivity|]. split; [constructor|].
    split; [vm_compute; reflexivity|]. split; [reflexivity|discriminate].
Defined.

Lemma missing_file_fails_with_stat_error_witness :
  load a_imports_b 1 missing_css a_loaded
  = (Err (StatError missing_css),
     mkState (cache a_loaded) false (EvStat missing_css :: log a_loaded)).
Proof.
  apply missing_file_fails_with_stat_error; vm_compute; reflexivity.
Defined.

Lemma readCSS_dependencies_witness :
  readCSS less_sheets a_less new_state
  = (Ok (mkReadCSS (tr_css a_less_result) (tr_map a_less_result)
           (filter (λ dep, isIgnoredSpecifier dep = false)
                   (dependency_path <$> tr_dependencies a_less_result))),
     mkState (cache new_state) (loading new_state) (EvReadFile a_less :: log new_state)) ∧
  filter (λ dep, isIgnoredSpecifier dep = false)
         (dependency_path <$> tr_dependencies a_less_result)
  = ["/src/x.less"; "/src/y.less"] ∧
  load less_sheets 1 b_less new_state
  = (Err (UnsupportedProtocol "https:"),
     mkState (cache new_state) false (EvReadFile b_less :: EvStat b_less :: log new_state)).
Proof.
  destruct (readCSS_dependencies less_sheets reporting a_less "@import 'x'; .a{}"
              a_less_result new_state eq_refl eq_refl eq_refl) as [H1 _].
  destruct (readCSS_dependencies less_sheets reporting b_less "@import 'y'; .b{}"
              b_less_result new_state eq_refl eq_refl eq_refl) as [_ H2].
  split; [|split].
  - apply H1. repeat constructor.
  - vm_compute. reflexivity.
  - destruct (H2 [DepURL "file:" "/src/y.less"] "https:" "/z.less" [] eq_refl) as [_ H3].
    + repeat constructor.
    + discriminate.
    + apply (H3 0 1%Z); reflexivity.
Defined.

Lemma load_errors_are_justified_witness :
  (StatError b_css = ConcurrentLoadError ∧ loading new_state = true ∧
   b_deleted_failed = new_state) ∨
  (loading new_state = false ∧ StatError b_css ≠ TypeError ∧
   justified b_deleted (StatError b_css)).
Proof.
  apply (load_errors_are_justified b_deleted 2 a_css new_state (StatError b_css)
           b_deleted_failed).
  vm_compute. reflexivity.
Defined.

Lemma load_stores_result_witness :
  ∃ entry, cache a_loaded !! a_css = Some entry ∧ result entry = a_result ∧
           stat a_imports_b a_css = Some (mtime entry).
Proof.
  apply (load_stores_result a_imports_b 2 a_css new_state a_result a_loaded a_loaded_eq).
Defined.

Lemma cached_result_survives_witness :
  load a_imports_b 1 a_css a_loaded_then_missing
  = (Ok a_result,
     mkState (cache a_loaded_then_missing) false
       (stats (dependencies a_result) ++ EvStat a_css :: log a_loaded_then_missing)).
Proof.
  apply (cached_result_survives a_imports_b 1 missing_css a_loaded
           (Err (StatError missing_css)) a_loaded_then_missing a_css a_result 0).
  - vm_compute. reflexivity.
  - apply a_loaded_up_to_date.
  - vm_compute. reflexivity.
  - discriminate.
Defined.

Lemma load_tokens_witness :
  ∃ rc ast localTokenNames,
    (readCSS a_imports_b a_css new_state).1 = Ok rc ∧
    (parse a_imports_b (css rc) a_css (map rc) new_state).1 = Ok ast ∧
    generateLocalTokenNames a_imports_b ast = Some localTokenNames ∧
    ∀ t, t ∈ tokens a_result ↔
         pushed a_imports_b (loads_to a_imports_b) a_css ast localTokenNames t.
Proof.
  apply (load_tokens a_imports_b 2 a_css new_state a_result a_loaded
           (reachable_on_new a_imports_b) a_loaded_eq).
Defined.

Lemma load_dependencies_witness :
  ∃ rc ast,
    (readCSS a_imports_b a_css new_state).1 = Ok rc ∧
    (parse a_imports_b (css rc) a_css (map rc) new_state).1 = Ok ast ∧
    (∀ q, asked a_imports_b a_css ast q → ∃ rq, loads_to a_imports_b q rq) ∧
    ∀ d, d ∈ dependencies a_result ↔
      d ≠ a_css ∧
      (d ∈ css_dependencies rc ∨
       ∃ q rq, asked a_imports_b a_css ast q ∧ loads_to a_imports_b q rq ∧
         (d = q ∨ d ∈ dependencies rq)).
Proof.
  apply (load_dependencies a_imports_b 2 a_css new_state a_result a_loaded
           (reachable_on_new a_imports_b) a_loaded_eq).
Defined.

Lemma defaultTransformer_dispatch_witness :
  defaultTransformer inlining reporting "" a_scss = inlining "" a_scss ∧
  defaultTransformer inlining reporting "" a_less = reporting "" a_less ∧
  defaultTransformer inlining reporting "" a_css = TransformedFalse.
Proof.
  destruct (defaultTransformer_dispatch inlining reporting "" a_scss) as [H1 _].
  destruct (defaultTransformer_dispatch inlining reporting "" a_less) as (_ & H2 & _).
  split; [apply (H1 "/src/a"); reflexivity|].
  split; [apply (H2 "/src/a"); reflexivity|].
  vm_compute. reflexivity.
Defined.

Lemma height_a_imports_b p q : q ∈ imported_sheets a_imports_b p → height q < height p.
Proof.
  unfold imported_sheets, readCSS, read_file, bind, record, of_option. simpl.
  unfold assoc. simpl.
  case_bool_decide as Ha; simpl.
  - subst p. vm_compute. intros Hq.
    apply list_elem_of_singleton in Hq. subst q. vm_compute. lia.
  - case_bool_decide as Hb; simpl.
    + subst p. intros Hq. vm_compute in Hq. by apply elem_of_nil in Hq.
    + intros Hq. by apply elem_of_nil in Hq.
Defined.

Lemma height_b_deleted p q : q ∈ imported_sheets b_deleted p → height q < height p.
Proof.
  unfold imported_sheets, readCSS, read_file, bind, record, of_option. simpl.
  unfold assoc. simpl.
  case_bool_decide as Ha; simpl.
  - subst p. vm_compute. intros Hq.
    apply list_elem_of_singleton in Hq. subst q. vm_compute. lia.
  - intros Hq. by apply elem_of_nil in Hq.
Defined.

Lemma load_frame_witness :
  cache a_loaded !! missing_css = cache new_state !! missing_css ∧
  cache b_deleted_failed !! a_css = cache new_state !! a_css.
Proof.
  destruct (load_frame a_imports_b height height_a_imports_b 2 a_css new_state)
    as [H1 _].
  destruct (load_frame b_deleted height height_b_deleted 2 a_css new_state)
    as [_ H2].
  split.
  - apply (H1 missing_css); [discriminate|vm_compute; lia].
  - apply (H2 (StatError b_css)). vm_compute. reflexivity.
Defined.

Lemma failing_import_fails_the_load_witness :
  load unresolvable 1 a_css new_state
  = (Err (CouldNotResolve "./x.css" a_css),
     mkState (cache new_state) false
       (EvResolve "./x.css" a_css :: EvReadFile a_css :: EvStat a_css :: log new_state)) ∧
  load b_deleted 2 a_css new_state
  = (Err (StatError b_css), set_loading false (_load b_deleted 1 b_css a_resolved).2).
Proof.
  split.
  - refine (proj1 (failing_import_fails_the_load unresolvable 0 a_css new_state 1%Z
                     (mkReadCSS "A" None [])
                     ([NImport None; NImport (Some "");
                       NImport (Some "https://example.com/c.css");
                       NImport (Some "./x.css")], []) []
                     [NImport None; NImport (Some "");
                      NImport (Some "https://example.com/c.css")]
                     (NImport (Some "./x.css")) [] "./x.css"
                     eq_refl eq_refl eq_refl eq_refl eq_refl eq_refl eq_refl
                     _ eq_refl _ eq_refl) eq_refl).
    + constructor; [exact I|]. constructor; [left; reflexivity|].
      constructor; [right; reflexivity|constructor].
    + discriminate.
  - refine (proj2 (failing_import_fails_the_load b_deleted 1 a_css new_state 1%Z
                     (mkReadCSS "A" None [])
                     ([NImport (Some b_css); NImport (Some "https://example.com/c.css");
                       NClass "a" (mkLocation a_css 3 0)], ["a"]) ["a"]
                     [] (NImport (Some b_css))
                     [NImport (Some "https://example.com/c.css")] b_css
                     eq_refl eq_refl eq_refl eq_refl eq_refl eq_refl eq_refl
                     _ eq_refl _ eq_refl)
                  b_css (StatError b_css) (_load b_deleted 1 b_css a_resolved).2
                  eq_refl _).
    + constructor.
    + discriminate.
    + vm_compute. reflexivity.
Defined.

Lemma result_lists_in_loop_order_witness :
  (∃ entry, cache new_state !! a_css = Some entry ∧ a_result = result entry) ∨
  (∃ rc ast localTokenNames s1 imported s2 valued s3,
     (readCSS a_imports_b a_css new_state).1 = Ok rc ∧
     (parse a_imports_b (css rc) a_css (map rc) new_state).1 = Ok ast ∧
     generateLocalTokenNames a_imports_b ast = Some localTokenNames ∧
     for_atImports a_imports_b (_load a_imports_b 1) a_css
       (atImports (collectNodes a_imports_b ast)) [] [] s1
     = (Ok imported, s2) ∧
     for_atValues a_imports_b (_load a_imports_b 1) a_css
       (atValues (collectNodes a_imports_b ast)) [] [] s2
     = (Ok valued, s3) ∧
     dependencies a_result
     = filter (λ dep, dep ≠ a_css)
         (unique (css_dependencies rc ++ imported.1 ++ valued.1)) ∧
     tokens a_result
     = uniqueBy (imported.2
                 ++ (class_token a_imports_b <$>
                       filter (λ selector, value a_imports_b selector.2 ∈ localTokenNames)
                              (classSelectors (collectNodes a_imports_b ast)))
                 ++ valued.2) JSON_stringify).
Proof.
  apply (result_lists_in_loop_order a_imports_b 1 a_css new_state a_result
           (_load a_imports_b 2 a_css new_state).2).
  vm_compute. reflexivity.
Defined.
End MoreWitnesses.
